(** * Room-nav-demo: the camera waypoint pipeline

    A shallow embedding of the waypoint scripts
    (waypoint-fetcher, waypoint-path-builder, camera-mover,
    flow-coordinator and the two monolithic camera-waypoint-path variants)
    and the properties of their loader and parsers, segmenter, spline
    sampler, motion sequencer and input switch.

    Numbers.  The scripts run on IEEE binary64 numbers.  In the embedding
    of the scripts a number is a real number: [Math.sqrt] is [sqrt] and
    [Math.pow] is [Rpower] (every call site has a positive base); NaN and
    the infinities are outside the model.  The reals serve for what the
    scripts settle by structure: which tasks, segments and samples there
    are, how many, in what order, which values are copies of an input, and
    which way a comparison of such values goes.  What a rounded operation
    yields is not read off the reals: the module [Binary64] has the
    sampler's arithmetic on binary64 numbers, and what rounding breaks is
    shown there by evaluation.  Array indices and loop counters are integers
    ([Z], [nat]). *)

From Stdlib Require Import String Ascii.
From Stdlib Require Import Reals Lra Lia ZArith List Bool.
From Stdlib Require Import Sorting.Sorted.
From Stdlib Require Floats.
Import ListNotations.

Local Open Scope R_scope.

(** ** JavaScript built-ins used by the scripts *)

Module Js.

(** [a > b] and [a < b] on numbers. *)
Definition gtb (a b : R) : bool := if Rlt_dec b a then true else false.
Definition ltb (a b : R) : bool := if Rlt_dec a b then true else false.

Definition Math_max (a b : R) : R := Rmax a b.
Definition Math_min (a b : R) : R := Rmin a b.
Definition Math_abs (a : R) : R := Rabs a.
Definition Math_sqrt (a : R) : R := sqrt a.
Definition Math_pow (a b : R) : R := Rpower a b.

(** [Math.ceil] and [Math.round] (halves round up) as integers. *)
Definition Math_ceil (a : R) : Z := Zceil a.
Definition Math_round (a : R) : Z := Zfloor (a + / 2).

(** [x || d] on numbers: the default replaces a zero. *)
Definition or_num (x d : R) : R := if Req_dec_T x 0 then d else x.

(** The insertion-ordered [Set] of integers: [add] keeps the first
    occurrence, [Array.from] lists the members in insertion order. *)
Definition Set_has (x : Z) (s : list Z) : bool := existsb (Z.eqb x) s.
Definition Set_add (x : Z) (s : list Z) : list Z :=
  if Set_has x s then s else s ++ [x].

(** [Array.prototype.sort((a, b) => a - b)]: the ascending arrangement of
    the array, computed here by insertion. *)
Fixpoint insert_asc (x : Z) (l : list Z) : list Z :=
  match l with
  | [] => [x]
  | y :: l' => if (x <=? y)%Z then x :: l else y :: insert_asc x l'
  end.

Fixpoint sort_asc (l : list Z) : list Z :=
  match l with
  | [] => []
  | x :: l' => insert_asc x (sort_asc l')
  end.

End Js.

(** ** The engine's [Vec3] (playcanvas), the methods the scripts call *)

Record Vec3 : Type := mkVec3 { vx : R; vy : R; vz : R }.

Module V3.

Definition add (a b : Vec3) : Vec3 :=
  mkVec3 (vx a + vx b) (vy a + vy b) (vz a + vz b).

Definition sub (a b : Vec3) : Vec3 :=
  mkVec3 (vx a - vx b) (vy a - vy b) (vz a - vz b).

Definition mulScalar (a : Vec3) (k : R) : Vec3 :=
  mkVec3 (vx a * k) (vy a * k) (vz a * k).

Definition lengthSq (a : Vec3) : R := vx a * vx a + vy a * vy a + vz a * vz a.

Definition length (a : Vec3) : R := Js.Math_sqrt (lengthSq a).

(** [a.distance(b)]. *)
Definition distance (a b : Vec3) : R := Js.Math_sqrt (lengthSq (sub a b)).

(** [a.normalize()]: a zero vector is left as it is. *)
Definition normalize (a : Vec3) : Vec3 :=
  if Js.gtb (lengthSq a) 0
  then mulScalar a (1 / Js.Math_sqrt (lengthSq a))
  else a.

(** [v.lerp(a, b, alpha)]. *)
Definition lerp (a b : Vec3) (alpha : R) : Vec3 :=
  mkVec3 (vx a + alpha * (vx b - vx a))
         (vy a + alpha * (vy b - vy a))
         (vz a + alpha * (vz b - vz a)).

End V3.

(** ** waypoint-path-builder.mjs: the Segmenter *)

Record Segment : Type := mkSegment {
  start : Z;
  end_ : Z;
  prevPoint : option Vec3;
  nextPoint : option Vec3
}.

Module WaypointPathBuilder.

(** [(pauses[i] ?? 0) > 0]. *)
Definition pauseAt (pauses : list R) (i : nat) : R := nth i pauses 0.

(** The [stops] set after the three [add] phases of [_buildSegments]. *)
Definition stopSet (length : nat) (pauses : list R) : list Z :=
  fold_left
    (fun stops i =>
       if Js.gtb (pauseAt pauses i) 0 then Js.Set_add (Z.of_nat i) stops
       else stops)
    (seq 0 length)
    (Js.Set_add (Z.of_nat length - 1) (Js.Set_add 0 [])).

(** [indices = Array.from(stops).sort((a, b) => a - b)]. *)
Definition stopIndices (length : nat) (pauses : list R) : list Z :=
  Js.sort_asc (stopSet length pauses).

(** [positions[k].clone()] for an index the code has computed. *)
Definition pointAt (positions : list Vec3) (k : Z) : option Vec3 :=
  nth_error positions (Z.to_nat k).

(** The loop over consecutive pairs of [indices]. *)
Fixpoint segmentsOf (positions : list Vec3) (indices : list Z)
  : list Segment :=
  match indices with
  | [] => []
  | start :: rest =>
      match rest with
      | [] => []
      | end_ :: _ =>
          if (end_ <=? start)%Z then segmentsOf positions rest
          else
            let length := Z.of_nat (List.length positions) in
            let prevPoint :=
              if (0 <? start)%Z then pointAt positions (start - 1) else None in
            let nextPoint :=
              if (end_ + 1 <? length)%Z then pointAt positions (end_ + 1)
              else None in
            mkSegment start end_ prevPoint nextPoint
              :: segmentsOf positions rest
      end
  end.

Definition _buildSegments (positions : list Vec3) (pauses : list R)
  : list Segment :=
  segmentsOf positions (stopIndices (List.length positions) pauses).

(** *** The Spline Sampler *)

Definition EPSILON : R := 1 / 1000000.

(** The distances [points[i].distance(points[i - 1])], [i = 1 ..]. *)
Fixpoint segmentLengths (points : list Vec3) : list R :=
  match points with
  | [] => []
  | a :: rest =>
      match rest with
      | [] => []
      | b :: _ => V3.distance b a :: segmentLengths rest
      end
  end.

Definition _chainLength (points : list Vec3) : R :=
  fold_left (fun distance d => distance + d) (segmentLengths points) 0.

Definition _getT (ti : R) (p q : Vec3) (alpha : R) : R :=
  let distance := V3.distance p q in
  ti + Js.Math_pow (Js.Math_max distance (1 / 10000)) alpha.

Definition _lerpVec3 (a b : Vec3) (t : R) : Vec3 :=
  let alpha := Js.Math_min (Js.Math_max t 0) 1 in
  V3.lerp a b alpha.

Definition _safeDivide (numerator divisor : R) : R :=
  if Js.ltb (Js.Math_abs divisor) EPSILON then 0 else numerator / divisor.

Definition _catmullRom (p0 p1 p2 p3 : Vec3) (t alpha : R) : Vec3 :=
  let t0 := 0 in
  let t1 := _getT t0 p0 p1 alpha in
  let t2 := _getT t1 p1 p2 alpha in
  let t3 := _getT t2 p2 p3 alpha in
  let tt := t1 + (t2 - t1) * t in
  let A1 := _lerpVec3 p0 p1 (_safeDivide (tt - t0) (t1 - t0)) in
  let A2 := _lerpVec3 p1 p2 (_safeDivide (tt - t1) (t2 - t1)) in
  let A3 := _lerpVec3 p2 p3 (_safeDivide (tt - t2) (t3 - t2)) in
  let B1 := _lerpVec3 A1 A2 (_safeDivide (tt - t0) (t2 - t0)) in
  let B2 := _lerpVec3 A2 A3 (_safeDivide (tt - t1) (t3 - t1)) in
  _lerpVec3 B1 B2 (_safeDivide (tt - t1) (t2 - t1)).

Definition _extrapolate (point reference : Vec3) (lengthFactor : R) : Vec3 :=
  let dir := V3.sub point reference in
  let dir := if Js.ltb (V3.lengthSq dir) EPSILON then mkVec3 0 0 1 else dir in
  V3.add point (V3.mulScalar (V3.normalize dir) lengthFactor).

(** [points[i] || fallback]: the fallback stands in for an index outside
    the chain. *)
Definition pointOr (points : list Vec3) (i : Z) (fallback : Vec3) : Vec3 :=
  if (i <? 0)%Z then fallback else nth (Z.to_nat i) points fallback.

(** [prevPoint ?? this._extrapolate(points[0], points[1] || points[0], -2)]
    and its counterpart at the far end,
    [nextPoint ?? this._extrapolate(last, beforeLast || last, 2)]; the
    chain is not empty where they are read. *)
Definition startExtra (points : list Vec3) (prevPoint : option Vec3)
  : Vec3 :=
  match prevPoint with
  | Some p => p
  | None =>
      let first := nth 0 points (mkVec3 0 0 0) in
      _extrapolate first (pointOr points 1 first) (-2)
  end.

Definition endExtra (points : list Vec3) (nextPoint : option Vec3) : Vec3 :=
  match nextPoint with
  | Some p => p
  | None =>
      let length := Z.of_nat (List.length points) in
      let last := pointOr points (length - 1) (mkVec3 0 0 0) in
      _extrapolate last (pointOr points (length - 2) last) 2
  end.

Definition extendedPoints (points : list Vec3)
  (prevPoint nextPoint : option Vec3) : list Vec3 :=
  startExtra points prevPoint :: points ++ [endExtra points nextPoint].

(** The control points [extended[i .. i + 3]] of the interior segments,
    [i = 0 ..]. *)
Fixpoint windows (extended : list Vec3)
  : list (Vec3 * Vec3 * Vec3 * Vec3) :=
  match extended with
  | [] => []
  | p0 :: rest =>
      match rest with
      | p1 :: p2 :: p3 :: _ => (p0, p1, p2, p3) :: windows rest
      | _ => []
      end
  end.

(** [steps] of one interior segment. *)
Definition stepsOf (sampleCount totalLength segmentLength : R) : Z :=
  let ratio := segmentLength / totalLength in
  Z.max 4 (Js.Math_round (sampleCount * ratio)).

(** The inner loop: the samples of one interior segment. *)
Definition segmentSamples (w : Vec3 * Vec3 * Vec3 * Vec3)
  (segmentLength totalLength sampleCount alpha : R) : list Vec3 :=
  let '(p0, p1, p2, p3) := w in
  let steps := stepsOf sampleCount totalLength segmentLength in
  map (fun j => _catmullRom p0 p1 p2 p3 (INR j / IZR steps) alpha)
      (seq 0 (Z.to_nat steps)).

(** The interior segments of a chain with the length of each. *)
Definition interiorSegments (points : list Vec3)
  (prevPoint nextPoint : option Vec3)
  : list ((Vec3 * Vec3 * Vec3 * Vec3) * R) :=
  combine (windows (extendedPoints points prevPoint nextPoint))
          (segmentLengths points).

Definition _sampleCurve (points : list Vec3)
  (prevPoint nextPoint : option Vec3) (sampleCount alpha : R)
  : list Vec3 :=
  if (List.length points <? 2)%nat then points
  else
    let totalLength := Js.or_num (_chainLength points) 1 in
    List.concat
      (map (fun ws => segmentSamples (fst ws) (snd ws)
                        totalLength sampleCount alpha)
           (interiorSegments points prevPoint nextPoint))
    ++ [nth (List.length points - 1) points (mkVec3 0 0 0)].

(** *** [buildPath] *)

Record Config : Type := mkConfig {
  sampleDensity : R;
  minSamples : R;
  catmullAlpha : R
}.

Definition defaultConfig : Config := mkConfig 6 24 (7 / 10).

Record BuiltSegment : Type := mkBuiltSegment {
  startIndex : Z;
  endIndex : Z;
  samples : list Vec3;
  distance : R
}.

(** [positions[idx].clone()] for [idx = start .. end]. *)
Definition segmentPoints (positions : list Vec3) (segment : Segment)
  : list Vec3 :=
  firstn (Z.to_nat (end_ segment - start segment + 1))
         (skipn (Z.to_nat (start segment)) positions).

(** [Math.max(this.minSamples, Math.ceil(distance * this.sampleDensity))]. *)
Definition sampleBudget (cfg : Config) (distance : R) : R :=
  Js.Math_max (minSamples cfg)
              (IZR (Js.Math_ceil (distance * sampleDensity cfg))).

(** The samples [buildPath] asks for: the budget from the chain's own
    length, the builder's alpha. *)
Definition segmentCurve (cfg : Config) (points : list Vec3)
  (prevPoint nextPoint : option Vec3) : list Vec3 :=
  let distance := _chainLength points in
  let sampleCount := sampleBudget cfg distance in
  _sampleCurve points prevPoint nextPoint sampleCount (catmullAlpha cfg).

(** The same builder with another [sampleDensity]. *)
Definition withDensity (cfg : Config) (density : R) : Config :=
  mkConfig density (minSamples cfg) (catmullAlpha cfg).

Definition buildSegment (cfg : Config) (positions : list Vec3)
  (segment : Segment) : list BuiltSegment :=
  let points := segmentPoints positions segment in
  if (List.length points <? 2)%nat then []
  else
    [mkBuiltSegment (start segment) (end_ segment)
       (segmentCurve cfg points (prevPoint segment) (nextPoint segment))
       (_chainLength points)].

(** The [segments] field of the payload; [None] when there is no
    position. *)
Definition buildPath (cfg : Config) (positions : list Vec3)
  (pauses : list R) : option (list BuiltSegment) :=
  match positions with
  | [] => None
  | _ => Some (flat_map (buildSegment cfg positions)
                        (_buildSegments positions pauses))
  end.

End WaypointPathBuilder.

(** ** The Spline Sampler on binary64 numbers

    The arithmetic of the sampler once more, on the IEEE binary64 numbers
    the scripts run on, with every operation rounded as the engine rounds
    it.  [Math.pow] is taken where the language fixes its value, at the
    exponent zero; [Math.floor], [Math.ceil] and [Math.round] on
    [[0, 2^51)].  Outside these the functions answer [None]. *)

Module Binary64.
Import PrimFloat.
#[local] Set Warnings "-inexact-float".
Local Open Scope float_scope.

Record Vec3 : Type := mkVec3 { x : float; y : float; z : float }.

(** [Math.max] and [Math.min]: NaN if an argument is, and [+0] above
    [-0]. *)
Definition Math_max (a b : float) : float :=
  if orb (is_nan a) (is_nan b) then nan
  else if a <? b then b
  else if b <? a then a
  else if is_zero a then a + b
  else a.

Definition Math_min (a b : float) : float :=
  if orb (is_nan a) (is_nan b) then nan
  else if a <? b then a
  else if b <? a then b
  else if is_zero a then - (- a + - b)
  else a.

(** [Math.pow(base, 0)] is [1] for every base. *)
Definition Math_pow (base exponent : float) : option float :=
  if is_zero exponent then Some 1 else None.

(** The integer nearest to [x], for [0 <= x < 2^51]. *)
Definition nearest (x : float) : float :=
  (x + 4503599627370496) - 4503599627370496.

Definition small (x : float) : bool :=
  andb (0 <=? x) (x <? 2251799813685248).

Definition Math_floor (x : float) : option float :=
  if small x
  then Some (if x <? nearest x then nearest x - 1 else nearest x)
  else None.

Definition Math_ceil (x : float) : option float :=
  if small x
  then Some (if nearest x <? x then nearest x + 1 else nearest x)
  else None.

(** [Math.round]: halves go up. *)
Definition Math_round (x : float) : option float :=
  match Math_floor x with
  | Some f => Some (if x - f <? 0.5 then f else f + 1)
  | None => None
  end.

(** The engine's [distance] and [lerp]. *)
Definition distance (a b : Vec3) : float :=
  let dx := x a - x b in
  let dy := y a - y b in
  let dz := z a - z b in
  sqrt (dx * dx + dy * dy + dz * dz).

Definition lerp (a b : Vec3) (alpha : float) : Vec3 :=
  mkVec3 (x a + alpha * (x b - x a))
         (y a + alpha * (y b - y a))
         (z a + alpha * (z b - z a)).

Definition EPSILON : float := 0.000001.

Definition _getT (ti : float) (p q : Vec3) (alpha : float) : option float :=
  match Math_pow (Math_max (distance p q) 0.0001) alpha with
  | Some step => Some (ti + step)
  | None => None
  end.

Definition _lerpVec3 (a b : Vec3) (t : float) : Vec3 :=
  let alpha := Math_min (Math_max t 0) 1 in
  lerp a b alpha.

Definition _safeDivide (numerator divisor : float) : float :=
  if abs divisor <? EPSILON then 0 else numerator / divisor.

Definition _catmullRom (p0 p1 p2 p3 : Vec3) (t alpha : float)
  : option Vec3 :=
  let t0 := 0 in
  match _getT t0 p0 p1 alpha with
  | None => None
  | Some t1 =>
      match _getT t1 p1 p2 alpha with
      | None => None
      | Some t2 =>
          match _getT t2 p2 p3 alpha with
          | None => None
          | Some t3 =>
              let tt := t1 + (t2 - t1) * t in
              let A1 := _lerpVec3 p0 p1 (_safeDivide (tt - t0) (t1 - t0)) in
              let A2 := _lerpVec3 p1 p2 (_safeDivide (tt - t1) (t2 - t1)) in
              let A3 := _lerpVec3 p2 p3 (_safeDivide (tt - t2) (t3 - t2)) in
              let B1 := _lerpVec3 A1 A2 (_safeDivide (tt - t0) (t2 - t0)) in
              let B2 := _lerpVec3 A2 A3 (_safeDivide (tt - t1) (t3 - t1)) in
              Some (_lerpVec3 B1 B2 (_safeDivide (tt - t1) (t2 - t1)))
          end
      end
  end.

(** The distances [points[i].distance(points[i - 1])] and their sum. *)
Fixpoint segmentLengths (points : list Vec3) : list float :=
  match points with
  | [] => []
  | a :: rest =>
      match rest with
      | [] => []
      | b :: _ => distance b a :: segmentLengths rest
      end
  end.

Definition _chainLength (points : list Vec3) : float :=
  fold_left (fun total d => total + d) (segmentLengths points) 0.

(** [steps] of one interior segment:
    [Math.max(4, Math.round(sampleCount * ratio))]. *)
Definition stepsOf (sampleCount totalLength segmentLength : float)
  : option float :=
  let ratio := segmentLength / totalLength in
  match Math_round (sampleCount * ratio) with
  | Some r => Some (Math_max 4 r)
  | None => None
  end.

(** [Math.max(minSamples, Math.ceil(distance * sampleDensity))]. *)
Definition sampleBudget (minSamples sampleDensity distance_ : float)
  : option float :=
  match Math_ceil (distance_ * sampleDensity) with
  | Some c => Some (Math_max minSamples c)
  | None => None
  end.

(** The [steps] of the interior segments of a chain, as [_sampleCurve]
    computes them with the budget [buildPath] hands it. *)
Definition stepsOfChain (minSamples sampleDensity : float)
  (points : list Vec3) : list (option float) :=
  let d := _chainLength points in
  let totalLength := if orb (is_zero d) (is_nan d) then 1 else d in
  match sampleBudget minSamples sampleDensity d with
  | Some sampleCount =>
      map (stepsOf sampleCount totalLength) (segmentLengths points)
  | None => []
  end.

(** The engine's [mulScalar]. *)
Definition scale (k : float) (p : Vec3) : Vec3 :=
  mkVec3 (x p * k) (y p * k) (z p * k).

End Binary64.

(** ** waypoint-fetcher.mjs: the parsers

    [CameraWaypointPath._parseJson] and [_parseCsv] of the monolithic script
    have the same loops and store the three arrays in the instance. *)

(** The values [JSON.parse] yields, and [undefined] for a missing property. *)
#[warnings="-register-all"] Inductive JsValue : Type :=
| JUndefined
| JNull
| JBool (b : bool)
| JNum (r : R)
| JStr (s : string)
| JArr (items : list JsValue)
| JObj (fields : list (string * JsValue)).

Record Payload : Type := mkPayload {
  positions : list Vec3;
  rotations : list Vec3;
  pauses : list R;
  source : string
}.

Module Text.

(** The white space of an ASCII text, what [trim] removes at both ends.
    The blanks beyond ASCII that [trim] removes as well (U+00A0, U+FEFF,
    the Unicode space separators) are not in the model's texts. *)
Definition isSpace (c : ascii) : bool :=
  existsb (Ascii.eqb c)
          [" "; "009"; "010"; "011"; "012"; "013"]%char.

Fixpoint dropSpaces (cs : list ascii) : list ascii :=
  match cs with
  | [] => []
  | c :: cs' => if isSpace c then dropSpaces cs' else cs
  end.

Definition trim (cs : list ascii) : list ascii :=
  rev (dropSpaces (rev (dropSpaces cs))).

Definition LF : ascii := "010"%char.
Definition CR : ascii := "013"%char.

(** The carriage return the pattern [\r?\n] takes with the line feed;
    [cur] is the current line, last character first. *)
Definition dropCR (cur : list ascii) : list ascii :=
  match cur with
  | c :: rest => if Ascii.eqb c CR then rest else cur
  | [] => []
  end.

(** [text.split(/\r?\n/)]. *)
Fixpoint splitLines (cs cur : list ascii) : list (list ascii) :=
  match cs with
  | [] => [rev cur]
  | c :: cs' =>
      if Ascii.eqb c LF then rev (dropCR cur) :: splitLines cs' []
      else splitLines cs' (c :: cur)
  end.

Fixpoint prefixb (d cs : list ascii) : bool :=
  match d, cs with
  | [], _ => true
  | _ :: _, [] => false
  | a :: d', c :: cs' => Ascii.eqb a c && prefixb d' cs'
  end.

(** [line.split(delimiter)] for a non-empty delimiter; [skip] counts the
    characters of a delimiter still to pass over. *)
Fixpoint splitOn (d cs : list ascii) (skip : nat) (cur : list ascii)
  : list (list ascii) :=
  match cs with
  | [] => [rev cur]
  | c :: cs' =>
      match skip with
      | S k => splitOn d cs' k cur
      | O =>
          if prefixb d cs
          then rev cur :: splitOn d cs' (List.length d - 1) []
          else splitOn d cs' 0 (c :: cur)
      end
  end.

(** [line.split(delimiter)]; the empty delimiter splits into
    characters. *)
Definition split (delimiter line : list ascii) : list (list ascii) :=
  match delimiter with
  | [] => map (fun c => [c]) line
  | _ => splitOn delimiter line 0 []
  end.

Definition nonEmpty (cs : list ascii) : bool :=
  match cs with [] => false | _ => true end.

End Text.

Module WaypointFetcher.
Section Parsers.

(** The built-in [Number()] conversion, [None] for NaN, on values and on
    CSV fields. *)
Variable Number : JsValue -> option R.

(** *** Reading a JSON row *)

Definition truthy (v : JsValue) : bool :=
  match v with
  | JUndefined | JNull => false
  | JBool b => b
  | JNum r => if Req_dec_T r 0 then false else true
  | JStr s => negb (String.eqb s EmptyString)
  | JArr _ | JObj _ => true
  end.

Definition nullish (v : JsValue) : bool :=
  match v with
  | JUndefined | JNull => true
  | _ => false
  end.

(** [a || b] and [a ?? b]. *)
Definition or_else (a b : JsValue) : JsValue := if truthy a then a else b.
Definition coalesce (a b : JsValue) : JsValue := if nullish a then b else a.

Fixpoint lookup (k : string) (fields : list (string * JsValue)) : JsValue :=
  match fields with
  | [] => JUndefined
  | (k', v) :: rest => if String.eqb k k' then v else lookup k rest
  end.

(** [v.k] for the property names the parsers read: only an object can
    have one. *)
Definition prop (v : JsValue) (k : string) : JsValue :=
  match v with
  | JObj fields => lookup k fields
  | _ => JUndefined
  end.

Definition indexKey (i : nat) : string :=
  match i with
  | 0%nat => "0"
  | 1%nat => "1"
  | _ => "2"
  end.

(** [v[i]] for [i] in [0 .. 2]. *)
Definition index (v : JsValue) (i : nat) : JsValue :=
  match v with
  | JArr items => nth i items JUndefined
  | JObj fields => lookup (indexKey i) fields
  | JStr s =>
      match String.get i s with
      | Some c => JStr (String c EmptyString)
      | None => JUndefined
      end
  | _ => JUndefined
  end.

(** [Number(v) || 0]. *)
Definition numberOr0 (v : JsValue) : R :=
  match Number v with
  | Some r => Js.or_num r 0
  | None => 0
  end.

(** A coordinate read from a field [x], [y] or [z] that holds a number.
    The engine's constructor takes the fields as they are: it keeps a
    string or a boolean, and fails on [x: null].  The model's vectors hold
    numbers, so [_toVec3] is the script's on values whose [x], [y] and [z]
    are numbers or missing; the [0] of the other cases is a filler, not
    what the script does. *)
Definition coordinate (v : JsValue) : R :=
  match v with
  | JNum r => r
  | _ => 0
  end.

Definition defined (v : JsValue) : bool :=
  match v with
  | JUndefined => false
  | _ => true
  end.

Definition _toVec3 (value : JsValue) : Vec3 :=
  if truthy value && defined (prop value "x") && defined (prop value "y")
     && defined (prop value "z")
  then mkVec3 (coordinate (prop value "x")) (coordinate (prop value "y"))
              (coordinate (prop value "z"))
  else
    let arr :=
      match value with
      | JArr _ => value
      | _ => JArr [JNum 0; JNum 0; JNum 0]
      end in
    mkVec3 (numberOr0 (index arr 0)) (numberOr0 (index arr 1))
           (numberOr0 (index arr 2)).

(** The three arrays while a parser runs. *)
Definition Arrays : Type := (list Vec3 * list Vec3 * list R)%type.

(** One turn of the loop of [_parseJson]. *)
Definition jsonRow (acc : Arrays) (row : JsValue) : Arrays :=
  let '(positions, rotations, pauses) := acc in
  if negb (truthy row) then acc
  else
    let pos :=
      or_else (prop row "position")
        (or_else (prop row "pos") (or_else (prop row "p") (index row 0))) in
    let rot :=
      or_else (prop row "rotation")
        (or_else (prop row "rot") (or_else (prop row "r") (index row 1))) in
    let wait :=
      coalesce (prop row "pause")
        (coalesce (prop row "wait")
           (coalesce (prop row "delay")
              (coalesce (index row 2) (JNum 0)))) in
    let positions :=
      if truthy pos then positions ++ [_toVec3 pos] else positions in
    let rotations :=
      if truthy rot then rotations ++ [_toVec3 rot] else rotations in
    (positions, rotations, pauses ++ [numberOr0 wait]).

Definition _parseJson (json : JsValue) : option Payload :=
  match json with
  | JArr rows =>
      let '(positions, rotations, pauses) :=
        fold_left jsonRow rows ([], [], []) in
      Some (mkPayload positions rotations pauses "json")
  | _ => None
  end.

(** *** Reading a CSV line *)

Definition fieldNumber (c : list ascii) : option R :=
  Number (JStr (string_of_list_ascii c)).

Definition isNaN (n : option R) : bool :=
  match n with
  | None => true
  | Some _ => false
  end.

Definition num (nums : list (option R)) (i : nat) : R :=
  match nth i nums None with
  | Some r => r
  | None => 0
  end.

(** One turn of the loop of [_parseCsv]. *)
Definition csvLine (csvDelimiter : list ascii) (acc : Arrays)
  (line : list ascii) : Arrays :=
  let '(positions, rotations, pauses) := acc in
  let cols := map Text.trim (Text.split csvDelimiter line) in
  if (List.length cols <? 6)%nat then acc
  else
    let nums := map fieldNumber cols in
    if existsb isNaN nums then acc
    else
      let pause :=
        match nth_error cols 6 with
        | Some c => numberOr0 (JStr (string_of_list_ascii c))
        | None => numberOr0 JUndefined
        end in
      (positions ++ [mkVec3 (num nums 0) (num nums 1) (num nums 2)],
       rotations ++ [mkVec3 (num nums 3) (num nums 4) (num nums 5)],
       pauses ++ [pause]).

Definition csvLines (text : string) : list (list ascii) :=
  filter Text.nonEmpty
    (map Text.trim (Text.splitLines (list_ascii_of_string text) [])).

Definition _parseCsv (csvDelimiter : string) (text : string)
  : option Payload :=
  match csvLines text with
  | [] => None
  | lines =>
      let '(positions, rotations, pauses) :=
        fold_left (csvLine (list_ascii_of_string csvDelimiter)) lines
                  ([], [], []) in
      Some (mkPayload positions rotations pauses "csv")
  end.

End Parsers.

(** [Number()] on the values that need no text to be read: a number is
    itself, [null] and [false] are [0], [true] is [1]; everything else is
    taken as NaN here. *)
Definition NumberOfValue (v : JsValue) : option R :=
  match v with
  | JNum r => Some r
  | JNull => Some 0
  | JBool b => Some (if b then 1 else 0)
  | _ => None
  end.

End WaypointFetcher.

(** ** The engine's quaternion and the values of a [rotations] array *)

Record Quat : Type := mkQuat { qx : R; qy : R; qz : R; qw : R }.

(** [new Quat()]. *)
Definition identityQuat : Quat := mkQuat 0 0 0 1.

Inductive RotValue : Type :=
| RQuat (q : Quat)    (* an instance of Quat *)
| REuler (e : Vec3)   (* an object with x, y and z, the parsers' output *)
| ROther              (* any other truthy value *)
| RAbsent.            (* undefined, a hole, or another falsy value *)

(** ** tween.mjs: the tween primitive

    The scripts import it; its source is not part of the scripts.  A tween
    lives in the application's tween manager, here a list addressed by
    handle. *)

Module Tween.

Inductive Callback : Type :=
| FireWaypoint (index : Z) (position : Vec3) (rotation : Quat)
| LogWaypoint (waypointNumber : Z) (position : Vec3)
| SequenceComplete.

(** What [onUpdate] drives: a sampled curve, a straight hop, or nothing
    (a wait). *)
Inductive Motion : Type :=
| CurveMotion (samples : list Vec3) (fromRot toRot : Quat)
| LinearMotion (fromPos toPos : Vec3) (fromRot toRot : Quat)
| WaitMotion.

Inductive Status : Type := Pending | Active | Completed | Cancelled.

Record t : Type := mk {
  motion : Motion;
  duration : R;
  delay : R;
  callbacks : list Callback;
  chained : option nat;
  status : Status
}.

Definition Heap : Type := list t.

Fixpoint updateAt (id : nat) (f : t -> t) (heap : Heap) : Heap :=
  match heap, id with
  | [], _ => []
  | x :: rest, O => f x :: rest
  | x :: rest, S k => x :: updateAt k f rest
  end.

(** Modelled from the spec: tween.mjs is missing; [app.tween(state).to(
    target, duration, easing)] makes a Motion Task, created pending, with
    no completion callback and no successor. *)
Definition create (m : Motion) (duration delay : R) (heap : Heap)
  : nat * Heap :=
  (List.length heap, heap ++ [mk m duration delay [] None Pending]).

(** Modelled from the spec: tween.mjs is missing; [tween.onComplete(cb)]
    adds a completion callback (a chain of k tasks gives k notifications
    and then the terminal one, so the last task keeps both of its
    callbacks). *)
Definition onComplete (id : nat) (cb : Callback) (heap : Heap) : Heap :=
  updateAt id
    (fun x => mk (motion x) (duration x) (delay x) (callbacks x ++ [cb])
                 (chained x) (status x))
    heap.

(** Modelled from the spec: tween.mjs is missing; [tween.chain(next)]
    links the task started when this one completes. *)
Definition chain (id next : nat) (heap : Heap) : Heap :=
  updateAt id
    (fun x => mk (motion x) (duration x) (delay x) (callbacks x)
                 (Some next) (status x))
    heap.

(** Modelled from the spec: tween.mjs is missing; [tween.start()] makes a
    pending task the active one. *)
Definition start (id : nat) (heap : Heap) : Heap :=
  updateAt id
    (fun x =>
       match status x with
       | Pending => mk (motion x) (duration x) (delay x) (callbacks x)
                       (chained x) Active
       | _ => x
       end)
    heap.

(** Modelled from the spec: tween.mjs is missing; [tween.stop()] cancels
    a pending or active task, with no partial-completion notification. *)
Definition stop (id : nat) (heap : Heap) : Heap :=
  updateAt id
    (fun x =>
       match status x with
       | Completed => x
       | _ => mk (motion x) (duration x) (delay x) (callbacks x)
                 (chained x) Cancelled
       end)
    heap.

(** Modelled from the spec: tween.mjs is missing; natural completion
    marks the task completed. *)
Definition finish (id : nat) (heap : Heap) : Heap :=
  updateAt id
    (fun x => mk (motion x) (duration x) (delay x) (callbacks x)
                 (chained x) Completed)
    heap.

(** A task that can still run. *)
Definition live (x : t) : bool :=
  match status x with
  | Pending | Active => true
  | _ => false
  end.

End Tween.

(** ** camera-mover.mjs *)

Inductive Event : Type :=
| CameraWaypoint (index : Z) (position : Vec3) (rotation : Quat)
| CameraPathComplete
| CameraMoverStopped.

Module CameraMover.

Record Config : Type := mkConfig {
  movementMode : string;
  durationPerUnit : R;
  minDuration : R;
  autoStart : bool;
  loop : bool;
  useRotations : bool
}.

Definition defaultConfig : Config :=
  mkConfig "curve" (1 / 10) (1 / 10) true false true.

(** A segment of a path as [start] reads it: [samples] may be missing,
    [distance] may be missing or zero, [endIndex] may be missing. *)
Record PathSegment : Type := mkPathSegment {
  samples : option (list Vec3);
  distance : option R;
  startIndex : Z;
  endIndex : option Z
}.

Record Path : Type := mkPath {
  segments : option (list PathSegment);
  rotations : option (list RotValue)
}.

(** The waypoint data [startFromWaypoints] reads. *)
Record Waypoints : Type := mkWaypoints {
  wpPositions : list Vec3;
  wpRotations : option (list RotValue);
  wpPauses : list R
}.

(** The script instance, its target entity, the tween manager and the
    application events fired so far (oldest first). *)
Record World : Type := mkWorld {
  tweens : Tween.Heap;
  fired : list Event;
  localPosition : Vec3;
  localRotation : Quat;
  _tweens : list nat;
  _running : bool;
  _lastPath : option Path
}.

Definition initial (position : Vec3) (rotation : Quat) : World :=
  mkWorld [] [] position rotation [] false None.

Definition withHeap (heap : Tween.Heap) (w : World) : World :=
  mkWorld heap (fired w) (localPosition w) (localRotation w)
          (_tweens w) (_running w) (_lastPath w).

Definition fire (e : Event) (w : World) : World :=
  mkWorld (tweens w) (fired w ++ [e]) (localPosition w) (localRotation w)
          (_tweens w) (_running w) (_lastPath w).

Definition setRunning (b : bool) (w : World) : World :=
  mkWorld (tweens w) (fired w) (localPosition w) (localRotation w)
          (_tweens w) b (_lastPath w).

Definition setLastPath (p : option Path) (w : World) : World :=
  mkWorld (tweens w) (fired w) (localPosition w) (localRotation w)
          (_tweens w) (_running w) p.

(** [this._tweens.push(tween)]. *)
Definition push (id : nat) (w : World) : World :=
  mkWorld (tweens w) (fired w) (localPosition w) (localRotation w)
          (_tweens w ++ [id]) (_running w) (_lastPath w).

Definition setPose (position : Vec3) (rotation : Quat) (w : World)
  : World :=
  mkWorld (tweens w) (fired w) position rotation
          (_tweens w) (_running w) (_lastPath w).

Definition _chainLength (points : list Vec3) : R :=
  WaypointPathBuilder._chainLength points.

Definition stop (restore : bool) (w : World) : World :=
  let heap := fold_left (fun h id => Tween.stop id h) (_tweens w)
                        (tweens w) in
  let w' := mkWorld heap (fired w) (localPosition w) (localRotation w)
                    [] false (_lastPath w) in
  if restore then fire CameraMoverStopped w' else w'.

Definition _finish (w : World) : World :=
  fire CameraPathComplete (setRunning false w).

(** [this._tweens[i - 1].chain(this._tweens[i])], [i = 1 ..]. *)
Fixpoint chainAll (ids : list nat) (heap : Tween.Heap) : Tween.Heap :=
  match ids with
  | [] => heap
  | a :: rest =>
      match rest with
      | [] => heap
      | b :: _ => chainAll rest (Tween.chain a b heap)
      end
  end.

(** The common tail of [start] and [startFromWaypoints]. *)
Definition launch (w : World) : World :=
  match _tweens w with
  | [] => _finish w
  | first :: _ =>
      let heap := chainAll (_tweens w) (tweens w) in
      let heap :=
        Tween.onComplete (last (_tweens w) first) Tween.SequenceComplete
                         heap in
      withHeap (Tween.start first heap) w
  end.

Section Scripts.

(** The engine's [Quat.setFromEulerAngles]. *)
Variable setFromEulerAngles : R -> R -> R -> Quat.

Variable cfg : Config.

Definition _toQuat (value : RotValue) : Quat :=
  match value with
  | RQuat q => q
  | REuler e => setFromEulerAngles (vx e) (vy e) (vz e)
  | _ => identityQuat
  end.

(** [rotations[i]], [undefined] out of range. *)
Definition rotationAt (rotations : option (list RotValue)) (i : Z)
  : RotValue :=
  match rotations with
  | Some rs => if (i <? 0)%Z then RAbsent else nth (Z.to_nat i) rs RAbsent
  | None => RAbsent
  end.

Definition _resolveRotation (path : Path) (endIndex : Z)
  (fallbackRot : Quat) : Quat :=
  if negb (useRotations cfg) then fallbackRot
  else
    match rotationAt (rotations path) endIndex with
    | RAbsent => fallbackRot
    | rot => _toQuat rot
    end.

(** One turn of the loop of [start]; the accumulator is the world and
    [currentRot]. *)
Definition segmentStep (path : Path) (acc : World * Quat)
  (segment : PathSegment) : World * Quat :=
  let '(w, currentRot) := acc in
  match samples segment with
  | None => acc
  | Some samples =>
      if (List.length samples <? 2)%nat then acc
      else
        let distance :=
          match distance segment with
          | Some d => Js.or_num d (_chainLength samples)
          | None => _chainLength samples
          end in
        let duration :=
          Js.Math_max (distance * durationPerUnit cfg) (minDuration cfg) in
        let endIndex :=
          match endIndex segment with
          | Some e => e
          | None =>
              (startIndex segment + Z.of_nat (List.length samples) - 1)%Z
          end in
        let targetRot := _resolveRotation path endIndex currentRot in
        let '(id, heap) :=
          Tween.create (Tween.CurveMotion samples currentRot targetRot)
                       duration 0 (tweens w) in
        let endPos := last samples (mkVec3 0 0 0) in
        let heap :=
          Tween.onComplete id (Tween.FireWaypoint endIndex endPos targetRot)
                           heap in
        (push id (withHeap heap w), targetRot)
  end.

Definition start (path : option Path) (w : World) : World :=
  match path with
  | None => w
  | Some p =>
      match segments p with
      | None | Some [] => w
      | Some segs =>
          let w := setRunning true (stop false w) in
          let currentRot := localRotation w in
          launch (fst (fold_left (segmentStep p) segs (w, currentRot)))
      end
  end.

(** One turn of the loop of [startFromWaypoints], for index [i]. *)
Definition hopStep (rotations : option (list RotValue)) (i : Z)
  (fromPos toPos : Vec3) (acc : World * Quat) : World * Quat :=
  let '(w, currentRot) := acc in
  let distance := V3.distance fromPos toPos in
  let duration :=
    Js.Math_max (distance * durationPerUnit cfg) (minDuration cfg) in
  let targetRot :=
    if useRotations cfg then
      match rotationAt rotations i with
      | RAbsent => currentRot
      | rot => _toQuat rot
      end
    else currentRot in
  let '(id, heap) :=
    Tween.create (Tween.LinearMotion fromPos toPos currentRot targetRot)
                 duration 0 (tweens w) in
  let heap :=
    Tween.onComplete id (Tween.FireWaypoint i toPos targetRot) heap in
  (push id (withHeap heap w), targetRot).

Fixpoint hops (rotations : option (list RotValue)) (i : Z)
  (positions : list Vec3) (acc : World * Quat) : World * Quat :=
  match positions with
  | [] => acc
  | fromPos :: rest =>
      match rest with
      | [] => acc
      | toPos :: _ =>
          hops rotations (i + 1) rest
               (hopStep rotations i fromPos toPos acc)
      end
  end.

Definition startFromWaypoints (data : option Waypoints) (w : World)
  : World :=
  match data with
  | None => w
  | Some d =>
      match wpPositions d with
      | [] => w
      | positions =>
          let rotations :=
            match wpRotations d with
            | Some rs => Some rs
            | None => Some []
            end in
          let w := setRunning true (stop false w) in
          let currentRot := localRotation w in
          launch (fst (hops rotations 1 positions (w, currentRot)))
      end
  end.

Definition _onSequenceComplete (w : World) : World :=
  match loop cfg, _lastPath w with
  | true, Some p => start (Some p) w
  | _, _ => _finish w
  end.

(** The handlers of [path:ready] and [waypoints:loaded]. *)
Definition _boundOnPath (path : option Path) (w : World) : World :=
  let w := setLastPath path w in
  if autoStart cfg then start path w else w.

Definition _boundOnWaypoints (data : option Waypoints) (w : World)
  : World :=
  match _lastPath w with
  | Some _ => w
  | None =>
      if negb (String.eqb (movementMode cfg) "linear") then w
      else if autoStart cfg then startFromWaypoints data w else w
  end.

(** *** The tween manager at work *)

Definition runCallback (w : World) (cb : Tween.Callback) : World :=
  match cb with
  | Tween.FireWaypoint index position rotation =>
      fire (CameraWaypoint index position rotation) w
  | Tween.LogWaypoint _ _ => w
  | Tween.SequenceComplete => _onSequenceComplete w
  end.

(** Where the last [onUpdate], at [t = 1], leaves the target: on the last
    sample of the curve ([scaled = totalSegments], [blend = 0]) or on
    [toPos], turned to [toRot] (the engine's [slerp] at [1]).  The updates
    in between are not modelled. *)
Definition arrive (m : Tween.Motion) (w : World) : World :=
  match m with
  | Tween.CurveMotion samples _ toRot =>
      match samples with
      | [] => w
      | _ => setPose (last samples (mkVec3 0 0 0)) toRot w
      end
  | Tween.LinearMotion _ toPos _ toRot => setPose toPos toRot w
  | Tween.WaitMotion => w
  end.

(** Modelled from the spec: tween.mjs is missing; the active task [id]
    reaches the end of its duration: its last update runs, then its
    completion callbacks in the order they were added, then its successor
    starts.  A task that is not active does nothing. *)
Definition complete (id : nat) (w : World) : World :=
  match nth_error (tweens w) id with
  | None => w
  | Some x =>
      match Tween.status x with
      | Tween.Active =>
          let w := arrive (Tween.motion x) w in
          let w := withHeap (Tween.finish id (tweens w)) w in
          let w := fold_left runCallback (Tween.callbacks x) w in
          match Tween.chained x with
          | Some next => withHeap (Tween.start next (tweens w)) w
          | None => w
          end
      | _ => w
      end
  end.

(** What can happen to a mover: its handlers and methods are called, and
    tasks complete. *)
Inductive Command : Type :=
| PathReady (path : option Path)
| WaypointsLoaded (data : option Waypoints)
| Start (path : option Path)
| StartFromWaypoints (data : option Waypoints)
| Stop (restore : bool)
| Complete (id : nat).

Definition step (w : World) (c : Command) : World :=
  match c with
  | PathReady path => _boundOnPath path w
  | WaypointsLoaded data => _boundOnWaypoints data w
  | Start path => start path w
  | StartFromWaypoints data => startFromWaypoints data w
  | Stop restore => stop restore w
  | Complete id => complete id w
  end.

Definition run (w : World) (cs : list Command) : World :=
  fold_left step cs w.

End Scripts.

End CameraMover.

(** ** camera-waypoint-path.mjs: the monolithic script

    The tasks its [startPath] builds, in [_tweens] order, with the carried
    position and orientation.  Its [_buildSegments], [_sampleCurve] and the
    helpers under them have the bodies of the path builder's, with alpha
    fixed at [0.7]. *)

Module CameraWaypointPath.
Section Script.

Variable setFromEulerAngles : R -> R -> R -> Quat.
Variables durationPerUnit minDuration : R.
Variable waypointPositions : list Vec3.
Variable waypointRotations : list RotValue.

(** [this.waypointPositions[i]] and [this.waypointRotations[i]]. *)
Definition positionAt (i : Z) : option Vec3 :=
  if (i <? 0)%Z then None else nth_error waypointPositions (Z.to_nat i).

Definition rotationAt (i : Z) : RotValue :=
  if (i <? 0)%Z then RAbsent else nth (Z.to_nat i) waypointRotations RAbsent.

Definition _toVec3 (value : option Vec3) (fallback : Vec3) : Vec3 :=
  match value with
  | Some v => v
  | None => fallback
  end.

Definition _toQuat (value : RotValue) (fallbackQuat : Quat) : Quat :=
  match value with
  | RQuat q => q
  | REuler e => setFromEulerAngles (vx e) (vy e) (vz e)
  | _ => fallbackQuat
  end.

(** The indices [start .. end]. *)
Definition indexRange (start end_ : Z) : list Z :=
  map (fun k => (start + Z.of_nat k)%Z)
      (seq 0 (Z.to_nat (end_ - start + 1))).

Definition _collectSegmentPoints (start end_ : Z) (currentPos : Vec3)
  : list Vec3 :=
  currentPos
    :: map (fun idx => _toVec3 (positionAt idx) currentPos)
           (indexRange start end_).

Record Carry : Type := mkCarry {
  tasks : list Tween.t;
  currentPos : Vec3;
  currentRot : Quat
}.

(** One turn of the loop of [startPath]. *)
Definition segmentStep (c : Carry) (segment : Segment) : Carry :=
  let pathPoints :=
    _collectSegmentPoints (start segment) (end_ segment) (currentPos c) in
  if (List.length pathPoints <? 2)%nat then
    mkCarry (tasks c)
      (_toVec3 (positionAt (end_ segment)) (currentPos c))
      (_toQuat (rotationAt (end_ segment)) (currentRot c))
  else
    let totalDistance := WaypointPathBuilder._chainLength pathPoints in
    let duration :=
      Js.Math_max (totalDistance * durationPerUnit) minDuration in
    let curvePoints :=
      WaypointPathBuilder._sampleCurve pathPoints
        (prevPoint segment) (nextPoint segment)
        (Js.Math_max 24 (IZR (Js.Math_ceil (totalDistance * 6))))
        (7 / 10) in
    let targetRotQuat :=
      _toQuat (rotationAt (end_ segment)) (currentRot c) in
    let endPos := last curvePoints (mkVec3 0 0 0) in
    let moveTween :=
      Tween.mk (Tween.CurveMotion curvePoints (currentRot c) targetRotQuat)
               duration 0
               [Tween.LogWaypoint (end_ segment + 1) endPos]
               None Tween.Pending in
    mkCarry (tasks c ++ [moveTween]) endPos targetRotQuat.

End Script.
End CameraWaypointPath.

(** ** The linear variant of the monolithic script

    Its [startPath] makes one hop per waypoint, the first from where the
    entity stands, and a wait after a waypoint that asks for one. *)

Module CameraWaypointPathLinear.
Section Script.

Variable setFromEulerAngles : R -> R -> R -> Quat.
Variables durationPerUnit minDuration : R.
Variable waypointRotations : list RotValue.
Variable waypointPauses : list R.

Definition _toQuat (value : RotValue) (fallbackQuat : Quat) : Quat :=
  match value with
  | RQuat q => q
  | REuler e => setFromEulerAngles (vx e) (vy e) (vz e)
  | _ => fallbackQuat
  end.

(** [app.tween({ t: 0 }).to({ t: 0 }, 0).delay(pause)]. *)
Definition waitTween (pause : R) : Tween.t :=
  Tween.mk Tween.WaitMotion 0 pause [] None Tween.Pending.

(** The loop of [startPath] from index [i] on; [positions] holds the
    waypoints from [i]. *)
Fixpoint hops (i : nat) (positions : list Vec3)
  (currentPos : Vec3) (currentRot : Quat) : list Tween.t :=
  match positions with
  | [] => []
  | targetPos :: rest =>
      let targetRotQuat :=
        _toQuat (nth i waypointRotations RAbsent) currentRot in
      let distance := V3.distance currentPos targetPos in
      let duration :=
        Js.Math_max (distance * durationPerUnit) minDuration in
      let moveTween :=
        Tween.mk
          (Tween.LinearMotion currentPos targetPos currentRot targetRotQuat)
          duration 0
          [Tween.LogWaypoint (Z.of_nat i + 1) targetPos]
          None Tween.Pending in
      let pause := Js.or_num (nth i waypointPauses 0) 0 in
      let wait := if Js.gtb pause 0 then [waitTween pause] else [] in
      moveTween :: wait ++ hops (S i) rest targetPos targetRotQuat
  end.

(** The tasks of [startPath], in [_tweens] order. *)
Definition startPathTweens (waypointPositions : list Vec3)
  (entityPos : Vec3) (entityRot : Quat) : list Tween.t :=
  hops 0 waypointPositions entityPos entityRot.

End Script.
End CameraWaypointPathLinear.

(** ** What the sequencers' output is measured against *)

(** The Motion Task of a hop between two waypoints: a straight move of
    duration [max(distance * durationPerUnit, minDuration)]. *)
Definition isHop (durationPerUnit minDuration : R) (a b : Vec3)
  (x : Tween.t) : Prop :=
  (exists fromRot toRot,
     Tween.motion x = Tween.LinearMotion a b fromRot toRot) /\
  Tween.duration x =
    Rmax (V3.distance a b * durationPerUnit) minDuration.

(** The shape of the hop between two waypoints. *)
Definition hopShape (durationPerUnit minDuration : R) (ab : Vec3 * Vec3)
  (s : Tween.Motion * R * R) : Prop :=
  exists fromRot toRot,
    s = (Tween.LinearMotion (fst ab) (snd ab) fromRot toRot,
         Rmax (V3.distance (fst ab) (snd ab) * durationPerUnit) minDuration,
         0).

(** A wait of [pause] seconds: no motion, no duration of its own. *)
Definition isWait (pause : R) (x : Tween.t) : Prop :=
  Tween.motion x = Tween.WaitMotion /\ Tween.duration x = 0 /\
  Tween.delay x = pause.

Definition isWaitb (x : Tween.t) : bool :=
  match Tween.motion x with
  | Tween.WaitMotion => true
  | _ => false
  end.

(** Consecutive pairs of waypoints. *)
Fixpoint waypointPairs (positions : list Vec3) : list (Vec3 * Vec3) :=
  match positions with
  | [] => []
  | a :: rest =>
      match rest with
      | [] => []
      | b :: _ => (a, b) :: waypointPairs rest
      end
  end.

Definition isWaypointEvent (e : Event) : bool :=
  match e with
  | CameraWaypoint _ _ _ => true
  | _ => false
  end.

(** A segment [start] makes a task for: it has at least two samples. *)
Definition usable (segment : CameraMover.PathSegment) : bool :=
  match CameraMover.samples segment with
  | Some samples => negb (List.length samples <? 2)%nat
  | None => false
  end.

(** What a task does and for how long, apart from its callbacks, its
    successor and its status. *)
Definition shapeOf (x : Tween.t) : Tween.Motion * R * R :=
  (Tween.motion x, Tween.duration x, Tween.delay x).

(** The tasks [w'] has and [w] had not. *)
Definition created (w w' : CameraMover.World) : list Tween.t :=
  skipn (List.length (CameraMover.tweens w)) (CameraMover.tweens w').

(** [hopsAndWaits ... i from positions tasks]: [tasks] is, waypoint by
    waypoint from index [i], one hop from the waypoint before (from [from]
    for the first) followed by a wait of [pauses[i]] when and only when
    [pauses[i] > 0]. *)
Fixpoint hopsAndWaits (durationPerUnit minDuration : R) (pauses : list R)
  (i : nat) (from : Vec3) (positions : list Vec3) (tasks : list Tween.t)
  : Prop :=
  match positions with
  | [] => tasks = []
  | target :: rest =>
      exists move tasks',
        tasks = move :: tasks' /\
        isHop durationPerUnit minDuration from target move /\
        if Js.gtb (nth i pauses 0) 0
        then exists wait tasks'',
               tasks' = wait :: tasks'' /\
               isWait (nth i pauses 0) wait /\
               hopsAndWaits durationPerUnit minDuration pauses (S i)
                            target rest tasks''
        else hopsAndWaits durationPerUnit minDuration pauses (S i)
                          target rest tasks'
  end.

(** Every task in the tween manager is cancelled or completed. *)
Definition quiet (w : CameraMover.World) : Prop :=
  forall id x, nth_error (CameraMover.tweens w) id = Some x ->
               Tween.live x = false.

(** [ownedBy heap ids]: the tasks of [heap] that can still run have their
    handles in [ids]. *)
Definition ownedBy (heap : Tween.Heap) (ids : list nat) : Prop :=
  forall id x, nth_error heap id = Some x -> Tween.live x = true ->
               In id ids.

(** Every task that can still run is in the mover's [_tweens]. *)
Definition owned (w : CameraMover.World) : Prop :=
  ownedBy (CameraMover.tweens w) (CameraMover._tweens w).

(** An update of a task that revives none. *)
Definition calm (f : Tween.t -> Tween.t) : Prop :=
  forall x, Tween.live (f x) = true -> Tween.live x = true.

(** ** The linear scenario of the specification

    Waypoints [(0,0,0), (10,0,0), (10,0,10)], no rotations, no pauses,
    [durationPerUnit = 0.1], [minDuration = 0.1]; the engine's Euler
    conversion is not called and is taken constant. *)

Module Scenario.

Definition sfe (x y z : R) : Quat := identityQuat.
Definition A : Vec3 := mkVec3 0 0 0.
Definition B : Vec3 := mkVec3 10 0 0.
Definition C : Vec3 := mkVec3 10 0 10.
Definition data : CameraMover.Waypoints :=
  CameraMover.mkWaypoints [A; B; C] None [0; 0; 0].
Definition w0 : CameraMover.World := CameraMover.initial A identityQuat.

(** [Number()] on the fields of the CSV scenario
    ["1,2,3,0,0,0,0.5"]. *)
Definition fieldValue (v : JsValue) : option R :=
  match v with
  | JStr s =>
      if String.eqb s "0" then Some 0
      else if String.eqb s "1" then Some 1
      else if String.eqb s "2" then Some 2
      else if String.eqb s "3" then Some 3
      else if String.eqb s "0.5" then Some (1 / 2)
      else None
  | _ => None
  end.

End Scenario.

(** ** What the parsers' output is measured against *)

(** The three arrays have one length. *)
Definition aligned (acc : WaypointFetcher.Arrays) : Prop :=
  List.length (fst (fst acc)) = List.length (snd acc) /\
  List.length (snd (fst acc)) = List.length (snd acc).

(** Neither [positions] nor [rotations] is longer than [pauses]. *)
Definition bounded (acc : WaypointFetcher.Arrays) : Prop :=
  (List.length (fst (fst acc)) <= List.length (snd acc))%nat /\
  (List.length (snd (fst acc)) <= List.length (snd acc))%nat.

(** ** What the Segmenter's output is measured against *)

(** Consecutive pairs of a list. *)
Fixpoint pairs (l : list Z) : list (Z * Z) :=
  match l with
  | [] => []
  | a :: rest =>
      match rest with
      | [] => []
      | b :: _ => (a, b) :: pairs rest
      end
  end.

Definition bounds (s : Segment) : Z * Z := (start s, end_ s).

(** [tiles a b segs]: the segments run from [a] to [b], each one non-empty
    and each one starting at the index where the one before it ends. *)
Fixpoint tiles (a b : Z) (segs : list Segment) : Prop :=
  match segs with
  | [] => a = b
  | s :: rest => start s = a /\ (start s < end_ s)%Z /\ tiles (end_ s) b rest
  end.

(** ** What the Spline Sampler's output is measured against *)

(** Sum of a list of lengths, and of a list of counts. *)
Definition Rsum (l : list R) : R := fold_right Rplus 0 l.

Definition total (counts : list nat) : nat := fold_right Nat.add 0%nat counts.

(** ** camera-mover.mjs: the update of a curve task *)

Module CurveTween.

(** [samples[i]], [undefined] outside the array. *)
Definition sampleAt (samples : list Vec3) (i : Z) : option Vec3 :=
  if (i <? 0)%Z then None else nth_error samples (Z.to_nat i).

(** The position the [onUpdate] of [CameraMover._createCurveTween] sets at
    progress [t]; [None] where [lerp] is handed a sample that is not
    there. *)
Definition onUpdate (samples : list Vec3) (t : R) : option Vec3 :=
  let totalSegments := Z.max 1 (Z.of_nat (List.length samples) - 1) in
  let scaled := Js.Math_min t 1 * IZR totalSegments in
  let index := Zfloor scaled in
  let blend := scaled - IZR index in
  match sampleAt samples index,
        sampleAt samples (Z.min (index + 1) totalSegments) with
  | Some from, Some to => Some (V3.lerp from to blend)
  | _, _ => None
  end.

End CurveTween.

(** ** waypoint-fetcher.mjs: [_applyWaypointData] *)

(** What reaches [_applyWaypointData] as [data]: a value (a text is a
    [JStr]), the bytes of an [ArrayBuffer], or those of a view on one. *)
Inductive Data : Type :=
| DValue (v : JsValue)
| DBuffer (bytes : list ascii)
| DView (bytes : list ascii).

Module WaypointFetcherLoad.

(** The script's [_data] and the payloads fired with [waypoints:loaded],
    oldest first. *)
Record State : Type := mkState {
  _data : option Payload;
  fired : list Payload
}.

Definition letters : list (ascii * ascii) :=
  combine (list_ascii_of_string "ABCDEFGHIJKLMNOPQRSTUVWXYZ")
          (list_ascii_of_string "abcdefghijklmnopqrstuvwxyz").

Definition lowerChar (c : ascii) : ascii :=
  match find (fun p => Ascii.eqb c (fst p)) letters with
  | Some p => snd p
  | None => c
  end.

(** [s.toLowerCase()] and [s.endsWith(suffix)], on the characters. *)
Definition toLowerCase (s : list ascii) : list ascii := map lowerChar s.

Definition endsWith (s : list ascii) (suffix : string) : bool :=
  Text.prefixb (rev (list_ascii_of_string suffix)) (rev s).

Section Load.

Variable Number : JsValue -> option R.

(** [JSON.parse], [None] where it throws. *)
Variable JSON_parse : string -> option JsValue.

(** [new TextDecoder('utf-8').decode] and [String()]. *)
Variable decode : list ascii -> string.
Variable String_ : JsValue -> string.

Variables waypointDataFormat csvDelimiter : string.

Definition isString (data : Data) : bool :=
  match data with
  | DValue (JStr _) => true
  | _ => false
  end.

Definition isBinary (data : Data) : bool :=
  match data with
  | DBuffer _ | DView _ => true
  | _ => false
  end.

Definition _toText (data : Data) : string :=
  match data with
  | DValue (JStr s) => s
  | DBuffer bytes => decode bytes
  | DView bytes => decode bytes
  | DValue v => String_ v
  end.

(** [sourceUrl || asset?.file?.url || '']. *)
Definition urlOf (assetUrl : option string) (sourceUrl : string) : string :=
  if negb (String.eqb sourceUrl "") then sourceUrl
  else
    match assetUrl with
    | Some url => url
    | None => ""
    end.

(** The format [_applyWaypointData] settles on. *)
Definition formatOf (data : Data) (assetUrl : option string)
  (sourceUrl : string) : string :=
  if String.eqb waypointDataFormat "auto" then
    let url := toLowerCase (list_ascii_of_string (urlOf assetUrl sourceUrl)) in
    if endsWith url ".csv" || endsWith url ".txt" then "csv"
    else if endsWith url ".json" then "json"
    else if isString data then "csv"
    else if isBinary data then "csv"
    else "json"
  else waypointDataFormat.

(** The body of the [try]: [None] where an exception is caught, else the
    parser's answer. *)
Definition parse (format : string) (data : Data) : option (option Payload) :=
  if String.eqb format "csv" then
    let text := _toText data in
    Some (WaypointFetcher._parseCsv Number csvDelimiter text)
  else
    let raw :=
      match data with
      | DValue (JStr s) => s
      | _ => _toText data
      end in
    match JSON_parse raw with
    | Some json => Some (WaypointFetcher._parseJson Number json)
    | None => None
    end.

Definition _applyWaypointData (data : Data) (assetUrl : option string)
  (sourceUrl : string) (st : State) : State :=
  match data with
  | DValue JNull | DValue JUndefined => st
  | _ =>
      let format := formatOf data assetUrl sourceUrl in
      match parse format data with
      | None => st
      | Some None => st
      | Some (Some payload) =>
          match positions payload with
          | [] => st
          | _ => mkState (Some payload) (fired st ++ [payload])
          end
      end
  end.

End Load.

End WaypointFetcherLoad.

(** ** flow-coordinator.mjs *)

Module FlowCoordinator.

(** A script instance as [_showWaypoint] reads it: the names of its
    properties that are functions. *)
Record Instance : Type := mkInstance { functions : list string }.

(** The UI entity: its [script] component, the instances by name, if it
    has one. *)
Record UiEntity : Type := mkUiEntity {
  script : option (list (string * Instance))
}.

Record Config : Type := mkConfig {
  uiEntity : option UiEntity;
  uiScriptName : string;
  uiMethodName : string
}.

(** What [_showWaypoint] does with a notification: it calls a method of a
    UI script, or fires [ui:waypoint]. *)
Inductive Output (D : Type) : Type :=
| Called (scriptName methodName : string) (data : D)
| UiWaypoint (data : D).

Arguments Called {D}.
Arguments UiWaypoint {D}.

Fixpoint instanceOf (scriptName : string)
  (scripts : list (string * Instance)) : option Instance :=
  match scripts with
  | [] => None
  | (k, i) :: rest =>
      if String.eqb scriptName k then Some i else instanceOf scriptName rest
  end.

(** The instance the guard of [_showWaypoint] lets through, with a
    function under [uiMethodName]. *)
Definition receiver (cfg : Config) : bool :=
  match uiEntity cfg with
  | None => false
  | Some target =>
      if String.eqb (uiScriptName cfg) "" then false
      else
        match script target with
        | None => false
        | Some scripts =>
            match instanceOf (uiScriptName cfg) scripts with
            | None => false
            | Some instance =>
                existsb (String.eqb (uiMethodName cfg)) (functions instance)
            end
        end
  end.

(** [out] holds what has been done so far, oldest first. *)
Definition _showWaypoint {D : Type} (cfg : Config) (data : D)
  (out : list (Output D)) : list (Output D) :=
  if receiver cfg
  then out ++ [Called (uiScriptName cfg) (uiMethodName cfg) data]
  else out ++ [UiWaypoint data].

End FlowCoordinator.

(** ** The monolithic scripts: [_setInputEnabled] *)

Module Input.

(** [target.script], the input entity's script instances by name with the
    [enabled] flag of each, if there is a target with a script component;
    and [_disabledScripts], the instances the script has switched off,
    each named by its key. *)
Record State : Type := mkState {
  script : option (list (string * bool));
  _disabledScripts : list string
}.

(** [target.script[scriptName]] and its [enabled] flag. *)
Fixpoint enabledOf (scriptName : string) (scripts : list (string * bool))
  : option bool :=
  match scripts with
  | [] => None
  | (k, e) :: rest =>
      if String.eqb scriptName k then Some e else enabledOf scriptName rest
  end.

(** [instance.enabled = b]. *)
Fixpoint setEnabled (scriptName : string) (b : bool)
  (scripts : list (string * bool)) : list (string * bool) :=
  match scripts with
  | [] => []
  | (k, e) :: rest =>
      if String.eqb scriptName k then (k, b) :: rest
      else (k, e) :: setEnabled scriptName b rest
  end.

(** One turn of the loop over [inputScriptNames]. *)
Definition disableOne (acc : list (string * bool) * list string)
  (scriptName : string) : list (string * bool) * list string :=
  match enabledOf scriptName (fst acc) with
  | Some true =>
      (setEnabled scriptName false (fst acc), snd acc ++ [scriptName])
  | _ => acc
  end.

Definition _setInputEnabled (inputScriptNames : list string)
  (enabled : bool) (st : State) : State :=
  match script st with
  | None => st
  | Some scripts =>
      if enabled then
        mkState
          (Some (fold_left (fun s name => setEnabled name true s)
                           (_disabledScripts st) scripts))
          []
      else
        let acc :=
          fold_left disableOne inputScriptNames
                    (scripts, _disabledScripts st) in
        mkState (Some (fst acc)) (snd acc)
  end.

End Input.

(** ** The monolithic scripts: loading the waypoints

    [_applyWaypointData] settles on a format and reads a text as the
    fetcher's does; the parsers have the fetcher's loops, read a vector
    with the script's own [_toVec3], and store the three arrays in the
    instance. *)

Module CameraWaypointPathData.

Record State : Type := mkState {
  waypointPositions : list Vec3;
  waypointRotations : list Vec3;
  waypointPauses : list R;
  _pendingAutoStart : bool
}.

(** The three assignments that close a parser. *)
Definition store (arrays : WaypointFetcher.Arrays) (st : State) : State :=
  mkState (fst (fst arrays)) (snd (fst arrays)) (snd arrays)
          (_pendingAutoStart st).

Section Load.

Variable Number : JsValue -> option R.
Variable JSON_parse : string -> option JsValue.
Variable decode : list ascii -> string.
Variable String_ : JsValue -> string.
Variables waypointDataFormat csvDelimiter : string.

(** [_toVec3(value, fallback)] on a parsed value. *)
Definition _toVec3 (value : JsValue) (fallback : Vec3) : Vec3 :=
  if WaypointFetcher.truthy value
     && WaypointFetcher.defined (WaypointFetcher.prop value "x")
     && WaypointFetcher.defined (WaypointFetcher.prop value "y")
     && WaypointFetcher.defined (WaypointFetcher.prop value "z")
  then mkVec3 (WaypointFetcher.coordinate (WaypointFetcher.prop value "x"))
              (WaypointFetcher.coordinate (WaypointFetcher.prop value "y"))
              (WaypointFetcher.coordinate (WaypointFetcher.prop value "z"))
  else fallback.

(** One turn of the loop of [_parseJson]. *)
Definition jsonRow (acc : WaypointFetcher.Arrays) (row : JsValue)
  : WaypointFetcher.Arrays :=
  let '(positions, rotations, pauses) := acc in
  if negb (WaypointFetcher.truthy row) then acc
  else
    let pos :=
      WaypointFetcher.or_else (WaypointFetcher.prop row "position")
        (WaypointFetcher.or_else (WaypointFetcher.prop row "pos")
           (WaypointFetcher.or_else (WaypointFetcher.prop row "p")
              (WaypointFetcher.index row 0))) in
    let rot :=
      WaypointFetcher.or_else (WaypointFetcher.prop row "rotation")
        (WaypointFetcher.or_else (WaypointFetcher.prop row "rot")
           (WaypointFetcher.or_else (WaypointFetcher.prop row "r")
              (WaypointFetcher.index row 1))) in
    let wait :=
      WaypointFetcher.coalesce (WaypointFetcher.prop row "pause")
        (WaypointFetcher.coalesce (WaypointFetcher.prop row "wait")
           (WaypointFetcher.coalesce (WaypointFetcher.prop row "delay")
              (WaypointFetcher.coalesce (WaypointFetcher.index row 2)
                 (JNum 0)))) in
    let positions :=
      if WaypointFetcher.truthy pos
      then positions ++ [_toVec3 pos (mkVec3 0 0 0)] else positions in
    let rotations :=
      if WaypointFetcher.truthy rot
      then rotations ++ [_toVec3 rot (mkVec3 0 0 0)] else rotations in
    (positions, rotations, pauses ++ [WaypointFetcher.numberOr0 Number wait]).

Definition _parseJson (json : JsValue) (st : State) : State :=
  match json with
  | JArr rows => store (fold_left jsonRow rows ([], [], [])) st
  | _ => st
  end.

Definition _parseCsv (text : string) (st : State) : State :=
  match WaypointFetcher.csvLines text with
  | [] => st
  | lines =>
      store
        (fold_left
           (WaypointFetcher.csvLine Number (list_ascii_of_string csvDelimiter))
           lines ([], [], []))
        st
  end.

(** The state [_applyWaypointData] leaves, and whether it has called
    [startPath]. *)
Definition _applyWaypointData (data : Data) (assetUrl : option string)
  (sourceUrl : string) (st : State) : State * bool :=
  match data with
  | DValue JNull | DValue JUndefined => (st, false)
  | _ =>
      let format :=
        WaypointFetcherLoad.formatOf waypointDataFormat data assetUrl
          sourceUrl in
      let st :=
        if String.eqb format "csv" then
          let text := WaypointFetcherLoad._toText decode String_ data in
          _parseCsv text st
        else
          let raw :=
            match data with
            | DValue (JStr s) => s
            | _ => WaypointFetcherLoad._toText decode String_ data
            end in
          match JSON_parse raw with
          | Some json => _parseJson json st
          | None => st
          end in
      if _pendingAutoStart st
      then (mkState (waypointPositions st) (waypointRotations st)
                    (waypointPauses st) false, true)
      else (st, false)
  end.

End Load.

End CameraWaypointPathData.

(** ** The monolithic script, curve variant: the tasks of [startPath] *)

Module CameraWaypointPathRun.

(** The tasks [startPath] builds, in [_tweens] order, for an entity at
    [entityPos] turned to [entityRot]: none without a waypoint, else one
    turn of the loop for each segment of [_buildSegments]. *)
Definition startPathTweens (setFromEulerAngles : R -> R -> R -> Quat)
  (durationPerUnit minDuration : R) (waypointPositions : list Vec3)
  (waypointRotations : list RotValue) (waypointPauses : list R)
  (entityPos : Vec3) (entityRot : Quat) : list Tween.t :=
  match waypointPositions with
  | [] => []
  | _ =>
      CameraWaypointPath.tasks
        (fold_left
           (CameraWaypointPath.segmentStep setFromEulerAngles durationPerUnit
              minDuration waypointPositions waypointRotations)
           (WaypointPathBuilder._buildSegments waypointPositions
              waypointPauses)
           (CameraWaypointPath.mkCarry [] entityPos entityRot))
  end.

End CameraWaypointPathRun.

(** ** More of what the scripts' output is measured against *)

(** The interior indices [0 < i < L - 1] whose pause is positive. *)
Definition interiorPauses (L : nat) (pauses : list R) : list nat :=
  filter (fun i =>
            Js.gtb (WaypointPathBuilder.pauseAt pauses i) 0
            && negb (Js.Set_has (Z.of_nat i) [0%Z; (Z.of_nat L - 1)%Z]))
         (seq 0 L).

(** The orientations a task turns between. *)
Definition turnOf (x : Tween.t) : option (Quat * Quat) :=
  match Tween.motion x with
  | Tween.CurveMotion _ fromRot toRot => Some (fromRot, toRot)
  | Tween.LinearMotion _ _ fromRot toRot => Some (fromRot, toRot)
  | Tween.WaitMotion => None
  end.

(** [carried q tasks]: the first task turns from [q], every other one from
    the orientation the task before it turns to. *)
Fixpoint carried (q : Quat) (tasks : list Tween.t) : Prop :=
  match tasks with
  | [] => True
  | x :: rest => exists q', turnOf x = Some (q, q') /\ carried q' rest
  end.

(** The first completion callback of the task fires [camera:waypoint] with
    this index and position, and the orientation the task turns to. *)
Definition notifies (x : Tween.t) (index : Z) (position : Vec3) : Prop :=
  exists fromRot toRot,
    turnOf x = Some (fromRot, toRot) /\
    hd_error (Tween.callbacks x) =
    Some (Tween.FireWaypoint index position toRot).

(** The distance a segment counts for: its own when it has one that is
    not zero, the length of the chain of its samples otherwise. *)
Definition distanceOf (segment : CameraMover.PathSegment)
  (samples : list Vec3) : R :=
  match CameraMover.distance segment with
  | Some d =>
      if Req_dec_T d 0 then WaypointPathBuilder._chainLength samples else d
  | None => WaypointPathBuilder._chainLength samples
  end.

(** The waypoint a segment ends at: its [endIndex] when it has one, else
    its [startIndex] plus the number of samples less one. *)
Definition waypointOf (segment : CameraMover.PathSegment)
  (samples : list Vec3) : Z :=
  match CameraMover.endIndex segment with
  | Some e => e
  | None =>
      (CameraMover.startIndex segment + Z.of_nat (List.length samples) - 1)%Z
  end.

(** The task of a segment: it runs over the segment's samples for
    [max(distance * durationPerUnit, minDuration)] with no delay, and
    notifies the segment's end waypoint at the last sample. *)
Definition curveTask (cfg : CameraMover.Config)
  (segment : CameraMover.PathSegment) (x : Tween.t) : Prop :=
  exists samples fromRot toRot,
    CameraMover.samples segment = Some samples /\
    Tween.motion x = Tween.CurveMotion samples fromRot toRot /\
    Tween.duration x =
      Rmax (distanceOf segment samples * CameraMover.durationPerUnit cfg)
           (CameraMover.minDuration cfg) /\
    Tween.delay x = 0 /\
    notifies x (waypointOf segment samples) (last samples (mkVec3 0 0 0)).

(** The waypoints from the second on, each with its index counted from
    [i]. *)
Fixpoint targets (i : Z) (positions : list Vec3) : list (Z * Vec3) :=
  match positions with
  | [] => []
  | _ :: rest =>
      match rest with
      | [] => []
      | toPos :: _ => (i, toPos) :: targets (i + 1) rest
      end
  end.

(** [kept x y]: task [y] does what task [x] does, for as long, and its
    first completion callback is that of [x] when [x] has one. *)
Definition kept (x y : Tween.t) : Prop :=
  shapeOf x = shapeOf y /\
  forall cb, hd_error (Tween.callbacks x) = Some cb ->
             hd_error (Tween.callbacks y) = Some cb.

(** What a loop of [start] or [startFromWaypoints] has done to the world
    [w] when it has made the tasks [news]. *)
Definition grown (w w' : CameraMover.World) (news : list Tween.t) : Prop :=
  CameraMover.tweens w' = CameraMover.tweens w ++ news /\
  CameraMover._tweens w' =
    CameraMover._tweens w ++
    seq (List.length (CameraMover.tweens w)) (List.length news) /\
  CameraMover._running w' = CameraMover._running w /\
  CameraMover.fired w' = CameraMover.fired w.

(** The notification an output of the flow coordinator carries. *)
Definition dataOf {D : Type} (o : FlowCoordinator.Output D) : D :=
  match o with
  | FlowCoordinator.Called _ _ data => data
  | FlowCoordinator.UiWaypoint data => data
  end.

(** The input scripts that are switched on. *)
Definition switchedOn (name : string) (st : Input.State) : Prop :=
  exists scripts,
    Input.script st = Some scripts /\
    Input.enabledOf name scripts = Some true.

(** The payload of [path:ready] as the mover reads it: the built segments
    with their four fields, and the rotations of the waypoint data, each
    an object with [x], [y] and [z]. *)
Definition pathSegmentOf (b : WaypointPathBuilder.BuiltSegment)
  : CameraMover.PathSegment :=
  CameraMover.mkPathSegment
    (Some (WaypointPathBuilder.samples b))
    (Some (WaypointPathBuilder.distance b))
    (WaypointPathBuilder.startIndex b)
    (Some (WaypointPathBuilder.endIndex b)).

Definition pathOf (built : list WaypointPathBuilder.BuiltSegment)
  (rotations : list Vec3) : CameraMover.Path :=
  CameraMover.mkPath (Some (map pathSegmentOf built))
                     (Some (map REuler rotations)).

(** The segment the mover is handed for a segment of the Segmenter that
    [buildPath] does not skip. *)
Definition handed (cfg : WaypointPathBuilder.Config) (positions : list Vec3)
  (s : Segment) : CameraMover.PathSegment :=
  pathSegmentOf
    (WaypointPathBuilder.mkBuiltSegment (start s) (end_ s)
       (WaypointPathBuilder.segmentCurve cfg
          (WaypointPathBuilder.segmentPoints positions s) (prevPoint s)
          (nextPoint s))
       (WaypointPathBuilder._chainLength
          (WaypointPathBuilder.segmentPoints positions s))).

(** The stored waypoints of two states are the same; the stored waypoints
    are the arrays of a payload. *)
Definition sameWaypoints (st st' : CameraWaypointPathData.State) : Prop :=
  CameraWaypointPathData.waypointPositions st' =
    CameraWaypointPathData.waypointPositions st /\
  CameraWaypointPathData.waypointRotations st' =
    CameraWaypointPathData.waypointRotations st /\
  CameraWaypointPathData.waypointPauses st' =
    CameraWaypointPathData.waypointPauses st.

Definition holds (st : CameraWaypointPathData.State) (payload : Payload)
  : Prop :=
  CameraWaypointPathData.waypointPositions st = positions payload /\
  CameraWaypointPathData.waypointRotations st = rotations payload /\
  CameraWaypointPathData.waypointPauses st = pauses payload.

(** [data == null]. *)
Definition isNull (data : Data) : bool :=
  match data with
  | DValue JNull | DValue JUndefined => true
  | _ => false
  end.

(** [linked positions from segs tasks]: there is one task for each
    segment, in order; the samples of each are the sampling, between the
    segment's boundary points, of a chain that opens where the samples of
    the task before closed, the first at [from], and they close on the
    waypoint the segment ends at. *)
Fixpoint linked (positions : list Vec3) (from : Vec3) (segs : list Segment)
  (tasks : list Tween.t) : Prop :=
  match segs, tasks with
  | [], [] => True
  | s :: segs', x :: tasks' =>
      exists samples fromRot toRot p chain sampleCount,
        Tween.motion x = Tween.CurveMotion samples fromRot toRot /\
        samples =
          WaypointPathBuilder._sampleCurve chain (prevPoint s) (nextPoint s)
            sampleCount (7 / 10) /\
        hd_error chain = Some from /\
        nth_error positions (Z.to_nat (end_ s)) = Some p /\
        last samples (mkVec3 0 0 0) = p /\
        linked positions p segs' tasks'
  | _, _ => False
  end.

(** The places [_parseJson] reads the position and the rotation of a row
    from. *)
Definition readAsVector (row : JsValue) : list JsValue :=
  [WaypointFetcher.prop row "position"; WaypointFetcher.prop row "pos";
   WaypointFetcher.prop row "p"; WaypointFetcher.index row 0;
   WaypointFetcher.prop row "rotation"; WaypointFetcher.prop row "rot";
   WaypointFetcher.prop row "r"; WaypointFetcher.index row 1].

(** What the value has under [x], [y] and [z] is a number: the engine's
    [Vec3] constructor takes such fields as they are. *)
Definition numericFields (value : JsValue) : Prop :=
  forall k, In k ["x"%string; "y"%string; "z"%string] ->
    match WaypointFetcher.prop value k with
    | JUndefined | JNum _ => True
    | _ => False
    end.

(** * Properties *)

(** ** Facts about the built-ins *)

Module JsFacts.

Lemma gtb_true a b : Js.gtb a b = true <-> b < a.
Proof. unfold Js.gtb; destruct (Rlt_dec b a); split; intros; easy. Qed.

Lemma gtb_false a b : Js.gtb a b = false <-> a <= b.
Proof.
  unfold Js.gtb; destruct (Rlt_dec b a); split; intros; try easy; lra.
Qed.

Lemma ltb_true a b : Js.ltb a b = true <-> a < b.
Proof. unfold Js.ltb; destruct (Rlt_dec a b); split; intros; easy. Qed.

Lemma ltb_false a b : Js.ltb a b = false <-> b <= a.
Proof.
  unfold Js.ltb; destruct (Rlt_dec a b); split; intros; try easy; lra.
Qed.

Lemma Math_round_le a b : a <= b -> (Js.Math_round a <= Js.Math_round b)%Z.
Proof. intros H; apply Zfloor_le; lra. Qed.

Lemma Math_round_nonpos a : a <= 0 -> (Js.Math_round a <= 0)%Z.
Proof.
  intros H. unfold Js.Math_round.
  destruct (Zfloor_bound (a + / 2)) as [Hlo _].
  assert (Hlt : IZR (Zfloor (a + / 2)) < IZR 1) by lra.
  apply lt_IZR in Hlt. lia.
Qed.

Lemma Set_has_In x s : Js.Set_has x s = true <-> In x s.
Proof.
  unfold Js.Set_has. rewrite existsb_exists. split.
  - intros [y [Hy Heq]]. apply Z.eqb_eq in Heq. now subst.
  - intros H. exists x. split; [assumption | apply Z.eqb_refl].
Qed.

Lemma In_Set_add x y s : In x (Js.Set_add y s) <-> x = y \/ In x s.
Proof.
  unfold Js.Set_add. destruct (Js.Set_has y s) eqn:E.
  - apply Set_has_In in E. split; [tauto | intros [-> | H]; assumption].
  - rewrite in_app_iff. simpl. intuition congruence.
Qed.

Lemma NoDup_Set_add y s : NoDup s -> NoDup (Js.Set_add y s).
Proof.
  intros Hs. unfold Js.Set_add. destruct (Js.Set_has y s) eqn:E; trivial.
  assert (Hn : ~ In y s).
  { intros Hin. apply Set_has_In in Hin. congruence. }
  clear E. induction Hs as [|a l Ha Hl IH]; simpl.
  - constructor; [easy | constructor].
  - constructor.
    + rewrite in_app_iff. simpl. intros [H | [H | []]]; [tauto|].
      apply Hn. now left.
    + apply IH. intros H. apply Hn. now right.
Qed.

Lemma In_insert_asc x y l : In x (Js.insert_asc y l) <-> x = y \/ In x l.
Proof.
  induction l as [|a l IH]; simpl.
  - intuition congruence.
  - destruct (y <=? a)%Z; simpl; rewrite ?IH; intuition congruence.
Qed.

Lemma In_sort_asc x l : In x (Js.sort_asc l) <-> In x l.
Proof.
  induction l as [|a l IH]; simpl; [tauto|].
  rewrite In_insert_asc, IH. intuition congruence.
Qed.

Lemma insert_asc_sorted y l :
  StronglySorted Z.lt l -> ~ In y l ->
  StronglySorted Z.lt (Js.insert_asc y l).
Proof.
  induction 1 as [|a l Hl IH Ha]; intros Hn; simpl.
  - constructor; constructor.
  - destruct (y <=? a)%Z eqn:E.
    + apply Z.leb_le in E.
      assert (Hlt : (y < a)%Z).
      { destruct (Z.eq_dec y a) as [->|]; [|lia].
        exfalso. apply Hn. now left. }
      constructor; [now constructor|].
      constructor; [assumption|].
      rewrite Forall_forall in *. intros z Hz. specialize (Ha z Hz). lia.
    + apply Z.leb_gt in E. constructor.
      * apply IH. intros H. apply Hn. now right.
      * rewrite Forall_forall in *. intros z Hz.
        apply In_insert_asc in Hz. destruct Hz as [-> | Hz]; auto.
Qed.

Lemma sort_asc_sorted l : NoDup l -> StronglySorted Z.lt (Js.sort_asc l).
Proof.
  induction 1 as [|a l Ha Hl IH]; simpl; [constructor|].
  apply insert_asc_sorted; [assumption|].
  now rewrite In_sort_asc.
Qed.

End JsFacts.

(** ** The Segmenter *)

Module SegmenterFacts.
Import WaypointPathBuilder.

Lemma stops_fold_In pauses ns : forall init i,
  In i (fold_left
          (fun stops n =>
             if Js.gtb (pauseAt pauses n) 0
             then Js.Set_add (Z.of_nat n) stops else stops) ns init)
  <-> In i init \/
      exists n, In n ns /\ i = Z.of_nat n /\ 0 < pauseAt pauses n.
Proof.
  induction ns as [|n ns IH]; intros init i; simpl.
  - split; [tauto | intros [H | [n [[] _]]]; assumption].
  - rewrite IH. destruct (Js.gtb (pauseAt pauses n) 0) eqn:E.
    + apply JsFacts.gtb_true in E. rewrite JsFacts.In_Set_add. split.
      * intros [[-> | H] | [m [Hm Hi]]]; [right | now left | right].
        -- exists n. auto.
        -- exists m. auto.
      * intros [H | [m [[<- | Hm] [Hi Hp]]]]; [tauto | tauto |].
        right. exists m. auto.
    + apply JsFacts.gtb_false in E. split.
      * intros [H | [m [Hm Hi]]]; [now left | right; exists m; auto].
      * intros [H | [m [[<- | Hm] [Hi Hp]]]]; [tauto | lra |].
        right. exists m. auto.
Qed.

Lemma stops_fold_NoDup pauses ns : forall init,
  NoDup init ->
  NoDup (fold_left
           (fun stops n =>
              if Js.gtb (pauseAt pauses n) 0
              then Js.Set_add (Z.of_nat n) stops else stops) ns init).
Proof.
  induction ns as [|n ns IH]; intros init Hi; simpl; [assumption|].
  apply IH. destruct (Js.gtb _ _); [now apply JsFacts.NoDup_Set_add|easy].
Qed.

Lemma stops_fold_none pauses ns : forall init,
  (forall n, In n ns -> pauseAt pauses n <= 0) ->
  fold_left
    (fun stops n =>
       if Js.gtb (pauseAt pauses n) 0
       then Js.Set_add (Z.of_nat n) stops else stops) ns init = init.
Proof.
  induction ns as [|n ns IH]; intros init H; simpl; [reflexivity|].
  assert (E : Js.gtb (pauseAt pauses n) 0 = false).
  { apply JsFacts.gtb_false. apply H. now left. }
  rewrite E. apply IH. intros m Hm. apply H. now right.
Qed.

Lemma stopSet_NoDup length pauses : NoDup (stopSet length pauses).
Proof.
  unfold stopSet. apply stops_fold_NoDup.
  do 2 apply JsFacts.NoDup_Set_add. constructor.
Qed.

Lemma stopSet_In length pauses i :
  In i (stopSet length pauses) <->
  i = 0%Z \/ i = (Z.of_nat length - 1)%Z \/
  ((0 <= i < Z.of_nat length)%Z /\ 0 < pauseAt pauses (Z.to_nat i)).
Proof.
  unfold stopSet. rewrite stops_fold_In, !JsFacts.In_Set_add. simpl. split.
  - intros [[H | [H | []]] | [n [Hn [-> Hp]]]]; [tauto | tauto |].
    right; right. apply in_seq in Hn. rewrite Nat2Z.id. split; [lia|easy].
  - intros [H | [H | [Hr Hp]]]; [tauto | tauto |].
    right. exists (Z.to_nat i). split; [apply in_seq; lia|].
    split; [lia | assumption].
Qed.

Lemma stopIndices_sorted length pauses :
  StronglySorted Z.lt (stopIndices length pauses).
Proof. apply JsFacts.sort_asc_sorted, stopSet_NoDup. Qed.

Lemma stopIndices_In length pauses i :
  In i (stopIndices length pauses) <->
  i = 0%Z \/ i = (Z.of_nat length - 1)%Z \/
  ((0 <= i < Z.of_nat length)%Z /\ 0 < pauseAt pauses (Z.to_nat i)).
Proof. unfold stopIndices. now rewrite JsFacts.In_sort_asc, stopSet_In. Qed.

(** On strictly ascending indices no pair is dropped. *)
Lemma segmentsOf_bounds positions indices :
  StronglySorted Z.lt indices ->
  map bounds (segmentsOf positions indices) = pairs indices.
Proof.
  induction 1 as [|a l Hl IH Ha]; [reflexivity|].
  destruct l as [|b l]; [reflexivity|].
  assert (Hab : (a < b)%Z) by (inversion Ha; assumption).
  change (segmentsOf positions (a :: b :: l)) with
    (if (b <=? a)%Z then segmentsOf positions (b :: l)
     else mkSegment a b
            (if (0 <? a)%Z then pointAt positions (a - 1) else None)
            (if (b + 1 <? Z.of_nat (List.length positions))%Z
             then pointAt positions (b + 1) else None)
            :: segmentsOf positions (b :: l)).
  destruct (b <=? a)%Z eqn:E; [apply Z.leb_le in E; lia|].
  cbn [map]. rewrite IH. reflexivity.
Qed.

Lemma pairs_length l : List.length (pairs l) = (List.length l - 1)%nat.
Proof.
  induction l as [|a l IH]; [reflexivity|].
  destruct l as [|b l]; [reflexivity|].
  change (pairs (a :: b :: l)) with ((a, b) :: pairs (b :: l)).
  simpl List.length in *. lia.
Qed.

Lemma last_cons (b : Z) l : forall a, last (b :: l) a = last l b.
Proof.
  revert b. induction l as [|c l IH]; intros b a; [reflexivity|].
  change (last (b :: c :: l) a) with (last (c :: l) a).
  now rewrite !IH.
Qed.

Lemma segmentsOf_tiles positions l : forall a,
  StronglySorted Z.lt (a :: l) ->
  tiles a (last l a) (segmentsOf positions (a :: l)).
Proof.
  induction l as [|b l IH]; intros a Hs; [reflexivity|].
  inversion Hs as [|? ? Hl Ha]; subst.
  assert (Hab : (a < b)%Z) by (inversion Ha; assumption).
  change (segmentsOf positions (a :: b :: l)) with
    (if (b <=? a)%Z then segmentsOf positions (b :: l)
     else mkSegment a b
            (if (0 <? a)%Z then pointAt positions (a - 1) else None)
            (if (b + 1 <? Z.of_nat (List.length positions))%Z
             then pointAt positions (b + 1) else None)
            :: segmentsOf positions (b :: l)).
  destruct (b <=? a)%Z eqn:E; [apply Z.leb_le in E; lia|].
  cbn [tiles start end_]. split; [reflexivity|]. split; [assumption|].
  rewrite last_cons. apply IH. assumption.
Qed.

Lemma sorted_last_max l : forall a,
  StronglySorted Z.lt (a :: l) ->
  In (last l a) (a :: l) /\ forall y, In y (a :: l) -> (y <= last l a)%Z.
Proof.
  induction l as [|b l IH]; intros a Hs.
  - simpl. split; [now left | intros y [<- | []]; lia].
  - inversion Hs as [|? ? Hl Ha]; subst.
    destruct (IH b Hl) as [Hin Hmax].
    rewrite last_cons. split; [now right|].
    intros y [<- | Hy]; [|now apply Hmax].
    assert (Hab : (a < b)%Z) by (inversion Ha; assumption).
    specialize (Hmax b (or_introl eq_refl)). lia.
Qed.

(** What [tiles] says index by index: every step [k -> k + 1] of the range
    lies in one and only one segment. *)
Lemma tiles_range segs : forall a b,
  tiles a b segs ->
  (a <= b)%Z /\
  forall s, In s segs -> (a <= start s /\ start s < end_ s /\ end_ s <= b)%Z.
Proof.
  induction segs as [|s segs IH]; intros a b H; simpl in H.
  - subst. split; [lia | intros s []].
  - destruct H as [Hs [Hlt Ht]]. destruct (IH _ _ Ht) as [Hle Hall].
    split; [lia|]. intros s' [<- | Hin]; [lia|].
    specialize (Hall s' Hin). lia.
Qed.

Lemma tiles_cover segs : forall a b,
  tiles a b segs ->
  forall k, (a <= k < b)%Z ->
  exists s, In s segs /\ (start s <= k < end_ s)%Z.
Proof.
  induction segs as [|s segs IH]; intros a b H k Hk; simpl in H.
  - lia.
  - destruct H as [Hs [Hlt Ht]].
    destruct (Z_lt_dec k (end_ s)) as [Hl | Hg].
    + exists s. split; [now left | lia].
    + destruct (IH _ _ Ht k ltac:(lia)) as [s' [Hin Hr]].
      exists s'. split; [now right | assumption].
Qed.

Lemma tiles_disjoint segs : forall a b,
  tiles a b segs ->
  forall s1 s2 k, In s1 segs -> In s2 segs ->
  (start s1 <= k < end_ s1)%Z -> (start s2 <= k < end_ s2)%Z ->
  bounds s1 = bounds s2.
Proof.
  induction segs as [|s segs IH]; intros a b H s1 s2 k H1 H2 K1 K2;
    simpl in H; [destruct H1|].
  destruct H as [Hs [Hlt Ht]].
  destruct (tiles_range _ _ _ Ht) as [_ Hall].
  destruct H1 as [<- | H1], H2 as [<- | H2]; [reflexivity | | |].
  - specialize (Hall _ H2). lia.
  - specialize (Hall _ H1). lia.
  - eapply IH; eassumption.
Qed.

End SegmenterFacts.

(** C2.  For positions of length [L >= 2] (and any pauses): the Segmenter's
    stop indices are strictly ascending and are exactly [0], [L - 1] and the
    indices [i < L] with [pauses[i] > 0]; the emitted segments are the
    consecutive pairs of stops, none dropped, so there are
    [stops.length - 1] of them; they tile [[0, L - 1]]: the first starts at
    [0], each next one starts at the stop where the one before ends, the
    last ends at [L - 1], and every step [k -> k + 1] of the range lies in
    one and only one segment; with no pause there is the single segment
    [[0, L - 1]], with no boundary point on either side. *)
Theorem buildSegments_partition (positions : list Vec3) (pauses : list R) :
  (2 <= List.length positions)%nat ->
  let L := Z.of_nat (List.length positions) in
  let stops := WaypointPathBuilder.stopIndices (List.length positions) pauses in
  let segs := WaypointPathBuilder._buildSegments positions pauses in
  StronglySorted Z.lt stops /\
  (forall i, In i stops <->
     i = 0%Z \/ i = (L - 1)%Z \/
     ((0 <= i < L)%Z /\
      0 < WaypointPathBuilder.pauseAt pauses (Z.to_nat i))) /\
  map bounds segs = pairs stops /\
  List.length segs = (List.length stops - 1)%nat /\
  tiles 0 (L - 1) segs /\
  (forall k, (0 <= k < L - 1)%Z ->
     exists s, In s segs /\ (start s <= k < end_ s)%Z) /\
  (forall s1 s2 k, In s1 segs -> In s2 segs ->
     (start s1 <= k < end_ s1)%Z -> (start s2 <= k < end_ s2)%Z ->
     bounds s1 = bounds s2) /\
  ((forall i, (i < List.length positions)%nat ->
      WaypointPathBuilder.pauseAt pauses i <= 0) ->
   segs = [mkSegment 0 (L - 1) None None]).
Proof.
  intros HL L stops segs.
  pose proof (SegmenterFacts.stopIndices_sorted (List.length positions) pauses)
    as Hsorted.
  pose proof (SegmenterFacts.stopIndices_In (List.length positions) pauses)
    as Hin.
  fold stops in Hsorted, Hin. fold L in Hin.
  assert (Hbounds : map bounds segs = pairs stops)
    by (apply SegmenterFacts.segmentsOf_bounds; exact Hsorted).
  assert (Htiles : tiles 0 (L - 1) segs).
  { unfold segs, WaypointPathBuilder._buildSegments. fold stops.
    destruct stops as [|a l] eqn:Es.
    - exfalso. apply (proj2 (Hin 0%Z)). now left.
    - pose proof (SegmenterFacts.segmentsOf_tiles positions l a Hsorted) as Ht.
      destruct (SegmenterFacts.sorted_last_max l a Hsorted) as [Hlast Hmax].
      assert (Hrange : forall y, In y (a :: l) -> (0 <= y <= L - 1)%Z).
      { intros y Hy. apply Hin in Hy. unfold L in *. lia. }
      assert (Ha0 : a = 0%Z).
      { assert (H0 : In 0%Z (a :: l)) by (apply Hin; now left).
        destruct H0 as [H0 | H0]; [assumption|].
        inversion Hsorted as [|? ? _ Hlt]; subst.
        rewrite Forall_forall in Hlt. specialize (Hlt _ H0).
        specialize (Hrange a (or_introl eq_refl)). lia. }
      assert (Hb : last l a = (L - 1)%Z).
      { assert (H1 : In (L - 1)%Z (a :: l)) by (apply Hin; right; now left).
        specialize (Hmax _ H1). specialize (Hrange _ Hlast). lia. }
      rewrite Ha0 in *. rewrite Hb in Ht. exact Ht. }
  split; [exact Hsorted|]. split; [exact Hin|]. split; [exact Hbounds|].
  split.
  { rewrite <- (length_map bounds), Hbounds.
    apply SegmenterFacts.pairs_length. }
  split; [exact Htiles|].
  split; [exact (SegmenterFacts.tiles_cover _ _ _ Htiles)|].
  split; [exact (SegmenterFacts.tiles_disjoint _ _ _ Htiles)|].
  intros Hnone.
  unfold segs, WaypointPathBuilder._buildSegments,
    WaypointPathBuilder.stopIndices, WaypointPathBuilder.stopSet.
  rewrite SegmenterFacts.stops_fold_none
    by (intros n Hn; apply Hnone; apply in_seq in Hn; lia).
  fold L.
  assert (E1 : Js.Set_add (L - 1) (Js.Set_add 0 []) = [0%Z; (L - 1)%Z]).
  { unfold Js.Set_add. simpl.
    destruct (L - 1 =? 0)%Z eqn:E; [apply Z.eqb_eq in E; unfold L in E; lia|].
    reflexivity. }
  rewrite E1. simpl Js.sort_asc.
  destruct (0 <=? L - 1)%Z eqn:E2;
    [|apply Z.leb_gt in E2; unfold L in E2; lia].
  simpl WaypointPathBuilder.segmentsOf.
  destruct (L - 1 <=? 0)%Z eqn:E3;
    [apply Z.leb_le in E3; unfold L in E3; lia|].
  fold L.
  replace (L - 1 + 1 <? L)%Z with false by (symmetry; apply Z.ltb_ge; lia).
  reflexivity.
Qed.

(** C2 at three waypoints with a pause at the middle one. *)
Lemma buildSegments_partition_witness :
  let positions := [mkVec3 0 0 0; mkVec3 10 0 0; mkVec3 10 0 10] in
  let pauses := [0; 2; 0] in
  (2 <= List.length positions)%nat /\
  tiles 0 2 (WaypointPathBuilder._buildSegments positions pauses).
Proof.
  intros positions pauses. split; [simpl; lia|].
  exact (proj1 (proj2 (proj2 (proj2 (proj2
    (buildSegments_partition positions pauses ltac:(simpl; lia))))))).
Defined.

(** ** The Spline Sampler *)

Module SamplerFacts.
Import WaypointPathBuilder.

Lemma clamp_range t : 0 <= Js.Math_min (Js.Math_max t 0) 1 <= 1.
Proof.
  unfold Js.Math_min, Js.Math_max, Rmin, Rmax.
  destruct (Rle_dec t 0); destruct (Rle_dec _ 1); lra.
Qed.

Lemma clamp_id t : 0 <= t <= 1 -> Js.Math_min (Js.Math_max t 0) 1 = t.
Proof.
  intros H. unfold Js.Math_min, Js.Math_max, Rmin, Rmax.
  destruct (Rle_dec t 0); destruct (Rle_dec _ 1); lra.
Qed.

Lemma lerpVec3_0 a b : _lerpVec3 a b 0 = a.
Proof.
  unfold _lerpVec3. rewrite clamp_id by lra.
  destruct a, b; unfold V3.lerp; simpl; f_equal; ring.
Qed.

Lemma safeDivide_0 d : _safeDivide 0 d = 0.
Proof. unfold _safeDivide. destruct (Js.ltb _ _); [reflexivity|]. lra. Qed.

(** *** The shape of the sampler's output *)

Lemma nth_last (l : list Vec3) d : nth (List.length l - 1) l d = last l d.
Proof.
  induction l as [|a l IH]; [reflexivity|].
  destruct l as [|b l]; [reflexivity|].
  change (last (a :: b :: l) d) with (last (b :: l) d).
  rewrite <- IH. simpl. now rewrite Nat.sub_0_r.
Qed.

Lemma sampleCurve_long points prevPoint nextPoint sampleCount alpha :
  (2 <= List.length points)%nat ->
  _sampleCurve points prevPoint nextPoint sampleCount alpha =
  List.concat
    (map (fun ws => segmentSamples (fst ws) (snd ws)
                      (Js.or_num (_chainLength points) 1) sampleCount alpha)
         (interiorSegments points prevPoint nextPoint))
  ++ [last points (mkVec3 0 0 0)].
Proof.
  intros H. unfold _sampleCurve.
  destruct (List.length points <? 2)%nat eqn:E;
    [apply Nat.ltb_lt in E; lia|].
  now rewrite nth_last.
Qed.

Lemma stepsOf_ge_4 sampleCount totalLength segmentLength :
  (4 <= stepsOf sampleCount totalLength segmentLength)%Z.
Proof. unfold stepsOf. lia. Qed.

(** Every interior segment opens with its evaluation at [t = 0]. *)
Lemma segmentSamples_head p0 p1 p2 p3 len total sampleCount alpha :
  exists tl,
    segmentSamples (p0, p1, p2, p3) len total sampleCount alpha =
    _catmullRom p0 p1 p2 p3 0 alpha :: tl.
Proof.
  unfold segmentSamples.
  pose proof (stepsOf_ge_4 sampleCount total len) as H4.
  destruct (Z.to_nat (stepsOf sampleCount total len)) as [|n] eqn:E; [lia|].
  simpl. eexists. f_equal. f_equal. unfold Rdiv. ring.
Qed.

Lemma interiorSegments_head a b rest prevPoint nextPoint :
  exists p3 tl,
    interiorSegments (a :: b :: rest) prevPoint nextPoint =
    ((startExtra (a :: b :: rest) prevPoint, a, b, p3), V3.distance b a)
      :: tl.
Proof.
  unfold interiorSegments, extendedPoints.
  set (sE := startExtra _ _). set (eE := endExtra _ _).
  change ((a :: b :: rest) ++ [eE]) with (a :: b :: (rest ++ [eE])).
  destruct (rest ++ [eE]) as [|p3 tl] eqn:E.
  - destruct rest; discriminate.
  - exists p3. eexists. reflexivity.
Qed.

Lemma sampleCurve_head a b rest prevPoint nextPoint sampleCount alpha :
  exists p3 tl,
    _sampleCurve (a :: b :: rest) prevPoint nextPoint sampleCount alpha =
    _catmullRom (startExtra (a :: b :: rest) prevPoint) a b p3 0 alpha
      :: tl ++ [last (a :: b :: rest) (mkVec3 0 0 0)].
Proof.
  rewrite sampleCurve_long by (simpl; lia).
  destruct (interiorSegments_head a b rest prevPoint nextPoint)
    as [p3 [tl ->]].
  cbn [map List.concat fst snd].
  destruct (segmentSamples_head (startExtra (a :: b :: rest) prevPoint)
              a b p3 (V3.distance b a)
              (Js.or_num (_chainLength (a :: b :: rest)) 1)
              sampleCount alpha) as [tl' ->].
  exists p3. eexists. reflexivity.
Qed.

(** *** The first sample *)

Lemma getT_gt ti p q alpha : ti < _getT ti p q alpha.
Proof.
  unfold _getT, Js.Math_pow, Rpower.
  pose proof (exp_pos (alpha * ln (Js.Math_max (V3.distance p q) (1 / 10000)))).
  lra.
Qed.

(** Below the knot threshold the first blend collapses onto the boundary
    point and the first sample stops short of the first real point. *)
Lemma catmullRom_at_0_degenerate p0 p1 p2 p3 alpha :
  _getT 0 p0 p1 alpha < EPSILON ->
  vx p0 <> vx p1 ->
  vx (_catmullRom p0 p1 p2 p3 0 alpha) <> vx p1.
Proof.
  intros H Hne. unfold _catmullRom. cbv zeta.
  pose proof (getT_gt 0 p0 p1 alpha) as H1.
  pose proof (getT_gt (_getT 0 p0 p1 alpha) p1 p2 alpha) as H2.
  set (t1 := _getT 0 p0 p1 alpha) in *.
  set (t2 := _getT t1 p1 p2 alpha) in *.
  set (t3 := _getT t2 p2 p3 alpha).
  replace (t1 + (t2 - t1) * 0) with t1 by ring.
  replace (t1 - 0) with t1 by ring.
  replace (t1 - t1) with 0 by ring.
  replace (t2 - 0) with t2 by ring.
  assert (E : _safeDivide t1 t1 = 0).
  { unfold _safeDivide.
    assert (E : Js.ltb (Js.Math_abs t1) EPSILON = true).
    { apply JsFacts.ltb_true. unfold Js.Math_abs.
      rewrite Rabs_pos_eq; lra. }
    now rewrite E. }
  rewrite E, !safeDivide_0, !lerpVec3_0.
  unfold _lerpVec3, V3.lerp. cbn [vx].
  set (s := _safeDivide t1 t2).
  assert (Hs : s < 1).
  { unfold s, _safeDivide. destruct (Js.ltb _ _); [lra|].
    apply (Rmult_lt_reg_r t2); [lra|]. field_simplify; lra. }
  assert (Hc : Js.Math_min (Js.Math_max s 0) 1 < 1).
  { unfold Js.Math_min, Js.Math_max, Rmin, Rmax.
    destruct (Rle_dec s 0); destruct (Rle_dec _ 1); lra. }
  nra.
Qed.

End SamplerFacts.

(** C3 (as amended).  For a chain of at least two points the sampler's last
    sample is the chain's last point itself and the output has at least two
    samples.  The first sample is a computed value: the Catmull-Rom
    evaluation at [t = 0] that opens the first interior segment, on the
    boundary point before the chain, the chain's first two points and the
    point after them. *)
Theorem sampleCurve_endpoints (points : list Vec3)
  (prevPoint nextPoint : option Vec3) (sampleCount alpha : R) :
  (2 <= List.length points)%nat ->
  let out :=
    WaypointPathBuilder._sampleCurve points prevPoint nextPoint
      sampleCount alpha in
  last out (mkVec3 0 0 0) = last points (mkVec3 0 0 0) /\
  (2 <= List.length out)%nat /\
  exists p3,
    hd_error out =
    Some (WaypointPathBuilder._catmullRom
            (WaypointPathBuilder.startExtra points prevPoint)
            (nth 0 points (mkVec3 0 0 0)) (nth 1 points (mkVec3 0 0 0))
            p3 0 alpha).
Proof.
  intros H out.
  destruct points as [|a [|b rest]]; try (simpl in H; lia).
  destruct (SamplerFacts.sampleCurve_head a b rest prevPoint nextPoint
              sampleCount alpha) as [p3 [tl Hhd]].
  pose proof (SamplerFacts.sampleCurve_long (a :: b :: rest) prevPoint
                nextPoint sampleCount alpha H) as Hlong.
  fold out in Hhd, Hlong.
  split; [rewrite Hlong; apply last_last|].
  split.
  - rewrite Hhd. cbn [List.length]. rewrite length_app. simpl. lia.
  - exists p3. rewrite Hhd. reflexivity.
Qed.

(** C3 at the two-point chain [(0,0,0), (1,0,0)] with the default alpha. *)
Lemma sampleCurve_endpoints_witness :
  let points := [mkVec3 0 0 0; mkVec3 1 0 0] in
  (2 <= List.length points)%nat /\
  last (WaypointPathBuilder._sampleCurve points None None 24 (7 / 10))
       (mkVec3 0 0 0) = mkVec3 1 0 0.
Proof.
  intros points.
  assert (H : (2 <= List.length points)%nat) by (simpl; lia).
  split; [exact H|].
  exact (proj1 (sampleCurve_endpoints points None None 24 (7 / 10) H)).
Defined.

(** C3 as first stated fails: with alpha [2] and the waypoint before the
    segment [0.0005] away from its first point, the first knot interval is
    [2.5e-7], under the divide threshold, the first blend stays on the
    boundary point and the first sample is not the first point. *)
Lemma sampleCurve_first_sample_counterexample :
  let points := [mkVec3 0 0 0; mkVec3 1 0 0] in
  (2 <= List.length points)%nat /\
  hd_error (WaypointPathBuilder._sampleCurve points
              (Some (mkVec3 (1 / 2000) 0 0)) None 24 2)
  <> hd_error points.
Proof.
  intros points. split; [simpl; lia|].
  destruct (SamplerFacts.sampleCurve_head (mkVec3 0 0 0) (mkVec3 1 0 0) []
              (Some (mkVec3 (1 / 2000) 0 0)) None 24 2) as [p3 [tl Hhd]].
  unfold points. rewrite Hhd. cbn [hd_error WaypointPathBuilder.startExtra].
  intros Heq.
  assert (Hvx : forall u v : Vec3, Some u = Some v -> vx u = vx v)
    by (intros u v E; congruence).
  apply Hvx in Heq. revert Heq. apply SamplerFacts.catmullRom_at_0_degenerate.
  - unfold WaypointPathBuilder._getT, V3.distance, V3.lengthSq, V3.sub,
      Js.Math_sqrt, Js.Math_pow, Js.Math_max, WaypointPathBuilder.EPSILON.
    cbn [vx vy vz].
    replace ((1 / 2000 - 0) * (1 / 2000 - 0) + (0 - 0) * (0 - 0)
             + (0 - 0) * (0 - 0)) with ((1 / 2000) * (1 / 2000)) by lra.
    rewrite sqrt_square by lra.
    rewrite Rmax_left by lra.
    replace 2 with (INR 2) by (simpl; lra).
    rewrite Rpower_pow by lra. simpl. lra.
  - simpl. lra.
Qed.

(** C10 (as amended).  Every interpolation parameter fed to the vector
    lerp is clamped to [[0, 1]], so one Catmull-Rom evaluation is a nest of
    six lerps on its four control points, each with a weight in [[0, 1]].
    Each of the six is computed, [a + w (b - a)], and rounded. *)
Theorem catmullRom_nested_lerps (p0 p1 p2 p3 : Vec3) (t alpha : R) :
  (forall a b u,
     exists w,
       0 <= w <= 1 /\ WaypointPathBuilder._lerpVec3 a b u = V3.lerp a b w) /\
  exists w1 w2 w3 w4 w5 w6,
    (0 <= w1 <= 1 /\ 0 <= w2 <= 1 /\ 0 <= w3 <= 1) /\
    (0 <= w4 <= 1 /\ 0 <= w5 <= 1 /\ 0 <= w6 <= 1) /\
    WaypointPathBuilder._catmullRom p0 p1 p2 p3 t alpha =
    let A1 := V3.lerp p0 p1 w1 in
    let A2 := V3.lerp p1 p2 w2 in
    let A3 := V3.lerp p2 p3 w3 in
    let B1 := V3.lerp A1 A2 w4 in
    let B2 := V3.lerp A2 A3 w5 in
    V3.lerp B1 B2 w6.
Proof.
  split.
  - intros a b u. eexists. split; [apply SamplerFacts.clamp_range|].
    reflexivity.
  - unfold WaypointPathBuilder._catmullRom, WaypointPathBuilder._lerpVec3.
    cbv zeta. do 6 eexists.
    split; [repeat split; apply SamplerFacts.clamp_range|].
    split; [repeat split; apply SamplerFacts.clamp_range|].
    reflexivity.
Qed.

Section Binary64Box.
Import PrimFloat.
#[local] Set Warnings "-inexact-float".
Local Open Scope float_scope.

(** C10 as first stated fails: on binary64 numbers the evaluation at
    [t = 0] with alpha [0] on the control points [0.3], [0.9], [0.5] and
    [0.2] of the x axis gives [0.9000000000000001], above all four. *)
Lemma catmullRom_leaves_box_counterexample :
  let p0 := Binary64.mkVec3 0.3 0 0 in
  let p1 := Binary64.mkVec3 0.9 0 0 in
  let p2 := Binary64.mkVec3 0.5 0 0 in
  let p3 := Binary64.mkVec3 0.2 0 0 in
  exists q,
    Binary64._catmullRom p0 p1 p2 p3 0 0 = Some q /\
    Binary64.x q = 0.9000000000000001 /\
    (Binary64.x p0 <? Binary64.x q) = true /\
    (Binary64.x p1 <? Binary64.x q) = true /\
    (Binary64.x p2 <? Binary64.x q) = true /\
    (Binary64.x p3 <? Binary64.x q) = true.
Proof.
  cbv zeta. eexists. split; [vm_compute; reflexivity|].
  repeat split; vm_compute; reflexivity.
Qed.

End Binary64Box.

(** ** The sample count *)

Module CountFacts.
Import WaypointPathBuilder.

Lemma fold_left_Rsum l : forall a,
  fold_left (fun distance d => distance + d) l a = a + Rsum l.
Proof.
  induction l as [|x l IH]; intros a; simpl; [lra|].
  rewrite IH. lra.
Qed.

Lemma chainLength_Rsum points :
  _chainLength points = Rsum (segmentLengths points).
Proof. unfold _chainLength. rewrite fold_left_Rsum. lra. Qed.

Lemma segmentLengths_nonneg points :
  Forall (fun d => 0 <= d) (segmentLengths points).
Proof.
  induction points as [|a pts IH]; [constructor|].
  destruct pts as [|b pts]; [constructor|].
  change (segmentLengths (a :: b :: pts)) with
    (V3.distance b a :: segmentLengths (b :: pts)).
  constructor; [apply sqrt_pos | exact IH].
Qed.

Lemma Rsum_nonneg l : Forall (fun d => 0 <= d) l -> 0 <= Rsum l.
Proof. induction 1; simpl; lra. Qed.

Lemma Rsum_zero l :
  Forall (fun d => 0 <= d) l -> Rsum l = 0 -> Forall (fun d => d = 0) l.
Proof.
  induction 1 as [|x l Hx Hl IH]; intros Hs; [constructor|].
  simpl in Hs. pose proof (Rsum_nonneg l Hl).
  constructor; [lra | apply IH; lra].
Qed.

Lemma segmentLengths_length points :
  List.length (segmentLengths points) = (List.length points - 1)%nat.
Proof.
  induction points as [|a pts IH]; [reflexivity|].
  destruct pts as [|b pts]; [reflexivity|].
  change (segmentLengths (a :: b :: pts)) with
    (V3.distance b a :: segmentLengths (b :: pts)).
  simpl List.length in *. lia.
Qed.

Lemma windows_length (pts : list Vec3) e : forall s,
  List.length (windows (s :: pts ++ [e])) = (List.length pts - 1)%nat.
Proof.
  induction pts as [|a pts IH]; intros s; [reflexivity|].
  destruct pts as [|b pts]; [reflexivity|].
  assert (E : exists c tl, (b :: pts) ++ [e] = b :: c :: tl).
  { destruct pts as [|c pts]; simpl; eauto. }
  destruct E as [c [tl E]].
  change (windows (s :: (a :: b :: pts) ++ [e])) with
    (windows (s :: a :: ((b :: pts) ++ [e]))).
  specialize (IH a). rewrite E in *.
  change (windows (s :: a :: b :: c :: tl)) with
    ((s, a, b, c) :: windows (a :: b :: c :: tl)).
  simpl List.length in *. lia.
Qed.

Lemma map_snd_combine {A B C} (g : B -> C) (l : list A) :
  forall l' : list B,
  List.length l = List.length l' ->
  map (fun ws => g (snd ws)) (combine l l') = map g l'.
Proof.
  induction l as [|x l IH]; intros [|y l'] H; simpl in *;
    try discriminate; [reflexivity|].
  f_equal. apply IH. lia.
Qed.

Lemma total_concat {A} (ll : list (list A)) :
  List.length (List.concat ll) = total (map (@List.length A) ll).
Proof.
  induction ll as [|l ll IH]; [reflexivity|].
  simpl. rewrite length_app, IH. reflexivity.
Qed.

Lemma segmentSamples_length w len totalLength sampleCount alpha :
  List.length (segmentSamples w len totalLength sampleCount alpha) =
  Z.to_nat (stepsOf sampleCount totalLength len).
Proof.
  destruct w as [[[p0 p1] p2] p3]. unfold segmentSamples.
  now rewrite length_map, length_seq.
Qed.

(** The output holds the [steps] of every interior segment and the
    closing point. *)
Lemma sampleCurve_length points prevPoint nextPoint sampleCount alpha :
  (2 <= List.length points)%nat ->
  List.length (_sampleCurve points prevPoint nextPoint sampleCount alpha) =
  S (total (map (fun len =>
                   Z.to_nat (stepsOf sampleCount
                               (Js.or_num (_chainLength points) 1) len))
                (segmentLengths points))).
Proof.
  intros H. rewrite SamplerFacts.sampleCurve_long by assumption.
  rewrite length_app, total_concat, map_map. simpl List.length.
  rewrite Nat.add_1_r. f_equal.
  rewrite (map_ext _
    (fun ws => (fun len => Z.to_nat (stepsOf sampleCount
                  (Js.or_num (_chainLength points) 1) len)) (snd ws)))
    by (intros [w len]; apply segmentSamples_length).
  unfold interiorSegments.
  rewrite (map_snd_combine
             (fun len => Z.to_nat (stepsOf sampleCount
                           (Js.or_num (_chainLength points) 1) len)));
    [reflexivity|].
  unfold extendedPoints.
  now rewrite windows_length, segmentLengths_length.
Qed.

Lemma total_le {A} (f g : A -> nat) l :
  (forall x, In x l -> (f x <= g x)%nat) ->
  (total (map f l) <= total (map g l))%nat.
Proof.
  induction l as [|x l IH]; intros H; simpl; [lia|].
  pose proof (H x (or_introl eq_refl)).
  assert (total (map f l) <= total (map g l))%nat
    by (apply IH; intros y Hy; apply H; now right).
  lia.
Qed.

Lemma or_num_pos x : 0 <= x -> 0 < Js.or_num x 1.
Proof. intros H. unfold Js.or_num. destruct (Req_dec_T x 0); lra. Qed.

Lemma stepsOf_mono sc1 sc2 totalLength len :
  sc1 <= sc2 -> 0 < totalLength -> 0 <= len ->
  (stepsOf sc1 totalLength len <= stepsOf sc2 totalLength len)%Z.
Proof.
  intros Hsc Ht Hl. unfold stepsOf.
  apply Z.max_le_compat_l, JsFacts.Math_round_le.
  apply Rmult_le_compat_r; [|assumption].
  apply Rle_mult_inv_pos; assumption.
Qed.

Lemma sampleBudget_density cfg density' distance :
  0 <= distance -> sampleDensity cfg <= density' ->
  sampleBudget cfg distance <= sampleBudget (withDensity cfg density') distance.
Proof.
  intros Hd Hle. unfold sampleBudget, withDensity, Js.Math_max. cbn.
  apply Rle_max_compat_l, IZR_le, Zceil_le. nra.
Qed.

(** A chain of no length gets the least count its number of points
    allows. *)
Lemma total_const {A} (f : A -> nat) (c : nat) l :
  (forall x, In x l -> f x = c) -> total (map f l) = (c * List.length l)%nat.
Proof.
  induction l as [|x l IH]; intros H; simpl; [lia|].
  rewrite (H x (or_introl eq_refl)), IH by (intros y Hy; apply H; now right).
  lia.
Qed.

Lemma total_at_least {A} (f : A -> nat) (c : nat) l :
  (forall x, In x l -> (c <= f x)%nat) ->
  (c * List.length l <= total (map f l))%nat.
Proof.
  induction l as [|x l IH]; intros H; simpl; [lia|].
  pose proof (H x (or_introl eq_refl)).
  assert (c * List.length l <= total (map f l))%nat
    by (apply IH; intros y Hy; apply H; now right).
  lia.
Qed.

Lemma sampleCurve_length_min points prevPoint nextPoint sampleCount alpha :
  (2 <= List.length points)%nat ->
  (S (4 * (List.length points - 1)) <=
   List.length (_sampleCurve points prevPoint nextPoint sampleCount alpha))%nat.
Proof.
  intros H. rewrite sampleCurve_length by assumption.
  apply le_n_S. rewrite <- segmentLengths_length.
  apply total_at_least. intros len _.
  pose proof (SamplerFacts.stepsOf_ge_4 sampleCount
                (Js.or_num (_chainLength points) 1) len). lia.
Qed.

Lemma sampleCurve_length_flat points prevPoint nextPoint sampleCount alpha :
  (2 <= List.length points)%nat ->
  _chainLength points = 0 ->
  List.length (_sampleCurve points prevPoint nextPoint sampleCount alpha) =
  S (4 * (List.length points - 1)).
Proof.
  intros H H0. rewrite sampleCurve_length by assumption.
  f_equal. rewrite <- segmentLengths_length.
  apply total_const. intros len Hin.
  assert (Hz : len = 0).
  { rewrite chainLength_Rsum in H0.
    pose proof (Rsum_zero _ (segmentLengths_nonneg points) H0) as Hall.
    rewrite Forall_forall in Hall. auto. }
  subst len. unfold stepsOf, Js.Math_round.
  replace (sampleCount * (0 / Js.or_num (_chainLength points) 1) + / 2)
    with (/ 2) by (unfold Rdiv; ring).
  rewrite (Zfloor_eq 0) by (simpl; lra). reflexivity.
Qed.

(** *** When the shares change

    Arc length alone does not order the counts: the budget is split by
    rounding each segment's share, and a longer chain whose shares round
    down can get fewer samples than a shorter one whose shares round up. *)

Lemma distance_on_axis a b :
  a <= b -> V3.distance (mkVec3 b 0 0) (mkVec3 a 0 0) = b - a.
Proof.
  intros H. unfold V3.distance, Js.Math_sqrt.
  replace (V3.lengthSq (V3.sub (mkVec3 b 0 0) (mkVec3 a 0 0)))
    with ((b - a) * (b - a))
    by (unfold V3.lengthSq, V3.sub; cbn [vx vy vz]; ring).
  apply sqrt_square. lra.
Qed.

Lemma stepsOf_eq sampleCount totalLength len z :
  (4 <= z)%Z ->
  IZR z <= sampleCount * (len / totalLength) + / 2 < IZR z + 1 ->
  stepsOf sampleCount totalLength len = z.
Proof.
  intros Hz Hb. unfold stepsOf, Js.Math_round.
  rewrite (Zfloor_eq z) by exact Hb. lia.
Qed.

Lemma sampleBudget_eq cfg distance z :
  minSamples cfg <= IZR z ->
  IZR z - 1 < distance * sampleDensity cfg <= IZR z ->
  sampleBudget cfg distance = IZR z.
Proof.
  intros Hm Hb. unfold sampleBudget, Js.Math_ceil, Js.Math_max.
  rewrite (Zceil_eq z) by exact Hb. now apply Rmax_right.
Qed.

Lemma longer_chain_fewer_samples :
  let chainA :=
    [mkVec3 0 0 0; mkVec3 (9 / 8) 0 0; mkVec3 (9 / 4) 0 0;
     mkVec3 (27 / 8) 0 0; mkVec3 4 0 0] in
  let chainB :=
    [mkVec3 0 0 0; mkVec3 (7 / 8) 0 0; mkVec3 (7 / 4) 0 0;
     mkVec3 (11 / 4) 0 0; mkVec3 (33 / 8) 0 0] in
  _chainLength chainA = 4 /\
  _chainLength chainB = 33 / 8 /\
  List.length (segmentCurve defaultConfig chainA None None) = 26%nat /\
  List.length (segmentCurve defaultConfig chainB None None) = 25%nat.
Proof.
  intros chainA chainB.
  assert (LA : segmentLengths chainA =
               [9 / 8 - 0; 9 / 4 - 9 / 8; 27 / 8 - 9 / 4; 4 - 27 / 8]).
  { unfold chainA. cbn [segmentLengths].
    now rewrite !distance_on_axis by lra. }
  assert (LB : segmentLengths chainB =
               [7 / 8 - 0; 7 / 4 - 7 / 8; 11 / 4 - 7 / 4; 33 / 8 - 11 / 4]).
  { unfold chainB. cbn [segmentLengths].
    now rewrite !distance_on_axis by lra. }
  assert (DA : _chainLength chainA = 4).
  { rewrite chainLength_Rsum, LA. simpl. lra. }
  assert (DB : _chainLength chainB = 33 / 8).
  { rewrite chainLength_Rsum, LB. simpl. lra. }
  assert (TA : Js.or_num 4 1 = 4).
  { unfold Js.or_num. destruct (Req_dec_T 4 0); lra. }
  assert (TB : Js.or_num (33 / 8) 1 = 33 / 8).
  { unfold Js.or_num. destruct (Req_dec_T (33 / 8) 0); lra. }
  assert (SA : sampleBudget defaultConfig 4 = 24).
  { apply (sampleBudget_eq defaultConfig 4 24); simpl; lra. }
  assert (SB : sampleBudget defaultConfig (33 / 8) = 25).
  { apply (sampleBudget_eq defaultConfig (33 / 8) 25); simpl; lra. }
  split; [exact DA|]. split; [exact DB|].
  unfold segmentCurve.
  rewrite !sampleCurve_length by (simpl; lia).
  rewrite DA, DB, TA, TB, SA, SB, LA, LB. cbn [map].
  rewrite (stepsOf_eq 24 4 (9 / 8 - 0) 7) by (try lia; lra).
  rewrite (stepsOf_eq 24 4 (9 / 4 - 9 / 8) 7) by (try lia; lra).
  rewrite (stepsOf_eq 24 4 (27 / 8 - 9 / 4) 7) by (try lia; lra).
  rewrite (stepsOf_eq 24 4 (4 - 27 / 8) 4) by (try lia; lra).
  rewrite (stepsOf_eq 25 (33 / 8) (7 / 8 - 0) 5) by (try lia; lra).
  rewrite (stepsOf_eq 25 (33 / 8) (7 / 4 - 7 / 8) 5) by (try lia; lra).
  rewrite (stepsOf_eq 25 (33 / 8) (11 / 4 - 7 / 4) 6) by (try lia; lra).
  rewrite (stepsOf_eq 25 (33 / 8) (33 / 8 - 11 / 4) 8) by (try lia; lra).
  split; reflexivity.
Qed.

End CountFacts.

(** C9 (as amended).  With the chain and everything else fixed, the number
    of samples [buildPath] gets for it does not decrease when
    [sampleDensity] (samples per unit) grows; and a chain of no length has
    the least count of all chains of as many points.  The count is not
    monotone in the arc length. *)
Theorem sampleCount_monotone (cfg : WaypointPathBuilder.Config)
  (points : list Vec3) (prevPoint nextPoint : option Vec3) :
  (forall density',
     WaypointPathBuilder.sampleDensity cfg <= density' ->
     (List.length
        (WaypointPathBuilder.segmentCurve cfg points prevPoint nextPoint) <=
      List.length
        (WaypointPathBuilder.segmentCurve
           (WaypointPathBuilder.withDensity cfg density')
           points prevPoint nextPoint))%nat) /\
  (forall points' prevPoint' nextPoint',
     WaypointPathBuilder._chainLength points = 0 ->
     List.length points' = List.length points ->
     (List.length
        (WaypointPathBuilder.segmentCurve cfg points prevPoint nextPoint) <=
      List.length
        (WaypointPathBuilder.segmentCurve cfg points' prevPoint' nextPoint'))%nat).
Proof.
  pose proof (CountFacts.segmentLengths_nonneg points) as Hnn.
  pose proof (CountFacts.Rsum_nonneg _ Hnn) as HD.
  rewrite <- CountFacts.chainLength_Rsum in HD.
  split.
  - intros density' Hle. unfold WaypointPathBuilder.segmentCurve.
    destruct (Nat.lt_ge_cases (List.length points) 2) as [Hs | Hl].
    + unfold WaypointPathBuilder._sampleCurve.
      destruct (List.length points <? 2)%nat eqn:E;
        [lia | apply Nat.ltb_ge in E; lia].
    + rewrite !CountFacts.sampleCurve_length by assumption.
      apply le_n_S, CountFacts.total_le. intros len Hin.
      assert (Hlen0 : 0 <= len) by (rewrite Forall_forall in Hnn; auto).
      pose proof (SamplerFacts.stepsOf_ge_4
        (WaypointPathBuilder.sampleBudget cfg
           (WaypointPathBuilder._chainLength points))
        (Js.or_num (WaypointPathBuilder._chainLength points) 1) len).
      apply Z2Nat.inj_le; try lia.
      * pose proof (SamplerFacts.stepsOf_ge_4
          (WaypointPathBuilder.sampleBudget
             (WaypointPathBuilder.withDensity cfg density')
             (WaypointPathBuilder._chainLength points))
          (Js.or_num (WaypointPathBuilder._chainLength points) 1) len). lia.
      * apply CountFacts.stepsOf_mono; trivial.
        -- now apply CountFacts.sampleBudget_density.
        -- now apply CountFacts.or_num_pos.
  - intros points' prevPoint' nextPoint' H0 Hlen.
    unfold WaypointPathBuilder.segmentCurve.
    destruct (Nat.lt_ge_cases (List.length points) 2) as [Hs | Hl].
    + unfold WaypointPathBuilder._sampleCurve. rewrite Hlen.
      destruct (List.length points <? 2)%nat eqn:E;
        [lia | apply Nat.ltb_ge in E; lia].
    + rewrite CountFacts.sampleCurve_length_flat by assumption.
      rewrite <- Hlen. apply CountFacts.sampleCurve_length_min. lia.
Qed.

(** C9 at the default builder and the chain [(0,0,0), (1,0,0), (1,0,2)]:
    density [6] against [12]. *)
Lemma sampleCount_monotone_witness :
  let cfg := WaypointPathBuilder.defaultConfig in
  let points := [mkVec3 0 0 0; mkVec3 1 0 0; mkVec3 1 0 2] in
  WaypointPathBuilder.sampleDensity cfg <= 12 /\
  (List.length (WaypointPathBuilder.segmentCurve cfg points None None) <=
   List.length (WaypointPathBuilder.segmentCurve
                  (WaypointPathBuilder.withDensity cfg 12) points None None))%nat.
Proof.
  intros cfg points.
  assert (H : WaypointPathBuilder.sampleDensity cfg <= 12) by (simpl; lra).
  split; [exact H|].
  exact (proj1 (sampleCount_monotone cfg points None None) 12 H).
Defined.

(** C9 as first stated fails: of two chains of five points on the x axis,
    with the default builder, the one of length [4] gets 26 samples and the
    one of length [4.125] gets 25. *)
Lemma sampleCount_arc_length_counterexample :
  let chainA :=
    [mkVec3 0 0 0; mkVec3 (9 / 8) 0 0; mkVec3 (9 / 4) 0 0;
     mkVec3 (27 / 8) 0 0; mkVec3 4 0 0] in
  let chainB :=
    [mkVec3 0 0 0; mkVec3 (7 / 8) 0 0; mkVec3 (7 / 4) 0 0;
     mkVec3 (11 / 4) 0 0; mkVec3 (33 / 8) 0 0] in
  List.length chainA = List.length chainB /\
  WaypointPathBuilder._chainLength chainA <
    WaypointPathBuilder._chainLength chainB /\
  (List.length
     (WaypointPathBuilder.segmentCurve WaypointPathBuilder.defaultConfig
        chainB None None) <
   List.length
     (WaypointPathBuilder.segmentCurve WaypointPathBuilder.defaultConfig
        chainA None None))%nat.
Proof.
  intros chainA chainB.
  destruct CountFacts.longer_chain_fewer_samples as [DA [DB [CA CB]]].
  fold chainA in DA, CA. fold chainB in DB, CB.
  split; [reflexivity|]. split; [rewrite DA, DB; lra|].
  rewrite CA, CB. lia.
Qed.

(** ** The synthesized boundary control points *)

Module ExtrapolateFacts.
Import WaypointPathBuilder.

(** Away from the degenerate case [_extrapolate] moves [point] by
    [lengthFactor] units along the unit vector from [reference] to
    [point]. *)
Lemma extrapolate_far point reference lengthFactor :
  EPSILON <= V3.lengthSq (V3.sub point reference) ->
  _extrapolate point reference lengthFactor =
  V3.add point
    (V3.mulScalar (V3.sub point reference)
       (lengthFactor / V3.distance point reference)).
Proof.
  intros H. unfold _extrapolate, V3.distance, Js.Math_sqrt.
  set (dir := V3.sub point reference) in *.
  assert (Hpos : 0 < V3.lengthSq dir) by (unfold EPSILON in H; lra).
  assert (E1 : Js.ltb (V3.lengthSq dir) EPSILON = false)
    by (apply JsFacts.ltb_false; lra).
  assert (E2 : Js.gtb (V3.lengthSq dir) 0 = true)
    by (apply JsFacts.gtb_true; lra).
  unfold V3.normalize, Js.Math_sqrt. rewrite E1, E2.
  assert (Hs : sqrt (V3.lengthSq dir) <> 0).
  { pose proof (sqrt_lt_R0 _ Hpos). lra. }
  unfold V3.add, V3.mulScalar. cbn [vx vy vz]. f_equal; field; exact Hs.
Qed.

(** On a two-point chain [a, b] both synthesized control points are
    displaced by [2 / |b - a|] times the chain vector [b - a]: the one
    after [b] leaves the chain, the one "before" [a] enters it. *)
Lemma two_point_controls a b :
  EPSILON <= V3.lengthSq (V3.sub a b) ->
  let shift := V3.mulScalar (V3.sub b a) (2 / V3.distance a b) in
  startExtra [a; b] None = V3.add a shift /\
  endExtra [a; b] None = V3.add b shift.
Proof.
  intros H shift.
  change (startExtra [a; b] None) with (_extrapolate a b (-2)).
  change (endExtra [a; b] None) with (_extrapolate b a 2).
  assert (Hsym : V3.lengthSq (V3.sub b a) = V3.lengthSq (V3.sub a b))
    by (unfold V3.lengthSq, V3.sub; cbn [vx vy vz]; ring).
  assert (Hd : V3.distance b a = V3.distance a b)
    by (unfold V3.distance; now rewrite Hsym).
  rewrite !extrapolate_far by (rewrite ?Hsym; exact H).
  rewrite Hd. unfold shift, V3.add, V3.mulScalar, V3.sub, Rdiv.
  cbn [vx vy vz]. split; f_equal; ring.
Qed.

End ExtrapolateFacts.

(** C4.  The chain [(0,0,0), (10,0,0)] with no boundary points supplied:
    the control point synthesized at the end is [(12,0,0)], two units past
    the last point, but the one synthesized at the start is [(2,0,0)], two
    units from the first point towards the second, inside the chain, not
    [(-2,0,0)]. *)
Theorem extendedPoints_two_point_chain :
  WaypointPathBuilder.extendedPoints [mkVec3 0 0 0; mkVec3 10 0 0] None None =
  [mkVec3 2 0 0; mkVec3 0 0 0; mkVec3 10 0 0; mkVec3 12 0 0].
Proof.
  assert (Hsq : V3.lengthSq (V3.sub (mkVec3 0 0 0) (mkVec3 10 0 0)) = 10 * 10)
    by (unfold V3.lengthSq, V3.sub; cbn [vx vy vz]; ring).
  assert (Hd : V3.distance (mkVec3 0 0 0) (mkVec3 10 0 0) = 10).
  { unfold V3.distance, Js.Math_sqrt. rewrite Hsq. apply sqrt_square. lra. }
  destruct (ExtrapolateFacts.two_point_controls (mkVec3 0 0 0) (mkVec3 10 0 0))
    as [Hs He].
  { rewrite Hsq. unfold WaypointPathBuilder.EPSILON. lra. }
  unfold WaypointPathBuilder.extendedPoints. rewrite Hs, He, Hd.
  unfold V3.add, V3.mulScalar, V3.sub. cbn [vx vy vz app].
  repeat f_equal; lra.
Qed.

(** ** The parsers *)

Module ParserFacts.
Import WaypointFetcher.

Lemma or_num_0 r : Js.or_num r 0 = r.
Proof. unfold Js.or_num. destruct (Req_dec_T r 0); congruence. Qed.

(** A CSV line is taken into the three arrays together or not at all. *)
Lemma csvLine_aligned Number d acc line :
  aligned acc -> aligned (csvLine Number d acc line).
Proof.
  destruct acc as [[ps rs] ws]. unfold csvLine, aligned. cbn [fst snd].
  destruct (List.length _ <? 6)%nat; [tauto|].
  destruct (existsb _ _); [tauto|].
  cbn [fst snd]. rewrite !length_app. simpl. lia.
Qed.

Lemma csvLines_aligned Number d lines : forall acc,
  aligned acc -> aligned (fold_left (csvLine Number d) lines acc).
Proof.
  induction lines as [|line lines IH]; intros acc H; simpl; [assumption|].
  now apply IH, csvLine_aligned.
Qed.

(** After [_parseCsv] the three arrays have one length. *)
Lemma parseCsv_aligned Number delimiter text payload :
  _parseCsv Number delimiter text = Some payload ->
  List.length (positions payload) = List.length (pauses payload) /\
  List.length (rotations payload) = List.length (pauses payload).
Proof.
  unfold _parseCsv. destruct (csvLines text) as [|l ls]; [discriminate|].
  pose proof (csvLines_aligned Number (list_ascii_of_string delimiter)
                (l :: ls) ([], [], [])) as H.
  destruct (fold_left _ (l :: ls) _) as [[ps rs] ws].
  intros E. injection E as <-. simpl. apply H. now split.
Qed.

(** A JSON row that is kept always adds a pause, and adds a position or a
    rotation only when it has one. *)
Lemma jsonRow_bounded Number acc row :
  bounded acc -> bounded (jsonRow Number acc row).
Proof.
  destruct acc as [[ps rs] ws]. unfold jsonRow, bounded. cbn [fst snd].
  destruct (negb (truthy row)); [tauto|].
  intros [H1 H2].
  repeat match goal with
         | |- context [if ?c then _ else _] => destruct c
         end; cbn [fst snd]; rewrite ?length_app; simpl; lia.
Qed.

Lemma jsonRows_bounded Number rows : forall acc,
  bounded acc -> bounded (fold_left (jsonRow Number) rows acc).
Proof.
  induction rows as [|row rows IH]; intros acc H; simpl; [assumption|].
  now apply IH, jsonRow_bounded.
Qed.

(** What does hold after [_parseJson]: neither [positions] nor
    [rotations] is longer than [pauses]. *)
Lemma parseJson_bounded Number json payload :
  _parseJson Number json = Some payload ->
  (List.length (positions payload) <= List.length (pauses payload))%nat /\
  (List.length (rotations payload) <= List.length (pauses payload))%nat.
Proof.
  unfold _parseJson. destruct json; try discriminate.
  pose proof (jsonRows_bounded Number items ([], [], [])) as H.
  destruct (fold_left _ items _) as [[ps rs] ws].
  intros E. injection E as <-. simpl. apply H. split; simpl; lia.
Qed.

(** The CSV scenario: one row of seven fields, and a row of three fields
    dropped without error. *)
Lemma csv_row_scenario :
  _parseCsv Scenario.fieldValue "," "1,2,3,0,0,0,0.5" =
  Some (mkPayload [mkVec3 1 2 3] [mkVec3 0 0 0] [1 / 2] "csv").
Proof.
  unfold _parseCsv. cbn. unfold Js.or_num.
  destruct (Req_dec_T (1 / 2) 0); [lra | reflexivity].
Qed.

Lemma csv_short_row_dropped (Number : JsValue -> option R) :
  _parseCsv Number ","
    (String.append "1,2,3" (String Text.LF " 4,5,6,7,8 "))
  = Some (mkPayload [] [] [] "csv").
Proof. reflexivity. Qed.

End ParserFacts.

(** C1.  The JSON array
    [[{"position":{"x":0,"y":0,"z":0}},
      {"rotation":{"x":0,"y":90,"z":0}},
      {"rotation":{"x":0,"y":180,"z":0},"pause":2}]]:
    the two rows without a position are kept all the same, each adds its
    pause and its rotation, and the arrays come out with one position, two
    rotations and three pauses. *)
Theorem parseJson_rows_without_position :
  let xyz x y z := JObj [("x", JNum x); ("y", JNum y); ("z", JNum z)]%string in
  WaypointFetcher._parseJson WaypointFetcher.NumberOfValue
    (JArr [JObj [("position", xyz 0 0 0)];
           JObj [("rotation", xyz 0 90 0)];
           JObj [("rotation", xyz 0 180 0); ("pause", JNum 2)]])%string =
  Some (mkPayload [mkVec3 0 0 0] [mkVec3 0 90 0; mkVec3 0 180 0] [0; 0; 2]
          "json").
Proof.
  cbv zeta. unfold WaypointFetcher._parseJson. cbn.
  rewrite !ParserFacts.or_num_0. reflexivity.
Qed.

(** ** The tween manager *)

Module TweenFacts.

Lemma updateAt_length f heap : forall id,
  List.length (Tween.updateAt id f heap) = List.length heap.
Proof.
  induction heap as [|x heap IH]; intros [|id]; simpl; auto.
Qed.

Lemma nth_error_updateAt f heap : forall id j,
  nth_error (Tween.updateAt id f heap) j =
  if Nat.eqb id j then option_map f (nth_error heap j)
  else nth_error heap j.
Proof.
  induction heap as [|x heap IH]; intros [|id] [|j]; simpl; auto;
    now destruct (Nat.eqb _ _).
Qed.

Lemma updateAt_live f heap id j y :
  calm f ->
  nth_error (Tween.updateAt id f heap) j = Some y ->
  Tween.live y = true ->
  exists x, nth_error heap j = Some x /\ Tween.live x = true.
Proof.
  intros Hf. rewrite nth_error_updateAt.
  destruct (Nat.eqb id j).
  - destruct (nth_error heap j) as [x|]; [|discriminate].
    simpl. intros E Hl. injection E as <-. exists x. split; auto.
  - intros E Hl. exists y. auto.
Qed.

Lemma calm_onComplete_f cb :
  calm (fun x => Tween.mk (Tween.motion x) (Tween.duration x)
                   (Tween.delay x) (Tween.callbacks x ++ [cb])
                   (Tween.chained x) (Tween.status x)).
Proof. intros x H. exact H. Qed.

Lemma calm_chain_f next :
  calm (fun x => Tween.mk (Tween.motion x) (Tween.duration x)
                   (Tween.delay x) (Tween.callbacks x)
                   (Some next) (Tween.status x)).
Proof. intros x H. exact H. Qed.

Lemma calm_start_f :
  calm (fun x =>
          match Tween.status x with
          | Tween.Pending =>
              Tween.mk (Tween.motion x) (Tween.duration x) (Tween.delay x)
                       (Tween.callbacks x) (Tween.chained x) Tween.Active
          | _ => x
          end).
Proof.
  intros x. unfold Tween.live.
  destruct (Tween.status x) eqn:E; simpl; rewrite ?E; auto.
Qed.

Lemma calm_stop_f :
  calm (fun x =>
          match Tween.status x with
          | Tween.Completed => x
          | _ => Tween.mk (Tween.motion x) (Tween.duration x)
                   (Tween.delay x) (Tween.callbacks x) (Tween.chained x)
                   Tween.Cancelled
          end).
Proof.
  intros x. unfold Tween.live.
  destruct (Tween.status x) eqn:E; simpl; rewrite ?E; auto.
Qed.

Lemma calm_finish_f :
  calm (fun x => Tween.mk (Tween.motion x) (Tween.duration x)
                   (Tween.delay x) (Tween.callbacks x) (Tween.chained x)
                   Tween.Completed).
Proof. intros x. unfold Tween.live. simpl. discriminate. Qed.

Lemma ownedBy_updateAt f heap ids id :
  calm f -> ownedBy heap ids -> ownedBy (Tween.updateAt id f heap) ids.
Proof.
  intros Hf Ho j y Hj Hl.
  destruct (updateAt_live f heap id j y Hf Hj Hl) as [x [Hx Hlx]].
  eapply Ho; eassumption.
Qed.

Lemma ownedBy_onComplete heap ids id cb :
  ownedBy heap ids -> ownedBy (Tween.onComplete id cb heap) ids.
Proof. apply ownedBy_updateAt, calm_onComplete_f. Qed.

Lemma ownedBy_chain heap ids id next :
  ownedBy heap ids -> ownedBy (Tween.chain id next heap) ids.
Proof. apply ownedBy_updateAt, calm_chain_f. Qed.

Lemma ownedBy_start heap ids id :
  ownedBy heap ids -> ownedBy (Tween.start id heap) ids.
Proof. apply ownedBy_updateAt, calm_start_f. Qed.

Lemma ownedBy_finish heap ids id :
  ownedBy heap ids -> ownedBy (Tween.finish id heap) ids.
Proof. apply ownedBy_updateAt, calm_finish_f. Qed.

Lemma ownedBy_create heap ids m duration delay :
  ownedBy heap ids ->
  ownedBy (snd (Tween.create m duration delay heap))
          (ids ++ [fst (Tween.create m duration delay heap)]).
Proof.
  intros Ho j y Hj Hl. simpl in *. apply in_or_app.
  destruct (Nat.lt_ge_cases j (List.length heap)) as [Hlt | Hge].
  - rewrite nth_error_app1 in Hj by assumption. left. eapply Ho; eassumption.
  - right. left.
    assert (Hlen : (j < List.length (heap ++ [Tween.mk m duration delay []
                                               None Tween.Pending]))%nat).
    { apply nth_error_Some. congruence. }
    rewrite length_app in Hlen. simpl in Hlen. lia.
Qed.

Lemma ownedBy_chainAll ids' : forall heap ids,
  ownedBy heap ids -> ownedBy (CameraMover.chainAll ids' heap) ids.
Proof.
  induction ids' as [|a rest IH]; intros heap ids H; [exact H|].
  destruct rest as [|b rest]; [exact H|].
  change (CameraMover.chainAll (a :: b :: rest) heap) with
    (CameraMover.chainAll (b :: rest) (Tween.chain a b heap)).
  apply IH, ownedBy_chain, H.
Qed.

(** After [stop] has gone through [ids] no task of [ids] can run, and no
    other task has changed. *)
Lemma stop_all_live ids : forall heap j y,
  nth_error (fold_left (fun h id => Tween.stop id h) ids heap) j = Some y ->
  Tween.live y = true ->
  ~ In j ids /\ nth_error heap j = Some y.
Proof.
  induction ids as [|id ids IH]; intros heap j y Hj Hl; simpl in *.
  - auto.
  - destruct (IH _ _ _ Hj Hl) as [Hn Hs].
    unfold Tween.stop in Hs. rewrite nth_error_updateAt in Hs.
    destruct (Nat.eqb id j) eqn:E.
    + exfalso. destruct (nth_error heap j) as [x|]; [|discriminate].
      simpl in Hs. injection Hs as <-.
      unfold Tween.live in Hl.
      destruct (Tween.status x) eqn:Es; simpl in Hl; rewrite ?Es in Hl;
        discriminate.
    + apply Nat.eqb_neq in E. split; [|assumption].
      intros [H | H]; auto.
Qed.

Lemma stop_all_length ids : forall heap,
  List.length (fold_left (fun h id => Tween.stop id h) ids heap) =
  List.length heap.
Proof.
  induction ids as [|id ids IH]; intros heap; simpl; [reflexivity|].
  rewrite IH. apply updateAt_length.
Qed.

End TweenFacts.

(** ** The mover *)

Module MoverFacts.
Section Facts.

Variable setFromEulerAngles : R -> R -> R -> Quat.
Variable cfg : CameraMover.Config.

Let start := CameraMover.start setFromEulerAngles cfg.
Let startFromWaypoints :=
  CameraMover.startFromWaypoints setFromEulerAngles cfg.
Let complete := CameraMover.complete setFromEulerAngles cfg.
Let step := CameraMover.step setFromEulerAngles cfg.
Let run := CameraMover.run setFromEulerAngles cfg.

Lemma quiet_owned w : quiet w -> owned w.
Proof.
  intros Hq id x Hx Hl. rewrite (Hq id x Hx) in Hl. discriminate.
Qed.

Lemma stop_tweens restore w :
  CameraMover._tweens (CameraMover.stop restore w) = [] /\
  CameraMover._running (CameraMover.stop restore w) = false.
Proof. unfold CameraMover.stop. destruct restore; split; reflexivity. Qed.

Lemma stop_heap restore w :
  CameraMover.tweens (CameraMover.stop restore w) =
  fold_left (fun h id => Tween.stop id h) (CameraMover._tweens w)
            (CameraMover.tweens w).
Proof. unfold CameraMover.stop. destruct restore; reflexivity. Qed.

Lemma stop_fired restore w :
  CameraMover.fired (CameraMover.stop restore w) =
  CameraMover.fired w ++ (if restore then [CameraMoverStopped] else []).
Proof.
  unfold CameraMover.stop. destruct restore; simpl;
    [reflexivity | now rewrite app_nil_r].
Qed.

Lemma stop_quiet restore w : owned w -> quiet (CameraMover.stop restore w).
Proof.
  intros Ho j y Hj. rewrite stop_heap in Hj.
  destruct (Tween.live y) eqn:Hl; [exfalso | reflexivity].
  destruct (TweenFacts.stop_all_live _ _ _ _ Hj Hl) as [Hn Hs].
  apply Hn. eapply Ho; eassumption.
Qed.

Lemma stop_owned restore w : owned w -> owned (CameraMover.stop restore w).
Proof. intros H. apply quiet_owned, stop_quiet, H. Qed.

Lemma live_not_active x :
  Tween.live x = false -> Tween.status x <> Tween.Active.
Proof. unfold Tween.live. destruct (Tween.status x); congruence. Qed.

(** With nothing left to run, the end of a task's duration changes
    nothing. *)
Lemma quiet_complete id w : quiet w -> complete id w = w.
Proof.
  intros Hq. unfold complete, CameraMover.complete.
  destruct (nth_error (CameraMover.tweens w) id) as [x|] eqn:E;
    [|reflexivity].
  pose proof (live_not_active x (Hq id x E)) as Hn.
  destruct (Tween.status x); congruence.
Qed.

Lemma quiet_completes ids : forall w,
  quiet w -> run w (map CameraMover.Complete ids) = w.
Proof.
  induction ids as [|id ids IH]; intros w Hq; [reflexivity|].
  unfold run, CameraMover.run in *. simpl.
  fold complete. rewrite (quiet_complete id w Hq). now apply IH.
Qed.

Lemma finish_owned w : owned w -> owned (CameraMover._finish w).
Proof. intros H. exact H. Qed.

Lemma launch_owned w : owned w -> owned (CameraMover.launch w).
Proof.
  intros H. unfold CameraMover.launch.
  destruct (CameraMover._tweens w) as [|first rest] eqn:E; [exact H|].
  unfold owned, CameraMover.withHeap.
  cbn [CameraMover.tweens CameraMover._tweens].
  apply TweenFacts.ownedBy_start, TweenFacts.ownedBy_onComplete.
  rewrite <- E. apply TweenFacts.ownedBy_chainAll, H.
Qed.

Lemma segmentStep_owned path acc segment :
  owned (fst acc) ->
  owned (fst (CameraMover.segmentStep setFromEulerAngles cfg path acc
                segment)).
Proof.
  destruct acc as [w rot]. intros H. unfold CameraMover.segmentStep.
  destruct (CameraMover.samples segment) as [samples|]; [|exact H].
  destruct (List.length samples <? 2)%nat; [exact H|].
  cbn [Tween.create fst]. unfold owned, CameraMover.push, CameraMover.withHeap.
  cbn [CameraMover.tweens CameraMover._tweens].
  apply TweenFacts.ownedBy_onComplete.
  exact (TweenFacts.ownedBy_create _ _ _ _ _ H).
Qed.

Lemma segments_owned path segs : forall acc,
  owned (fst acc) ->
  owned (fst (fold_left (CameraMover.segmentStep setFromEulerAngles cfg path)
                segs acc)).
Proof.
  induction segs as [|s segs IH]; intros acc H; [exact H|].
  simpl. apply IH, segmentStep_owned, H.
Qed.

Lemma start_owned path w : owned w -> owned (start path w).
Proof.
  intros H. unfold start, CameraMover.start.
  destruct path as [p|]; [|exact H].
  destruct (CameraMover.segments p) as [[|s segs]|]; try exact H.
  apply launch_owned, segments_owned. cbn [fst].
  exact (stop_owned false w H).
Qed.

Lemma hopStep_owned rotations i a b acc :
  owned (fst acc) ->
  owned (fst (CameraMover.hopStep setFromEulerAngles cfg rotations i a b
                acc)).
Proof.
  destruct acc as [w rot]. intros H. unfold CameraMover.hopStep.
  cbn [Tween.create fst]. unfold owned, CameraMover.push, CameraMover.withHeap.
  cbn [CameraMover.tweens CameraMover._tweens].
  apply TweenFacts.ownedBy_onComplete.
  exact (TweenFacts.ownedBy_create _ _ _ _ _ H).
Qed.

Lemma hops_owned rotations positions : forall i acc,
  owned (fst acc) ->
  owned (fst (CameraMover.hops setFromEulerAngles cfg rotations i positions
                acc)).
Proof.
  induction positions as [|a rest IH]; intros i acc H; [exact H|].
  destruct rest as [|b rest]; [exact H|].
  change (CameraMover.hops setFromEulerAngles cfg rotations i
            (a :: b :: rest) acc)
    with (CameraMover.hops setFromEulerAngles cfg rotations (i + 1)
            (b :: rest)
            (CameraMover.hopStep setFromEulerAngles cfg rotations i a b acc)).
  apply IH, hopStep_owned, H.
Qed.

Lemma startFromWaypoints_owned data w :
  owned w -> owned (startFromWaypoints data w).
Proof.
  intros H. unfold startFromWaypoints, CameraMover.startFromWaypoints.
  destruct data as [d|]; [|exact H].
  destruct (CameraMover.wpPositions d) as [|p ps]; [exact H|].
  apply launch_owned, hops_owned. cbn [fst].
  exact (stop_owned false w H).
Qed.

Lemma onSequenceComplete_owned w :
  owned w ->
  owned (CameraMover._onSequenceComplete setFromEulerAngles cfg w).
Proof.
  intros H. unfold CameraMover._onSequenceComplete.
  destruct (CameraMover.loop cfg); [|exact H].
  destruct (CameraMover._lastPath w); [|exact H].
  now apply start_owned.
Qed.

Lemma runCallback_owned w cb :
  owned w -> owned (CameraMover.runCallback setFromEulerAngles cfg w cb).
Proof.
  intros H. destruct cb; simpl; trivial.
  now apply onSequenceComplete_owned.
Qed.

Lemma callbacks_owned cbs : forall w,
  owned w ->
  owned (fold_left (CameraMover.runCallback setFromEulerAngles cfg) cbs w).
Proof.
  induction cbs as [|cb cbs IH]; intros w H; [exact H|].
  simpl. apply IH, runCallback_owned, H.
Qed.

Lemma arrive_owned m w : owned w -> owned (CameraMover.arrive m w).
Proof.
  intros H. destruct m as [samples ? ?| |]; simpl; trivial.
  destruct samples; exact H.
Qed.

Lemma complete_owned id w : owned w -> owned (complete id w).
Proof.
  intros H. unfold complete, CameraMover.complete.
  destruct (nth_error (CameraMover.tweens w) id) as [x|]; [|exact H].
  destruct (Tween.status x); try exact H.
  assert (H1 : owned
    (fold_left (CameraMover.runCallback setFromEulerAngles cfg)
       (Tween.callbacks x)
       (CameraMover.withHeap
          (Tween.finish id
             (CameraMover.tweens (CameraMover.arrive (Tween.motion x) w)))
          (CameraMover.arrive (Tween.motion x) w)))).
  { apply callbacks_owned. unfold owned, CameraMover.withHeap.
    cbn [CameraMover.tweens CameraMover._tweens].
    apply TweenFacts.ownedBy_finish. exact (arrive_owned _ w H). }
  destruct (Tween.chained x) as [next|]; [|exact H1].
  unfold owned, CameraMover.withHeap.
  cbn [CameraMover.tweens CameraMover._tweens].
  apply TweenFacts.ownedBy_start, H1.
Qed.

Lemma step_owned w c : owned w -> owned (step w c).
Proof.
  intros H. destruct c; simpl.
  - unfold CameraMover._boundOnPath.
    destruct (CameraMover.autoStart cfg); [|exact H].
    now apply start_owned.
  - unfold CameraMover._boundOnWaypoints.
    destruct (CameraMover._lastPath w); [exact H|].
    destruct (negb _); [exact H|].
    destruct (CameraMover.autoStart cfg); [|exact H].
    now apply startFromWaypoints_owned.
  - now apply start_owned.
  - now apply startFromWaypoints_owned.
  - now apply stop_owned.
  - now apply complete_owned.
Qed.

Lemma run_owned cs : forall w, owned w -> owned (run w cs).
Proof.
  induction cs as [|c cs IH]; intros w H; [exact H|].
  unfold run, CameraMover.run in *. simpl. apply IH.
  now apply step_owned.
Qed.

Lemma initial_owned position rotation :
  owned (CameraMover.initial position rotation).
Proof. intros id x Hx. destruct id; discriminate. Qed.

End Facts.
End MoverFacts.

(** ** Stopping *)

Module StopFacts.

Lemma stop_keeps_cancelled ids : forall heap id x,
  nth_error heap id = Some x -> Tween.status x = Tween.Cancelled ->
  exists x',
    nth_error (fold_left (fun h i => Tween.stop i h) ids heap) id = Some x'
    /\ Tween.status x' = Tween.Cancelled.
Proof.
  induction ids as [|a ids IH]; intros heap id x Hx Hs; simpl.
  - exists x. auto.
  - unfold Tween.stop at 2.
    destruct (Nat.eqb a id) eqn:E.
    + eapply IH.
      * rewrite TweenFacts.nth_error_updateAt, E, Hx. reflexivity.
      * rewrite Hs. reflexivity.
    + eapply IH; [|exact Hs].
      now rewrite TweenFacts.nth_error_updateAt, E.
Qed.

(** [stop] cancels every task of [_tweens] that could still run. *)
Lemma stop_all_cancels ids : forall heap id x,
  In id ids -> nth_error heap id = Some x -> Tween.live x = true ->
  exists x',
    nth_error (fold_left (fun h i => Tween.stop i h) ids heap) id = Some x'
    /\ Tween.status x' = Tween.Cancelled.
Proof.
  induction ids as [|a ids IH]; intros heap id x Hin Hx Hl; [destruct Hin|].
  simpl. unfold Tween.stop at 2.
  destruct (Nat.eqb a id) eqn:E.
  - eapply stop_keeps_cancelled.
    + rewrite TweenFacts.nth_error_updateAt, E, Hx. reflexivity.
    + unfold Tween.live in Hl.
      destruct (Tween.status x); try discriminate; reflexivity.
  - apply Nat.eqb_neq in E. destruct Hin as [-> | Hin]; [congruence|].
    eapply IH; [exact Hin | | exact Hl].
    rewrite TweenFacts.nth_error_updateAt.
    apply Nat.eqb_neq in E. now rewrite E.
Qed.

Lemma filter_waypoints_stopped l (restore : bool) :
  filter isWaypointEvent
    (l ++ (if restore then [CameraMoverStopped] else [])) =
  filter isWaypointEvent l.
Proof.
  rewrite filter_app. destruct restore; simpl; now rewrite app_nil_r.
Qed.

End StopFacts.

(** C8.  Whatever has gone before (handlers and methods called, tasks
    completed, in any order), once [stop] returns: [_tweens] is empty and
    [_running] is false; every task that could still run, pending or
    active, is cancelled, and no task of the tween manager is left pending
    or active; so the end of any task's duration, any number of them,
    changes nothing, and the waypoint-reached notifications fired are
    those, and only those, fired before [stop]. *)
Theorem stop_cancels_the_chain (setFromEulerAngles : R -> R -> R -> Quat)
  (cfg : CameraMover.Config) (position : Vec3) (rotation : Quat)
  (history : list CameraMover.Command) (restore : bool) (later : list nat) :
  let w :=
    CameraMover.run setFromEulerAngles cfg
      (CameraMover.initial position rotation) history in
  let w' := CameraMover.stop restore w in
  let w'' :=
    CameraMover.run setFromEulerAngles cfg w'
      (map CameraMover.Complete later) in
  CameraMover._tweens w' = [] /\
  CameraMover._running w' = false /\
  (forall id x,
     nth_error (CameraMover.tweens w) id = Some x -> Tween.live x = true ->
     exists x',
       nth_error (CameraMover.tweens w') id = Some x' /\
       Tween.status x' = Tween.Cancelled) /\
  (forall id x,
     nth_error (CameraMover.tweens w') id = Some x ->
     Tween.status x = Tween.Cancelled \/ Tween.status x = Tween.Completed) /\
  w'' = w' /\
  filter isWaypointEvent (CameraMover.fired w'') =
  filter isWaypointEvent (CameraMover.fired w).
Proof.
  intros w w' w''.
  assert (Ho : owned w).
  { exact (MoverFacts.run_owned setFromEulerAngles cfg history _
             (MoverFacts.initial_owned position rotation)). }
  pose proof (MoverFacts.stop_quiet restore w Ho) as Hq. fold w' in Hq.
  assert (Hsame : w'' = w').
  { exact (MoverFacts.quiet_completes setFromEulerAngles cfg later w' Hq). }
  destruct (MoverFacts.stop_tweens restore w) as [Ht Hr].
  split; [exact Ht|]. split; [exact Hr|].
  split.
  { intros id x Hx Hl. unfold w'. rewrite MoverFacts.stop_heap.
    apply (StopFacts.stop_all_cancels _ _ id x); auto.
    exact (Ho id x Hx Hl). }
  split.
  { intros id x Hx. specialize (Hq id x Hx). unfold Tween.live in Hq.
    destruct (Tween.status x); try discriminate; auto. }
  split; [exact Hsame|].
  rewrite Hsame. unfold w'. rewrite MoverFacts.stop_fired.
  apply StopFacts.filter_waypoints_stopped.
Qed.

(** C8 in the linear scenario: the first hop has completed and the second
    is active when [stop] is called; [stop] leaves it cancelled. *)
Lemma stop_cancels_the_chain_witness :
  let history :=
    [CameraMover.StartFromWaypoints (Some Scenario.data);
     CameraMover.Complete 0] in
  let w :=
    CameraMover.run Scenario.sfe CameraMover.defaultConfig
      (CameraMover.initial Scenario.A identityQuat) history in
  option_map Tween.status (nth_error (CameraMover.tweens w) 1) =
    Some Tween.Active /\
  exists x',
    nth_error (CameraMover.tweens (CameraMover.stop true w)) 1 = Some x' /\
    Tween.status x' = Tween.Cancelled.
Proof.
  intros history w. split; [reflexivity|].
  eapply (proj1 (proj2 (proj2
            (stop_cancels_the_chain Scenario.sfe CameraMover.defaultConfig
               Scenario.A identityQuat history true [])))).
  - reflexivity.
  - reflexivity.
Defined.

(** ** Starting *)

Module StartFacts.
Section Facts.

Variable setFromEulerAngles : R -> R -> R -> Quat.
Variable cfg : CameraMover.Config.

(** A segment with fewer than two samples leaves the world and the
    carried orientation as they are. *)
Lemma segmentStep_unusable path acc segment :
  usable segment = false ->
  CameraMover.segmentStep setFromEulerAngles cfg path acc segment = acc.
Proof.
  destruct acc as [w rot]. unfold usable, CameraMover.segmentStep.
  destruct (CameraMover.samples segment) as [samples|]; [|reflexivity].
  destruct (List.length samples <? 2)%nat; [reflexivity | discriminate].
Qed.

Lemma segments_unusable path segs : forall acc,
  forallb (fun s => negb (usable s)) segs = true ->
  fold_left (CameraMover.segmentStep setFromEulerAngles cfg path) segs acc
  = acc.
Proof.
  induction segs as [|s segs IH]; intros acc H; [reflexivity|].
  simpl in *. apply andb_prop in H. destruct H as [Hs Hrest].
  rewrite segmentStep_unusable by (now apply negb_true_iff).
  now apply IH.
Qed.

(** [launch] with no task: the terminal notification and nothing else. *)
Lemma launch_after_stop w :
  let w' := CameraMover.launch
              (CameraMover.setRunning true (CameraMover.stop false w)) in
  CameraMover.fired w' = CameraMover.fired w ++ [CameraPathComplete] /\
  CameraMover._tweens w' = [] /\
  CameraMover._running w' = false /\
  created w w' = [] /\
  (owned w -> quiet w').
Proof.
  cbv zeta. unfold CameraMover.launch, CameraMover.stop.
  cbn [CameraMover._tweens CameraMover.setRunning].
  unfold CameraMover._finish, created.
  cbn [CameraMover.fired CameraMover.fire CameraMover.setRunning
       CameraMover._tweens CameraMover._running CameraMover.tweens].
  repeat split.
  - apply skipn_all2. rewrite TweenFacts.stop_all_length. lia.
  - intros Ho. exact (MoverFacts.stop_quiet false w Ho).
Qed.

End Facts.
End StartFacts.

(** C5 (as amended).  [start] with a non-empty list of segments none of
    which has two samples, and [startFromWaypoints] with a single waypoint:
    whatever was playing is cancelled, no task is created, [_tweens] stays
    empty, [_running] is false again, and the terminal
    [camera:path:complete] is the one notification fired.  With an absent
    or empty segment list, or no waypoint, they return at once and the
    world is as it was. *)
Theorem start_with_nothing_to_play (setFromEulerAngles : R -> R -> R -> Quat)
  (cfg : CameraMover.Config) (w : CameraMover.World) :
  let start := CameraMover.start setFromEulerAngles cfg in
  let startFromWaypoints :=
    CameraMover.startFromWaypoints setFromEulerAngles cfg in
  let finished w' :=
    CameraMover.fired w' = CameraMover.fired w ++ [CameraPathComplete] /\
    CameraMover._tweens w' = [] /\
    CameraMover._running w' = false /\
    created w w' = [] /\
    (owned w -> quiet w') in
  (forall p segs,
     CameraMover.segments p = Some segs -> segs <> [] ->
     forallb (fun s => negb (usable s)) segs = true ->
     finished (start (Some p) w)) /\
  (forall d p,
     CameraMover.wpPositions d = [p] ->
     finished (startFromWaypoints (Some d) w)) /\
  start None w = w /\
  (forall p,
     CameraMover.segments p = None \/ CameraMover.segments p = Some [] ->
     start (Some p) w = w) /\
  startFromWaypoints None w = w /\
  (forall d, CameraMover.wpPositions d = [] ->
     startFromWaypoints (Some d) w = w).
Proof.
  cbv zeta. split; [|split; [|split; [|split; [|split]]]].
  - intros p segs Hp Hne Hall. unfold CameraMover.start. rewrite Hp.
    destruct segs as [|s segs]; [congruence|].
    rewrite StartFacts.segments_unusable by exact Hall.
    cbn [fst]. apply StartFacts.launch_after_stop.
  - intros d p Hd. unfold CameraMover.startFromWaypoints. rewrite Hd.
    cbn [CameraMover.hops fst]. apply StartFacts.launch_after_stop.
  - reflexivity.
  - intros p [Hp | Hp]; unfold CameraMover.start; now rewrite Hp.
  - reflexivity.
  - intros d Hd. unfold CameraMover.startFromWaypoints. now rewrite Hd.
Qed.

(** C5 at a path with one segment of a single sample. *)
Lemma start_with_nothing_to_play_witness :
  let sfe (x y z : R) := identityQuat in
  let w := CameraMover.initial (mkVec3 0 0 0) identityQuat in
  let p :=
    CameraMover.mkPath
      (Some [CameraMover.mkPathSegment (Some [mkVec3 0 0 0]) None 0 None])
      None in
  CameraMover.fired
    (CameraMover.start sfe CameraMover.defaultConfig (Some p) w) =
  [CameraPathComplete].
Proof.
  intros sfe w p.
  exact (proj1 (proj1 (start_with_nothing_to_play sfe
                         CameraMover.defaultConfig w)
                  p _ eq_refl ltac:(discriminate) eq_refl)).
Defined.

(** C5 as first stated fails: [start] with an empty segment list, or with
    no path at all, fires nothing, the terminal notification included. *)
Lemma start_empty_segments_counterexample :
  let sfe (x y z : R) := identityQuat in
  let w := CameraMover.initial (mkVec3 0 0 0) identityQuat in
  CameraMover.fired
    (CameraMover.start sfe CameraMover.defaultConfig
       (Some (CameraMover.mkPath (Some []) None)) w) = [] /\
  CameraMover.fired
    (CameraMover.start sfe CameraMover.defaultConfig
       (Some (CameraMover.mkPath None None)) w) = [] /\
  CameraMover.fired
    (CameraMover.start sfe CameraMover.defaultConfig None w) = [].
Proof. repeat split. Qed.

(** ** Skipped segments *)

Module SkipFacts.
Section Facts.

Variable setFromEulerAngles : R -> R -> R -> Quat.
Variables durationPerUnit minDuration : R.
Variable waypointPositions : list Vec3.
Variable waypointRotations : list RotValue.

Let segmentStep :=
  CameraWaypointPath.segmentStep setFromEulerAngles durationPerUnit
    minDuration waypointPositions waypointRotations.

(** The skip branch of the monolithic [startPath]: no task, and the
    carry moves to the end waypoint's resolved values. *)
Lemma monolith_skip_advances c segment :
  (List.length
     (CameraWaypointPath._collectSegmentPoints waypointPositions
        (start segment) (end_ segment)
        (CameraWaypointPath.currentPos c)) < 2)%nat ->
  let c' := segmentStep c segment in
  CameraWaypointPath.tasks c' = CameraWaypointPath.tasks c /\
  CameraWaypointPath.currentPos c' =
    CameraWaypointPath._toVec3
      (CameraWaypointPath.positionAt waypointPositions (end_ segment))
      (CameraWaypointPath.currentPos c) /\
  CameraWaypointPath.currentRot c' =
    CameraWaypointPath._toQuat setFromEulerAngles
      (CameraWaypointPath.rotationAt waypointRotations (end_ segment))
      (CameraWaypointPath.currentRot c).
Proof.
  intros H c'. unfold c', segmentStep, CameraWaypointPath.segmentStep.
  apply Nat.ltb_lt in H. rewrite H. repeat split.
Qed.

(** That branch needs an empty index range: the entity's own position
    always opens the chain. *)
Lemma monolith_skip_only_empty_range c segment :
  (List.length
     (CameraWaypointPath._collectSegmentPoints waypointPositions
        (start segment) (end_ segment)
        (CameraWaypointPath.currentPos c)) < 2)%nat <->
  (end_ segment < start segment)%Z.
Proof.
  unfold CameraWaypointPath._collectSegmentPoints,
    CameraWaypointPath.indexRange.
  cbn [List.length]. rewrite !length_map, length_seq. lia.
Qed.

End Facts.
End SkipFacts.

(** C6.  [CameraMover.start] on a path of two segments, the first with a
    single sample and ending at waypoint 1, whose rotation is the Euler
    triple [e]; the second with two samples and ending at waypoint 2, which
    has no rotation.  One task is made, for the second segment; the
    orientation waypoint 1 resolves to is [setFromEulerAngles e], yet the
    task turns from the target's own orientation [q0] to [q0]: the skipped
    segment has not advanced the carry. *)
Theorem start_skip_keeps_old_carry (setFromEulerAngles : R -> R -> R -> Quat)
  (q0 : Quat) (e : Vec3) :
  let A := mkVec3 0 0 0 in
  let B := mkVec3 1 0 0 in
  let path :=
    CameraMover.mkPath
      (Some [CameraMover.mkPathSegment (Some [A]) None 0 (Some 1%Z);
             CameraMover.mkPathSegment (Some [A; B]) None 1 (Some 2%Z)])
      (Some [RAbsent; REuler e; RAbsent]) in
  let w :=
    CameraMover.start setFromEulerAngles CameraMover.defaultConfig
      (Some path) (CameraMover.initial A q0) in
  CameraMover._resolveRotation setFromEulerAngles CameraMover.defaultConfig
    path 1 q0 = setFromEulerAngles (vx e) (vy e) (vz e) /\
  map Tween.motion (CameraMover.tweens w) = [Tween.CurveMotion [A; B] q0 q0].
Proof. split; reflexivity. Qed.

(** ** Linear mode *)

Module LinearFacts.

Lemma shape_updateAt f heap : forall id,
  (forall x, shapeOf (f x) = shapeOf x) ->
  map shapeOf (Tween.updateAt id f heap) = map shapeOf heap.
Proof.
  induction heap as [|x heap IH]; intros [|id] Hf; simpl; auto.
  - now rewrite Hf.
  - now rewrite IH.
Qed.

Lemma shape_onComplete id cb heap :
  map shapeOf (Tween.onComplete id cb heap) = map shapeOf heap.
Proof. apply shape_updateAt. reflexivity. Qed.

Lemma shape_chain id next heap :
  map shapeOf (Tween.chain id next heap) = map shapeOf heap.
Proof. apply shape_updateAt. reflexivity. Qed.

Lemma shape_start id heap :
  map shapeOf (Tween.start id heap) = map shapeOf heap.
Proof.
  apply shape_updateAt. intros x. now destruct (Tween.status x).
Qed.

Lemma shape_stop id heap :
  map shapeOf (Tween.stop id heap) = map shapeOf heap.
Proof.
  apply shape_updateAt. intros x. now destruct (Tween.status x).
Qed.

Lemma shape_stop_all ids : forall heap,
  map shapeOf (fold_left (fun h id => Tween.stop id h) ids heap) =
  map shapeOf heap.
Proof.
  induction ids as [|id ids IH]; intros heap; simpl; [reflexivity|].
  now rewrite IH, shape_stop.
Qed.

Lemma shape_chainAll ids : forall heap,
  map shapeOf (CameraMover.chainAll ids heap) = map shapeOf heap.
Proof.
  induction ids as [|a rest IH]; intros heap; [reflexivity|].
  destruct rest as [|b rest]; [reflexivity|].
  change (CameraMover.chainAll (a :: b :: rest) heap) with
    (CameraMover.chainAll (b :: rest) (Tween.chain a b heap)).
  now rewrite IH, shape_chain.
Qed.

Lemma shape_launch w :
  map shapeOf (CameraMover.tweens (CameraMover.launch w)) =
  map shapeOf (CameraMover.tweens w).
Proof.
  unfold CameraMover.launch.
  destruct (CameraMover._tweens w) as [|first rest]; [reflexivity|].
  cbn [CameraMover.withHeap CameraMover.tweens].
  now rewrite shape_start, shape_onComplete, shape_chainAll.
Qed.

Section Facts.

Variable setFromEulerAngles : R -> R -> R -> Quat.
Variable cfg : CameraMover.Config.

Let hopOf :=
  hopShape (CameraMover.durationPerUnit cfg) (CameraMover.minDuration cfg).

Lemma shape_hops rotations positions : forall i acc,
  exists shapes,
    map shapeOf
      (CameraMover.tweens
         (fst (CameraMover.hops setFromEulerAngles cfg rotations i
                 positions acc))) =
    map shapeOf (CameraMover.tweens (fst acc)) ++ shapes /\
    Forall2 hopOf (waypointPairs positions) shapes.
Proof.
  induction positions as [|a rest IH]; intros i acc.
  - exists []. split; [now rewrite app_nil_r | constructor].
  - destruct rest as [|b rest].
    + exists []. split; [now rewrite app_nil_r | constructor].
    + change (CameraMover.hops setFromEulerAngles cfg rotations i
                (a :: b :: rest) acc)
        with (CameraMover.hops setFromEulerAngles cfg rotations (i + 1)
                (b :: rest)
                (CameraMover.hopStep setFromEulerAngles cfg rotations i
                   a b acc)).
      destruct (IH (i + 1)%Z
                  (CameraMover.hopStep setFromEulerAngles cfg rotations i
                     a b acc)) as [shapes [Hs Hf]].
      destruct acc as [w rot].
      unfold CameraMover.hopStep in Hs at 2.
      cbn [Tween.create fst CameraMover.push CameraMover.withHeap
           CameraMover.tweens] in Hs.
      rewrite shape_onComplete, map_app in Hs. cbn [map] in Hs.
      rewrite <- app_assoc in Hs. cbn [app] in Hs.
      eexists. split; [exact Hs|].
      change (waypointPairs (a :: b :: rest)) with
        ((a, b) :: waypointPairs (b :: rest)).
      constructor; [|exact Hf].
      unfold hopOf, hopShape, shapeOf. cbn. eauto.
Qed.

Lemma hopShape_isHop pairs : forall l,
  Forall2 hopOf pairs (map shapeOf l) ->
  Forall2 (fun ab x =>
             isHop (CameraMover.durationPerUnit cfg)
                   (CameraMover.minDuration cfg) (fst ab) (snd ab) x)
          pairs l /\
  Forall (fun x => isWaitb x = false) l.
Proof.
  induction pairs as [|ab pairs IH]; intros [|x l] H; inversion H; subst.
  - split; constructor.
  - destruct (IH l ltac:(assumption)) as [H1 H2].
    match goal with
    | Hh : hopOf ab (shapeOf x) |- _ =>
        destruct Hh as [r [r' Hh]]; unfold shapeOf in Hh;
        injection Hh as Hm Hd _
    end.
    split; constructor; trivial.
    + split; [eauto | exact Hd].
    + unfold isWaitb. now rewrite Hm.
Qed.

(** The tasks [startFromWaypoints] creates are the hops between
    consecutive waypoints, and nothing else. *)
Lemma startFromWaypoints_hops d w :
  let w' :=
    CameraMover.startFromWaypoints setFromEulerAngles cfg (Some d) w in
  Forall2 (fun ab x =>
             isHop (CameraMover.durationPerUnit cfg)
                   (CameraMover.minDuration cfg) (fst ab) (snd ab) x)
          (waypointPairs (CameraMover.wpPositions d)) (created w w') /\
  Forall (fun x => isWaitb x = false) (created w w').
Proof.
  cbv zeta. apply hopShape_isHop. unfold created.
  rewrite <- skipn_map.
  unfold CameraMover.startFromWaypoints.
  destruct (CameraMover.wpPositions d) as [|p ps] eqn:Ep.
  - rewrite skipn_all2 by (rewrite length_map; lia). constructor.
  - rewrite shape_launch.
    match goal with
    | |- context [CameraMover.hops _ _ ?r ?i ?ps ?acc] =>
        destruct (shape_hops r ps i acc) as [shapes [Hs Hf]]
    end.
    rewrite Hs. cbn [fst].
    unfold CameraMover.stop, CameraMover.setRunning.
    cbn [CameraMover.tweens].
    rewrite shape_stop_all.
    rewrite skipn_app, skipn_all2 by (rewrite length_map; lia).
    rewrite length_map, Nat.sub_diag. exact Hf.
Qed.

End Facts.

Section Monolith.

Variable setFromEulerAngles : R -> R -> R -> Quat.
Variables durationPerUnit minDuration : R.
Variable waypointRotations : list RotValue.
Variable waypointPauses : list R.

(** The monolithic linear [startPath]: hop, then wait where asked. *)
Lemma monolith_hops positions : forall i currentPos currentRot,
  hopsAndWaits durationPerUnit minDuration waypointPauses i currentPos
    positions
    (CameraWaypointPathLinear.hops setFromEulerAngles durationPerUnit
       minDuration waypointRotations waypointPauses i positions
       currentPos currentRot).
Proof.
  induction positions as [|target rest IH]; intros i currentPos currentRot;
    [reflexivity|].
  cbn [hopsAndWaits CameraWaypointPathLinear.hops].
  rewrite ParserFacts.or_num_0.
  eexists. eexists. split; [reflexivity|]. split.
  - split; [cbn; eauto | reflexivity].
  - destruct (Js.gtb (nth i waypointPauses 0) 0).
    + eexists. eexists. split; [reflexivity|].
      split; [repeat split | apply IH].
    + apply IH.
Qed.

End Monolith.

End LinearFacts.

(** C7 (as amended).  Linear mode.  [CameraMover.startFromWaypoints]
    creates one task per consecutive waypoint pair, a straight move of
    duration [max(distance * durationPerUnit, minDuration)], and no wait
    task: it does not read [pauses].  The monolithic linear [startPath]
    makes, waypoint by waypoint, one such move from the waypoint before
    (the first from where the entity stands) and after it, when and only
    when the waypoint's pause is positive, a wait with no motion, zero
    duration and a delay of exactly that pause. *)
Theorem linear_mode_tasks (setFromEulerAngles : R -> R -> R -> Quat) :
  (forall cfg d w,
     let w' :=
       CameraMover.startFromWaypoints setFromEulerAngles cfg (Some d) w in
     Forall2 (fun ab x =>
                isHop (CameraMover.durationPerUnit cfg)
                      (CameraMover.minDuration cfg) (fst ab) (snd ab) x)
             (waypointPairs (CameraMover.wpPositions d)) (created w w') /\
     Forall (fun x => isWaitb x = false) (created w w')) /\
  (forall durationPerUnit minDuration waypointPositions waypointRotations
          waypointPauses entityPos entityRot,
     hopsAndWaits durationPerUnit minDuration waypointPauses 0 entityPos
       waypointPositions
       (CameraWaypointPathLinear.startPathTweens setFromEulerAngles
          durationPerUnit minDuration waypointRotations waypointPauses
          waypointPositions entityPos entityRot)).
Proof.
  split.
  - intros cfg d w. apply LinearFacts.startFromWaypoints_hops.
  - intros. apply LinearFacts.monolith_hops.
Qed.

(** C7 as first stated fails: [startFromWaypoints] on the waypoints
    [(0,0,0), (10,0,0)] with a pause of two seconds at the second makes the
    one hop and no wait task. *)
Lemma startFromWaypoints_no_wait_counterexample :
  let sfe (x y z : R) := identityQuat in
  let A := mkVec3 0 0 0 in
  let B := mkVec3 10 0 0 in
  let d := CameraMover.mkWaypoints [A; B] None [0; 2] in
  let w :=
    CameraMover.startFromWaypoints sfe CameraMover.defaultConfig (Some d)
      (CameraMover.initial A identityQuat) in
  0 < nth 1 (CameraMover.wpPauses d) 0 /\
  map Tween.motion (CameraMover.tweens w) =
  [Tween.LinearMotion A B identityQuat identityQuat].
Proof. cbv zeta. split; [simpl; lra | reflexivity]. Qed.

(** ** The linear scenario *)

Module ScenarioFacts.
Import Scenario.

Lemma distance_AB : V3.distance A B = 10.
Proof.
  unfold V3.distance, Js.Math_sqrt.
  replace (V3.lengthSq (V3.sub A B)) with (10 * 10)
    by (unfold V3.lengthSq, V3.sub, A, B; cbn [vx vy vz]; ring).
  apply sqrt_square. lra.
Qed.

Lemma distance_BC : V3.distance B C = 10.
Proof.
  unfold V3.distance, Js.Math_sqrt.
  replace (V3.lengthSq (V3.sub B C)) with (10 * 10)
    by (unfold V3.lengthSq, V3.sub, B, C; cbn [vx vy vz]; ring).
  apply sqrt_square. lra.
Qed.

(** Two hops of duration [1.0] each. *)
Lemma two_hops_of_one_second :
  map Tween.duration
    (CameraMover.tweens
       (CameraMover.startFromWaypoints sfe CameraMover.defaultConfig
          (Some data) w0)) = [1; 1].
Proof.
  cbn. rewrite distance_AB, distance_BC. unfold Js.Math_max.
  rewrite !Rmax_left by lra. repeat f_equal; lra.
Qed.

(** The hops complete in turn: waypoint 1, waypoint 2, path complete. *)
Lemma notifications_in_order :
  CameraMover.fired
    (CameraMover.run sfe CameraMover.defaultConfig w0
       [CameraMover.StartFromWaypoints (Some data);
        CameraMover.Complete 0; CameraMover.Complete 1]) =
  [CameraWaypoint 1 B identityQuat; CameraWaypoint 2 C identityQuat;
   CameraPathComplete].
Proof. reflexivity. Qed.

(** A task cannot complete before the one it is chained to. *)
Lemma second_hop_waits_for_first :
  CameraMover.fired
    (CameraMover.run sfe CameraMover.defaultConfig w0
       [CameraMover.StartFromWaypoints (Some data);
        CameraMover.Complete 1]) = [].
Proof. reflexivity. Qed.

(** Stopped after the first hop: the second never reports. *)
Lemma stopped_after_first_hop :
  CameraMover.fired
    (CameraMover.run sfe CameraMover.defaultConfig w0
       [CameraMover.StartFromWaypoints (Some data);
        CameraMover.Complete 0; CameraMover.Stop true;
        CameraMover.Complete 1]) =
  [CameraWaypoint 1 B identityQuat; CameraMoverStopped].
Proof. reflexivity. Qed.

End ScenarioFacts.

(** ** The sampler on binary64 numbers *)

Module Binary64Facts.
Import PrimFloat.
#[local] Set Warnings "-inexact-float".
Local Open Scope float_scope.

(** The first sample of the chain [(0.1,0,0), (1.1,0,0), (3.1,0,0)] with
    the boundary point [(2.1,0,0)] before it, alpha [0]: not [0.1]. *)
Lemma first_sample_rounds :
  Binary64._catmullRom (Binary64.mkVec3 2.1 0 0) (Binary64.mkVec3 0.1 0 0)
    (Binary64.mkVec3 1.1 0 0) (Binary64.mkVec3 3.1 0 0) 0 0 =
  Some (Binary64.mkVec3 0.10000000000000005 0 0) /\
  (0.10000000000000005 =? 0.1) = false.
Proof. split; vm_compute; reflexivity. Qed.

(** The chains of five points of lengths [4] and [4.125]: the steps of
    their interior segments, 25 against 24. *)
Lemma longer_chain_fewer_steps :
  Binary64.stepsOfChain 24 6
    [Binary64.mkVec3 0 0 0; Binary64.mkVec3 1.125 0 0;
     Binary64.mkVec3 2.25 0 0; Binary64.mkVec3 3.375 0 0;
     Binary64.mkVec3 4 0 0] =
  [Some 7; Some 7; Some 7; Some 4] /\
  Binary64.stepsOfChain 24 6
    [Binary64.mkVec3 0 0 0; Binary64.mkVec3 0.875 0 0;
     Binary64.mkVec3 1.75 0 0; Binary64.mkVec3 2.75 0 0;
     Binary64.mkVec3 4.125 0 0] =
  [Some 5; Some 5; Some 6; Some 8].
Proof. split; vm_compute; reflexivity. Qed.

(** The chain [(0,0,0), (0.1875,0,0), (1,0,0)] and the same chain with
    every point multiplied by [1.7]: the first interior segment loses a
    step, its share of the budget rounding to [4.499999999999999]. *)
Lemma scaled_chain_fewer_steps :
  let chain :=
    [Binary64.mkVec3 0 0 0; Binary64.mkVec3 0.1875 0 0;
     Binary64.mkVec3 1 0 0] in
  Binary64.stepsOfChain 24 6 chain = [Some 5; Some 20] /\
  Binary64.stepsOfChain 24 6 (map (Binary64.scale 1.7) chain) =
  [Some 4; Some 20].
Proof. split; vm_compute; reflexivity. Qed.

End Binary64Facts.

(** * More of the scripts *)

(** ** The Segmenter's segments one by one *)

Module SegmentFacts.
Import WaypointPathBuilder.

Lemma segmentsOf_In positions indices s :
  In s (segmentsOf positions indices) ->
  In (start s) indices /\ In (end_ s) indices /\ (start s < end_ s)%Z /\
  prevPoint s =
    (if (0 <? start s)%Z then pointAt positions (start s - 1) else None) /\
  nextPoint s =
    (if (end_ s + 1 <? Z.of_nat (List.length positions))%Z
     then pointAt positions (end_ s + 1) else None).
Proof.
  induction indices as [|a l IH]; [intros []|].
  destruct l as [|b l]; [intros []|].
  change (segmentsOf positions (a :: b :: l)) with
    (if (b <=? a)%Z then segmentsOf positions (b :: l)
     else mkSegment a b
            (if (0 <? a)%Z then pointAt positions (a - 1) else None)
            (if (b + 1 <? Z.of_nat (List.length positions))%Z
             then pointAt positions (b + 1) else None)
            :: segmentsOf positions (b :: l)).
  destruct (b <=? a)%Z eqn:E.
  - intros H. destruct (IH H) as [H1 [H2 H3]].
    split; [now right|]. split; [now right | exact H3].
  - apply Z.leb_gt in E. intros [<- | H].
    + cbn [start end_ prevPoint nextPoint].
      split; [now left|]. split; [right; now left|]. auto.
    + destruct (IH H) as [H1 [H2 H3]].
      split; [now right|]. split; [now right | exact H3].
Qed.

Lemma pointAt_Some positions k :
  (0 <= k < Z.of_nat (List.length positions))%Z ->
  exists p, pointAt positions k = Some p.
Proof.
  intros H. unfold pointAt.
  destruct (nth_error positions (Z.to_nat k)) as [p|] eqn:E; [eauto|].
  apply nth_error_None in E. lia.
Qed.

Lemma insert_asc_length x l :
  List.length (Js.insert_asc x l) = S (List.length l).
Proof.
  induction l as [|y l IH]; simpl; [reflexivity|].
  destruct (x <=? y)%Z; simpl; auto.
Qed.

Lemma sort_asc_length l : List.length (Js.sort_asc l) = List.length l.
Proof.
  induction l as [|x l IH]; simpl; [reflexivity|].
  now rewrite insert_asc_length, IH.
Qed.

Lemma Set_has_app_other x y s :
  x <> y -> Js.Set_has x (s ++ [y]) = Js.Set_has x s.
Proof.
  intros H. unfold Js.Set_has. rewrite existsb_app. simpl.
  replace (x =? y)%Z with false by (symmetry; now apply Z.eqb_neq).
  now rewrite !orb_false_r.
Qed.

(** The set grows by the positive-pause indices it did not hold. *)
Lemma stops_fold_length pauses ns : forall init,
  NoDup ns ->
  List.length
    (fold_left
       (fun stops n =>
          if Js.gtb (pauseAt pauses n) 0
          then Js.Set_add (Z.of_nat n) stops else stops) ns init) =
  (List.length init +
   List.length
     (filter (fun n => Js.gtb (pauseAt pauses n) 0
                       && negb (Js.Set_has (Z.of_nat n) init)) ns))%nat.
Proof.
  induction ns as [|n ns IH]; intros init Hnd; simpl; [lia|].
  inversion Hnd as [|? ? Hn Hnd']; subst.
  destruct (Js.gtb (pauseAt pauses n) 0) eqn:Eg; cbn [andb].
  - unfold Js.Set_add. destruct (Js.Set_has (Z.of_nat n) init) eqn:Eh.
    + cbn [negb]. now apply IH.
    + cbn [negb List.length]. rewrite IH by assumption.
      rewrite length_app. cbn [List.length].
      rewrite (filter_ext_in
                 (fun m => Js.gtb (pauseAt pauses m) 0
                           && negb (Js.Set_has (Z.of_nat m)
                                      (init ++ [Z.of_nat n])))
                 (fun m => Js.gtb (pauseAt pauses m) 0
                           && negb (Js.Set_has (Z.of_nat m) init))).
      * lia.
      * intros m Hm. rewrite Set_has_app_other; [reflexivity|].
        intros Heq. apply Nat2Z.inj in Heq. subst. contradiction.
  - now apply IH.
Qed.

(** One segment more than there are interior indices with a positive
    pause. *)
Lemma buildSegments_length positions pauses :
  (2 <= List.length positions)%nat ->
  List.length (_buildSegments positions pauses) =
  S (List.length (interiorPauses (List.length positions) pauses)).
Proof.
  intros H.
  pose proof (SegmenterFacts.stopIndices_sorted (List.length positions)
                pauses) as Hsorted.
  unfold _buildSegments.
  rewrite <- (length_map bounds),
    (SegmenterFacts.segmentsOf_bounds _ _ Hsorted),
    SegmenterFacts.pairs_length.
  unfold stopIndices.
  rewrite sort_asc_length.
  unfold stopSet.
  rewrite stops_fold_length by apply seq_NoDup.
  assert (E1 : Js.Set_add (Z.of_nat (List.length positions) - 1)
                 (Js.Set_add 0 []) =
               [0%Z; (Z.of_nat (List.length positions) - 1)%Z]).
  { unfold Js.Set_add. simpl.
    destruct (Z.of_nat (List.length positions) - 1 =? 0)%Z eqn:E;
      [apply Z.eqb_eq in E; lia | reflexivity]. }
  rewrite E1. unfold interiorPauses. simpl List.length. lia.
Qed.

End SegmentFacts.

(** X1.  Each segment the Segmenter emits for a non-empty waypoint list
    lies inside the list, and carries as [prevPoint] the waypoint just
    before its start, present exactly when the start is not the first
    index, and as [nextPoint] the waypoint just after its end, present
    exactly when the end is not the last index. *)
Theorem segment_boundary_points (positions : list Vec3) (pauses : list R)
  (s : Segment) :
  positions <> [] ->
  In s (WaypointPathBuilder._buildSegments positions pauses) ->
  let L := Z.of_nat (List.length positions) in
  (0 <= start s < end_ s)%Z /\ (end_ s <= L - 1)%Z /\
  prevPoint s =
    (if (start s =? 0)%Z then None
     else nth_error positions (Z.to_nat (start s - 1))) /\
  nextPoint s =
    (if (end_ s =? L - 1)%Z then None
     else nth_error positions (Z.to_nat (end_ s + 1))) /\
  (start s <> 0%Z -> exists p, prevPoint s = Some p) /\
  (end_ s <> (L - 1)%Z -> exists p, nextPoint s = Some p).
Proof.
  intros Hne Hin L.
  assert (HL : (1 <= L)%Z).
  { unfold L. destruct positions; [congruence | simpl List.length; lia]. }
  destruct (SegmentFacts.segmentsOf_In _ _ _ Hin) as [Hs [He [Hlt [Hp Hn]]]].
  apply SegmenterFacts.stopIndices_In in Hs, He. fold L in Hs, He.
  assert (Hs' : (0 <= start s <= L - 1)%Z) by lia.
  assert (He' : (0 <= end_ s <= L - 1)%Z) by lia.
  split; [lia|]. split; [lia|].
  fold L in Hn.
  assert (Hp' : prevPoint s =
                (if (start s =? 0)%Z then None
                 else nth_error positions (Z.to_nat (start s - 1)))).
  { rewrite Hp. destruct (start s =? 0)%Z eqn:E.
    - apply Z.eqb_eq in E. rewrite E. reflexivity.
    - apply Z.eqb_neq in E.
      replace (0 <? start s)%Z with true
        by (symmetry; apply Z.ltb_lt; lia).
      reflexivity. }
  assert (Hn' : nextPoint s =
                (if (end_ s =? L - 1)%Z then None
                 else nth_error positions (Z.to_nat (end_ s + 1)))).
  { rewrite Hn. destruct (end_ s =? L - 1)%Z eqn:E.
    - apply Z.eqb_eq in E.
      replace (end_ s + 1 <? L)%Z with false
        by (symmetry; apply Z.ltb_ge; lia).
      reflexivity.
    - apply Z.eqb_neq in E.
      replace (end_ s + 1 <? L)%Z with true
        by (symmetry; apply Z.ltb_lt; lia).
      reflexivity. }
  split; [exact Hp'|]. split; [exact Hn'|]. split.
  - intros H0. rewrite Hp'.
    replace (start s =? 0)%Z with false by (symmetry; now apply Z.eqb_neq).
    apply (SegmentFacts.pointAt_Some positions (start s - 1)). lia.
  - intros H0. rewrite Hn'.
    replace (end_ s =? L - 1)%Z with false
      by (symmetry; now apply Z.eqb_neq).
    apply (SegmentFacts.pointAt_Some positions (end_ s + 1)). fold L. lia.
Qed.

(** X1 at three waypoints with a pause at the middle one: the second
    segment starts at waypoint 1 and has waypoint 0 before it. *)
Lemma segment_boundary_points_witness :
  let positions := [mkVec3 0 0 0; mkVec3 10 0 0; mkVec3 10 0 10] in
  let s := mkSegment 1 2 (Some (mkVec3 0 0 0)) None in
  In s (WaypointPathBuilder._buildSegments positions [0; 2; 0]) /\
  exists p, prevPoint s = Some p.
Proof.
  intros positions s.
  assert (Hin : In s (WaypointPathBuilder._buildSegments positions [0; 2; 0])).
  { unfold WaypointPathBuilder._buildSegments,
      WaypointPathBuilder.stopIndices, WaypointPathBuilder.stopSet.
    assert (G0 : Js.gtb 0 0 = false) by (apply JsFacts.gtb_false; lra).
    assert (G2 : Js.gtb 2 0 = true) by (apply JsFacts.gtb_true; lra).
    cbn. rewrite !G0, G2. cbn. right. now left. }
  split; [exact Hin|].
  apply (proj1 (proj2 (proj2 (proj2 (proj2
           (segment_boundary_points positions [0; 2; 0] s
              ltac:(discriminate) Hin)))))).
  cbn. lia.
Defined.

(** X2.  For at least two waypoints the Segmenter emits one segment more
    than there are interior indices with a positive pause; for a single
    waypoint it emits none. *)
Theorem segment_count (positions : list Vec3) (pauses : list R) :
  ((2 <= List.length positions)%nat ->
   List.length (WaypointPathBuilder._buildSegments positions pauses) =
   S (List.length (interiorPauses (List.length positions) pauses))) /\
  (List.length positions = 1%nat ->
   WaypointPathBuilder._buildSegments positions pauses = []).
Proof.
  split.
  - apply SegmentFacts.buildSegments_length.
  - intros H. destruct positions as [|p [|q ps]]; try discriminate.
    unfold WaypointPathBuilder._buildSegments,
      WaypointPathBuilder.stopIndices, WaypointPathBuilder.stopSet.
    cbn [List.length seq fold_left].
    destruct (Js.gtb _ _); reflexivity.
Qed.

(** X2 at three waypoints with a pause at the middle one: two segments. *)
Lemma segment_count_witness :
  let positions := [mkVec3 0 0 0; mkVec3 10 0 0; mkVec3 10 0 10] in
  (2 <= List.length positions)%nat /\
  List.length (WaypointPathBuilder._buildSegments positions [0; 2; 0]) =
  S (List.length (interiorPauses 3 [0; 2; 0])).
Proof.
  intros positions. split; [simpl; lia|].
  exact (proj1 (segment_count positions [0; 2; 0]) ltac:(simpl; lia)).
Defined.

(** ** More of the Spline Sampler *)

(** X5.  A chain of [n >= 2] points is sampled with at least four samples
    for each of its [n - 1] interior segments, and the closing point:
    at least [4 (n - 1) + 1] samples, whatever the sample budget is. *)
Theorem sampleCurve_four_per_segment (points : list Vec3)
  (prevPoint nextPoint : option Vec3) (sampleCount alpha : R) :
  (2 <= List.length points)%nat ->
  (4 * (List.length points - 1) + 1 <=
   List.length
     (WaypointPathBuilder._sampleCurve points prevPoint nextPoint
        sampleCount alpha))%nat.
Proof.
  intros H.
  pose proof (CountFacts.sampleCurve_length_min points prevPoint nextPoint
                sampleCount alpha H). lia.
Qed.

(** X5 at a three-point chain with no budget at all: nine samples or
    more. *)
Lemma sampleCurve_four_per_segment_witness :
  let points := [mkVec3 0 0 0; mkVec3 1 0 0; mkVec3 1 0 2] in
  (2 <= List.length points)%nat /\
  (9 <= List.length
          (WaypointPathBuilder._sampleCurve points None None 0 (7 / 10)))%nat.
Proof.
  intros points. split; [simpl; lia|].
  exact (sampleCurve_four_per_segment points None None 0 (7 / 10)
           ltac:(simpl; lia)).
Defined.

(** ** [buildPath] *)

Module BuildFacts.
Import WaypointPathBuilder.

Lemma segment_in_range positions pauses s :
  positions <> [] ->
  In s (_buildSegments positions pauses) ->
  (0 <= start s < end_ s)%Z /\
  (end_ s <= Z.of_nat (List.length positions) - 1)%Z.
Proof.
  intros Hne Hin.
  assert (HL : (1 <= Z.of_nat (List.length positions))%Z)
    by (destruct positions; [congruence | simpl List.length; lia]).
  destruct (SegmentFacts.segmentsOf_In _ _ _ Hin) as [Hs [He [Hlt _]]].
  apply SegmenterFacts.stopIndices_In in Hs, He. lia.
Qed.

Lemma segmentPoints_length positions s :
  (0 <= start s <= end_ s)%Z ->
  (end_ s <= Z.of_nat (List.length positions) - 1)%Z ->
  List.length (segmentPoints positions s) =
  Z.to_nat (end_ s - start s + 1).
Proof.
  intros H1 H2. unfold segmentPoints.
  rewrite length_firstn, length_skipn. lia.
Qed.

Lemma hd_error_nth_error {A} (l : list A) : hd_error l = nth_error l 0.
Proof. now destruct l. Qed.

Lemma segmentPoints_last positions s :
  (0 <= start s <= end_ s)%Z ->
  (end_ s <= Z.of_nat (List.length positions) - 1)%Z ->
  nth_error positions (Z.to_nat (end_ s)) =
  Some (last (segmentPoints positions s) (mkVec3 0 0 0)).
Proof.
  intros H1 H2.
  rewrite <- SamplerFacts.nth_last.
  rewrite (segmentPoints_length positions s H1 H2).
  rewrite <- (nth_error_nth' (segmentPoints positions s) (mkVec3 0 0 0))
    by (rewrite (segmentPoints_length positions s H1 H2); lia).
  unfold segmentPoints.
  rewrite nth_error_firstn, nth_error_skipn.
  replace (Z.to_nat (end_ s - start s + 1) - 1
           <? Z.to_nat (end_ s - start s + 1))%nat with true
    by (symmetry; apply Nat.ltb_lt; lia).
  f_equal. lia.
Qed.

(** A segment with both ends inside the list is never skipped. *)
Lemma buildSegment_kept cfg positions s :
  (0 <= start s < end_ s)%Z ->
  (end_ s <= Z.of_nat (List.length positions) - 1)%Z ->
  buildSegment cfg positions s =
  [mkBuiltSegment (start s) (end_ s)
     (segmentCurve cfg (segmentPoints positions s) (prevPoint s)
        (nextPoint s))
     (_chainLength (segmentPoints positions s))].
Proof.
  intros H1 H2. unfold buildSegment.
  rewrite (segmentPoints_length positions s) by lia.
  replace (Z.to_nat (end_ s - start s + 1) <? 2)%nat with false
    by (symmetry; apply Nat.ltb_ge; lia).
  reflexivity.
Qed.

Lemma flat_map_singletons {A B} (f : A -> list B) (g : A -> B) l :
  (forall x, In x l -> f x = [g x]) -> flat_map f l = map g l.
Proof.
  induction l as [|a l IH]; intros H; [reflexivity|].
  cbn [flat_map map]. rewrite (H a (or_introl eq_refl)).
  rewrite IH by (intros x Hx; apply H; now right). reflexivity.
Qed.

Lemma buildPath_map cfg positions pauses :
  positions <> [] ->
  buildPath cfg positions pauses =
  Some (map (fun s =>
               mkBuiltSegment (start s) (end_ s)
                 (segmentCurve cfg (segmentPoints positions s) (prevPoint s)
                    (nextPoint s))
                 (_chainLength (segmentPoints positions s)))
            (_buildSegments positions pauses)).
Proof.
  intros Hne. unfold buildPath.
  destruct positions as [|p ps] eqn:E; [congruence|]. rewrite <- E in *.
  f_equal. apply flat_map_singletons. intros s Hs.
  destruct (segment_in_range positions pauses s Hne Hs) as [H1 H2].
  now apply buildSegment_kept.
Qed.

Lemma chainLength_nonneg points : 0 <= _chainLength points.
Proof.
  rewrite CountFacts.chainLength_Rsum.
  apply CountFacts.Rsum_nonneg, CountFacts.segmentLengths_nonneg.
Qed.

End BuildFacts.

(** X7.  For a non-empty waypoint list [buildPath] answers with one built
    segment for each segment of the Segmenter, in the same order and with
    the same start and end indices: none is skipped.  The distance of each
    is not negative. *)
Theorem buildPath_keeps_every_segment (cfg : WaypointPathBuilder.Config)
  (positions : list Vec3) (pauses : list R) :
  positions <> [] ->
  exists built,
    WaypointPathBuilder.buildPath cfg positions pauses = Some built /\
    map (fun b => (WaypointPathBuilder.startIndex b,
                   WaypointPathBuilder.endIndex b)) built =
    map bounds (WaypointPathBuilder._buildSegments positions pauses) /\
    (forall b, In b built -> 0 <= WaypointPathBuilder.distance b).
Proof.
  intros Hne. eexists. split; [apply BuildFacts.buildPath_map, Hne|].
  split.
  - rewrite map_map. reflexivity.
  - intros b Hb. apply in_map_iff in Hb. destruct Hb as [s [<- _]].
    apply BuildFacts.chainLength_nonneg.
Qed.

(** X7 at three waypoints with a pause at the middle one. *)
Lemma buildPath_keeps_every_segment_witness :
  let positions := [mkVec3 0 0 0; mkVec3 10 0 0; mkVec3 10 0 10] in
  positions <> [] /\
  exists built,
    WaypointPathBuilder.buildPath WaypointPathBuilder.defaultConfig
      positions [0; 2; 0] = Some built /\
    map (fun b => (WaypointPathBuilder.startIndex b,
                   WaypointPathBuilder.endIndex b)) built =
    map bounds (WaypointPathBuilder._buildSegments positions [0; 2; 0]).
Proof.
  intros positions.
  assert (Hne : positions <> []) by discriminate.
  split; [exact Hne|].
  destruct (buildPath_keeps_every_segment WaypointPathBuilder.defaultConfig
              positions [0; 2; 0] Hne) as [built [H1 [H2 _]]].
  exists built. split; assumption.
Defined.

(** X8.  Every built segment of [buildPath] has its indices inside the
    waypoint list and carries samples that close with the waypoint at its
    [endIndex] itself, at least four of them for each waypoint-to-waypoint
    step and the closing one. *)
Theorem built_segment_samples (cfg : WaypointPathBuilder.Config)
  (positions : list Vec3) (pauses : list R)
  (built : list WaypointPathBuilder.BuiltSegment)
  (b : WaypointPathBuilder.BuiltSegment) :
  WaypointPathBuilder.buildPath cfg positions pauses = Some built ->
  In b built ->
  let first := WaypointPathBuilder.startIndex b in
  let last_ := WaypointPathBuilder.endIndex b in
  (0 <= first < last_)%Z /\
  (last_ < Z.of_nat (List.length positions))%Z /\
  nth_error positions (Z.to_nat last_) =
    Some (last (WaypointPathBuilder.samples b) (mkVec3 0 0 0)) /\
  (4 * (last_ - first) + 1 <=
   Z.of_nat (List.length (WaypointPathBuilder.samples b)))%Z.
Proof.
  intros Hb Hin first last_.
  assert (Hne : positions <> []) by (intros ->; discriminate).
  rewrite (BuildFacts.buildPath_map cfg positions pauses Hne) in Hb.
  injection Hb as <-. apply in_map_iff in Hin. destruct Hin as [s [<- Hs]].
  subst first last_.
  cbn [WaypointPathBuilder.startIndex WaypointPathBuilder.endIndex
       WaypointPathBuilder.samples].
  destruct (BuildFacts.segment_in_range positions pauses s Hne Hs)
    as [H1 H2].
  pose proof (BuildFacts.segmentPoints_length positions s ltac:(lia) H2)
    as Hlen.
  pose proof (BuildFacts.segmentPoints_last positions s ltac:(lia) H2)
    as Hlast.
  set (points := WaypointPathBuilder.segmentPoints positions s) in *.
  assert (H2p : (2 <= List.length points)%nat) by lia.
  unfold WaypointPathBuilder.segmentCurve.
  set (sampleCount := WaypointPathBuilder.sampleBudget cfg _).
  split; [lia|]. split; [lia|]. split.
  - rewrite Hlast. f_equal.
    rewrite (SamplerFacts.sampleCurve_long points _ _ _ _ H2p).
    now rewrite last_last.
  - pose proof (CountFacts.sampleCurve_length_min points (prevPoint s)
                  (nextPoint s) sampleCount
                  (WaypointPathBuilder.catmullAlpha cfg) H2p). lia.
Qed.

(** X8 at three waypoints with a pause at the middle one, for the second
    built segment. *)
Lemma built_segment_samples_witness :
  let positions := [mkVec3 0 0 0; mkVec3 10 0 0; mkVec3 10 0 10] in
  let cfg := WaypointPathBuilder.defaultConfig in
  exists built b,
    WaypointPathBuilder.buildPath cfg positions [0; 2; 0] = Some built /\
    In b built /\
    last (WaypointPathBuilder.samples b) (mkVec3 0 0 0) = mkVec3 10 0 10.
Proof.
  intros positions cfg.
  assert (G0 : Js.gtb 0 0 = false) by (apply JsFacts.gtb_false; lra).
  assert (G2 : Js.gtb 2 0 = true) by (apply JsFacts.gtb_true; lra).
  assert (Hsegs : WaypointPathBuilder._buildSegments positions [0; 2; 0] =
                  [mkSegment 0 1 None (Some (mkVec3 10 0 10));
                   mkSegment 1 2 (Some (mkVec3 0 0 0)) None]).
  { unfold WaypointPathBuilder._buildSegments,
      WaypointPathBuilder.stopIndices, WaypointPathBuilder.stopSet.
    cbn. rewrite !G0, G2. reflexivity. }
  pose proof (BuildFacts.buildPath_map cfg positions [0; 2; 0]
                ltac:(discriminate)) as Hb.
  rewrite Hsegs in Hb. cbn [map] in Hb.
  match type of Hb with
  | _ = Some [?b1; ?b2] =>
      assert (Hin : In b2 [b1; b2]) by (right; left; reflexivity);
      exists [b1; b2], b2
  end.
  split; [exact Hb|]. split; [exact Hin|].
  assert (E : forall u v : Vec3, Some u = Some v -> v = u)
    by (intros u v [= ->]; reflexivity).
  apply E.
  exact (proj1 (proj2 (proj2
           (built_segment_samples cfg positions [0; 2; 0] _ _ Hb Hin)))).
Defined.

(** ** More of the parsers *)

Module ArrayFacts.
Import WaypointFetcher.

Lemma dropSpaces_blank cs :
  forallb Text.isSpace cs = true -> Text.dropSpaces cs = [].
Proof.
  induction cs as [|c cs IH]; [reflexivity|].
  cbn [forallb Text.dropSpaces]. intros H.
  apply andb_true_iff in H. destruct H as [Hc Hcs].
  rewrite Hc. now apply IH.
Qed.

Lemma trim_blank cs : forallb Text.isSpace cs = true -> Text.trim cs = [].
Proof.
  intros H. unfold Text.trim. now rewrite (dropSpaces_blank cs H).
Qed.

Lemma forallb_rev {A} (f : A -> bool) l :
  forallb f l = true -> forallb f (rev l) = true.
Proof.
  rewrite !forallb_forall. intros H x Hx. apply H. now apply in_rev.
Qed.

Lemma dropCR_blank cur :
  forallb Text.isSpace cur = true ->
  forallb Text.isSpace (Text.dropCR cur) = true.
Proof.
  destruct cur as [|c rest]; [reflexivity|].
  cbn [Text.dropCR forallb]. intros H.
  destruct (Ascii.eqb c Text.CR); [|exact H].
  apply andb_true_iff in H. tauto.
Qed.

(** A text of blank characters splits into blank lines. *)
Lemma splitLines_blank cs : forall cur,
  forallb Text.isSpace cs = true -> forallb Text.isSpace cur = true ->
  forallb (forallb Text.isSpace) (Text.splitLines cs cur) = true.
Proof.
  induction cs as [|c cs IH]; intros cur Hcs Hcur.
  - cbn [Text.splitLines forallb]. now rewrite forallb_rev.
  - cbn [forallb] in Hcs. apply andb_true_iff in Hcs.
    destruct Hcs as [Hc Hcs]. cbn [Text.splitLines].
    destruct (Ascii.eqb c Text.LF).
    + cbn [forallb]. rewrite forallb_rev by now apply dropCR_blank.
      now rewrite IH.
    + apply IH; [exact Hcs|]. cbn [forallb]. now rewrite Hc, Hcur.
Qed.

Lemma csvLines_blank text :
  forallb Text.isSpace (list_ascii_of_string text) = true ->
  csvLines text = [].
Proof.
  intros H. unfold csvLines.
  pose proof (splitLines_blank (list_ascii_of_string text) [] H eq_refl)
    as Hl.
  induction (Text.splitLines (list_ascii_of_string text) []) as [|l ls IH];
    [reflexivity|].
  cbn [forallb] in Hl. apply andb_true_iff in Hl. destruct Hl as [H1 H2].
  cbn [map filter]. rewrite (trim_blank l H1). cbn [Text.nonEmpty].
  now apply IH.
Qed.

(** A CSV line adds at most one entry. *)
Lemma csvLines_count Number d lines : forall acc,
  (List.length (snd (fold_left (csvLine Number d) lines acc)) <=
   List.length (snd acc) + List.length lines)%nat.
Proof.
  induction lines as [|line lines IH]; intros acc; cbn [fold_left];
    [simpl; lia|].
  specialize (IH (csvLine Number d acc line)).
  assert (H : (List.length (snd (csvLine Number d acc line)) <=
               S (List.length (snd acc)))%nat).
  { destruct acc as [[ps rs] ws]. unfold csvLine.
    destruct (List.length _ <? 6)%nat; [simpl; lia|].
    destruct (existsb _ _); [simpl; lia|].
    cbn [snd]. rewrite length_app. simpl. lia. }
  cbn [List.length]. lia.
Qed.

(** A JSON row adds a pause exactly when it is truthy. *)
Lemma jsonRows_count Number rows : forall acc,
  List.length (snd (fold_left (jsonRow Number) rows acc)) =
  (List.length (snd acc) + List.length (filter truthy rows))%nat.
Proof.
  induction rows as [|row rows IH]; intros acc; cbn [fold_left filter];
    [simpl; lia|].
  rewrite IH. destruct acc as [[ps rs] ws]. unfold jsonRow.
  destruct (truthy row); cbn [negb]; [|simpl; lia].
  cbn [snd List.length]. rewrite length_app. simpl. lia.
Qed.

Lemma parseCsv_source Number delimiter text payload :
  _parseCsv Number delimiter text = Some payload ->
  source payload = "csv"%string /\
  (List.length (pauses payload) <= List.length (csvLines text))%nat.
Proof.
  unfold _parseCsv. destruct (csvLines text) as [|l ls]; [discriminate|].
  pose proof (csvLines_count Number (list_ascii_of_string delimiter)
                (l :: ls) ([], [], [])) as H.
  destruct (fold_left _ (l :: ls) _) as [[ps rs] ws].
  intros E. injection E as <-. split; [reflexivity | exact H].
Qed.

Lemma parseJson_array Number rows :
  exists payload,
    _parseJson Number (JArr rows) = Some payload /\
    source payload = "json"%string /\
    List.length (pauses payload) = List.length (filter truthy rows).
Proof.
  unfold _parseJson.
  pose proof (jsonRows_count Number rows ([], [], [])) as H.
  destruct (fold_left _ rows _) as [[ps rs] ws].
  eexists. split; [reflexivity|]. split; [reflexivity | exact H].
Qed.

Lemma parseJson_source Number json payload :
  _parseJson Number json = Some payload -> source payload = "json"%string.
Proof.
  destruct json; try discriminate.
  destruct (parseJson_array Number items) as [p [Hp [Hs _]]].
  rewrite Hp. now intros [= <-].
Qed.

End ArrayFacts.

(** X9.  [_parseCsv] answers null for a text of blank characters only;
    when it answers with a payload the three arrays have one length, no
    greater than the number of non-blank lines, and the source is
    ["csv"]. *)
Theorem parseCsv_arrays_aligned (Number : JsValue -> option R)
  (csvDelimiter text : string) :
  (forallb Text.isSpace (list_ascii_of_string text) = true ->
   WaypointFetcher._parseCsv Number csvDelimiter text = None) /\
  (forall payload,
     WaypointFetcher._parseCsv Number csvDelimiter text = Some payload ->
     List.length (positions payload) = List.length (pauses payload) /\
     List.length (rotations payload) = List.length (pauses payload) /\
     (List.length (pauses payload) <=
      List.length (WaypointFetcher.csvLines text))%nat /\
     source payload = "csv"%string).
Proof.
  split.
  - intros H. unfold WaypointFetcher._parseCsv.
    now rewrite (ArrayFacts.csvLines_blank text H).
  - intros payload H.
    destruct (ParserFacts.parseCsv_aligned _ _ _ _ H) as [H1 H2].
    destruct (ArrayFacts.parseCsv_source _ _ _ _ H) as [H3 H4].
    auto.
Qed.

(** X9 at the one-row text ["1,2,3,0,0,0,0.5"]. *)
Lemma parseCsv_arrays_aligned_witness :
  let payload := mkPayload [mkVec3 1 2 3] [mkVec3 0 0 0] [1 / 2] "csv" in
  WaypointFetcher._parseCsv Scenario.fieldValue "," "1,2,3,0,0,0,0.5" =
    Some payload /\
  List.length (positions payload) = List.length (pauses payload).
Proof.
  intros payload. split; [exact ParserFacts.csv_row_scenario|].
  exact (proj1 (proj2 (parseCsv_arrays_aligned Scenario.fieldValue ","
                         "1,2,3,0,0,0,0.5")
                  payload ParserFacts.csv_row_scenario)).
Defined.

(** X10.  [_parseJson] answers null for anything but an array.  For an
    array in which the values a row is read a vector from have numbers
    under the [x], [y] and [z] they have, it answers with source ["json"]
    and one pause for each truthy row, a row without a position or a
    rotation included; so [positions] and [rotations] are never longer
    than [pauses]. *)
Theorem parseJson_arrays (Number : JsValue -> option R) (json : JsValue) :
  (forall rows, json = JArr rows ->
     (forall row value,
        In row rows -> In value (readAsVector row) ->
        numericFields value) ->
     exists payload,
       WaypointFetcher._parseJson Number json = Some payload /\
       source payload = "json"%string /\
       List.length (pauses payload) =
         List.length (filter WaypointFetcher.truthy rows) /\
       (List.length (positions payload) <=
        List.length (pauses payload))%nat /\
       (List.length (rotations payload) <=
        List.length (pauses payload))%nat) /\
  ((forall rows, json <> JArr rows) ->
   WaypointFetcher._parseJson Number json = None).
Proof.
  split.
  - intros rows -> _.
    destruct (ArrayFacts.parseJson_array Number rows) as [p [Hp [Hs Hn]]].
    destruct (ParserFacts.parseJson_bounded _ _ _ Hp) as [H1 H2].
    exists p. auto.
  - intros H. destruct json; try reflexivity. now elim (H items).
Qed.

(** X10 at an array of a null, a row with a position and an empty row. *)
Lemma parseJson_arrays_witness :
  let rows :=
    [JNull; JObj [("position"%string, JArr [JNum 1; JNum 2; JNum 3])];
     JObj []] in
  exists payload,
    WaypointFetcher._parseJson WaypointFetcher.NumberOfValue (JArr rows) =
      Some payload /\
    List.length (pauses payload) = 2%nat.
Proof.
  intros rows.
  assert (Hnum : forall row value,
            In row rows -> In value (readAsVector row) ->
            numericFields value).
  { intros row value Hrow Hvalue k Hk. unfold rows in Hrow.
    repeat (destruct Hrow as [<- | Hrow];
            [repeat (destruct Hvalue as [<- | Hvalue]; [exact I|]);
             destruct Hvalue|]).
    destruct Hrow. }
  destruct (proj1 (parseJson_arrays WaypointFetcher.NumberOfValue
                     (JArr rows)) rows eq_refl Hnum)
    as [payload [H1 [_ [H2 _]]]].
  exists payload. split; [exact H1 | exact H2].
Defined.

(** X11.  [_toVec3], with a [Number()] that reads a number as itself and
    [undefined] as NaN: an array [[x, y, z]] and an object with the fields
    [x], [y], [z] give the same vector; a coordinate missing from the
    array is [0]; a value that is not an array and lacks one of the three
    fields gives the origin. *)
Theorem toVec3_forms (Number : JsValue -> option R) :
  (forall r, Number (JNum r) = Some r) ->
  Number JUndefined = None ->
  (forall x y z,
     WaypointFetcher._toVec3 Number (JArr [JNum x; JNum y; JNum z]) =
     mkVec3 x y z) /\
  (forall fields x y z,
     WaypointFetcher.lookup "x" fields = JNum x ->
     WaypointFetcher.lookup "y" fields = JNum y ->
     WaypointFetcher.lookup "z" fields = JNum z ->
     WaypointFetcher._toVec3 Number (JObj fields) = mkVec3 x y z) /\
  (forall x y,
     WaypointFetcher._toVec3 Number (JArr [JNum x; JNum y]) = mkVec3 x y 0) /\
  (forall value,
     (forall items, value <> JArr items) ->
     WaypointFetcher.prop value "x" = JUndefined \/
     WaypointFetcher.prop value "y" = JUndefined \/
     WaypointFetcher.prop value "z" = JUndefined ->
     WaypointFetcher._toVec3 Number value = mkVec3 0 0 0).
Proof.
  intros Hnum Hundef.
  assert (Hn : forall r, WaypointFetcher.numberOr0 Number (JNum r) = r).
  { intros r. unfold WaypointFetcher.numberOr0. rewrite Hnum.
    apply ParserFacts.or_num_0. }
  assert (Hu : WaypointFetcher.numberOr0 Number JUndefined = 0).
  { unfold WaypointFetcher.numberOr0. now rewrite Hundef. }
  split; [|split; [|split]].
  - intros x y z. unfold WaypointFetcher._toVec3. cbn. now rewrite !Hn.
  - intros fields x y z Hx Hy Hz. unfold WaypointFetcher._toVec3.
    cbn [WaypointFetcher.truthy WaypointFetcher.prop andb].
    rewrite Hx, Hy, Hz. reflexivity.
  - intros x y. unfold WaypointFetcher._toVec3. cbn. now rewrite !Hn, Hu.
  - intros value Harr Hmiss. unfold WaypointFetcher._toVec3.
    assert (Hcond : WaypointFetcher.truthy value
                    && WaypointFetcher.defined (WaypointFetcher.prop value "x")
                    && WaypointFetcher.defined (WaypointFetcher.prop value "y")
                    && WaypointFetcher.defined (WaypointFetcher.prop value "z")
                    = false).
    { destruct Hmiss as [-> | [-> | ->]]; cbn [WaypointFetcher.defined];
        rewrite ?andb_false_r; reflexivity. }
    rewrite Hcond.
    destruct value; try (cbn; now rewrite !Hn).
    now elim (Harr items).
Qed.

(** X11 with the conversion of plain values, at the array [[1, 2, 3]]. *)
Lemma toVec3_forms_witness :
  WaypointFetcher._toVec3 WaypointFetcher.NumberOfValue
    (JArr [JNum 1; JNum 2; JNum 3]) = mkVec3 1 2 3.
Proof.
  exact (proj1 (toVec3_forms WaypointFetcher.NumberOfValue
                  (fun r => eq_refl) eq_refl) 1 2 3).
Defined.

(** ** Loading *)

Module LoadFacts.
Import WaypointFetcherLoad.

Lemma list_ascii_of_string_app a b :
  list_ascii_of_string (a ++ b) =
  (list_ascii_of_string a ++ list_ascii_of_string b)%list.
Proof.
  induction a as [|c a IH]; [reflexivity|]. cbn. now rewrite IH.
Qed.

Lemma prefixb_app d rest : Text.prefixb d (d ++ rest) = true.
Proof.
  induction d as [|c d IH]; [reflexivity|].
  cbn. now rewrite Ascii.eqb_refl, IH.
Qed.

(** The lower-cased URL ends with the lower-cased extension. *)
Lemma lowered_url prefix ext :
  rev (toLowerCase (list_ascii_of_string (prefix ++ ext))) =
  (rev (toLowerCase (list_ascii_of_string ext)) ++
   rev (toLowerCase (list_ascii_of_string prefix)))%list.
Proof.
  unfold toLowerCase.
  now rewrite list_ascii_of_string_app, map_app, rev_app_distr.
Qed.

Lemma endsWith_ext prefix ext suffix :
  toLowerCase (list_ascii_of_string ext) = list_ascii_of_string suffix ->
  endsWith (toLowerCase (list_ascii_of_string (prefix ++ ext))) suffix = true.
Proof.
  intros H. unfold endsWith. rewrite lowered_url, H. apply prefixb_app.
Qed.

Lemma nonempty_ext prefix ext suffix :
  toLowerCase (list_ascii_of_string ext) = list_ascii_of_string suffix ->
  suffix <> ""%string ->
  String.eqb (prefix ++ ext) "" = false.
Proof.
  intros H Hs. apply String.eqb_neq. intros E.
  destruct ext as [|c ext].
  - destruct suffix; [congruence | discriminate].
  - destruct prefix; discriminate.
Qed.

Lemma urlOf_source assetUrl sourceUrl :
  String.eqb sourceUrl "" = false -> urlOf assetUrl sourceUrl = sourceUrl.
Proof. intros H. unfold urlOf. now rewrite H. Qed.

End LoadFacts.

(** X12.  Whatever [_applyWaypointData] is handed, it either leaves the
    script as it was and fires nothing, or stores a payload with at least
    one position and fires [waypoints:loaded] once, with that payload.  The
    payload's positions and rotations are no more than its pauses; it comes
    from the CSV parser exactly when the format settled on is ["csv"], and
    then the three arrays have one length. *)
Theorem applyWaypointData_outcome (Number : JsValue -> option R)
  (JSON_parse : string -> option JsValue) (decode : list ascii -> string)
  (String_ : JsValue -> string) (waypointDataFormat csvDelimiter : string)
  (data : Data) (assetUrl : option string) (sourceUrl : string)
  (st : WaypointFetcherLoad.State) :
  let st' :=
    WaypointFetcherLoad._applyWaypointData Number JSON_parse decode String_
      waypointDataFormat csvDelimiter data assetUrl sourceUrl st in
  let format :=
    WaypointFetcherLoad.formatOf waypointDataFormat data assetUrl sourceUrl in
  st' = st \/
  exists payload,
    st' = WaypointFetcherLoad.mkState (Some payload)
            (WaypointFetcherLoad.fired st ++ [payload]) /\
    positions payload <> [] /\
    (List.length (positions payload) <= List.length (pauses payload))%nat /\
    (List.length (rotations payload) <= List.length (pauses payload))%nat /\
    ((format = "csv"%string /\ source payload = "csv"%string /\
      List.length (positions payload) = List.length (rotations payload)) \/
     (format <> "csv"%string /\ source payload = "json"%string)).
Proof.
  intros st' format.
  assert (Hmain :
    forall parsed,
      WaypointFetcherLoad.parse Number JSON_parse decode String_
        csvDelimiter format data = parsed ->
      match parsed with
      | Some (Some payload) =>
          (List.length (positions payload) <=
           List.length (pauses payload))%nat /\
          (List.length (rotations payload) <=
           List.length (pauses payload))%nat /\
          ((format = "csv"%string /\ source payload = "csv"%string /\
            List.length (positions payload) =
            List.length (rotations payload)) \/
           (format <> "csv"%string /\ source payload = "json"%string))
      | _ => True
      end).
  { intros parsed <-. unfold WaypointFetcherLoad.parse.
    destruct (String.eqb format "csv") eqn:Ef.
    - apply String.eqb_eq in Ef.
      destruct (WaypointFetcher._parseCsv _ _ _) as [payload|] eqn:Ep;
        [|exact I].
      destruct (ParserFacts.parseCsv_aligned _ _ _ _ Ep) as [H1 H2].
      destruct (ArrayFacts.parseCsv_source _ _ _ _ Ep) as [H3 _].
      split; [lia|]. split; [lia|]. left. split; [exact Ef|].
      split; [exact H3 | lia].
    - apply String.eqb_neq in Ef.
      destruct (JSON_parse _) as [json|]; [|exact I].
      destruct (WaypointFetcher._parseJson Number json) as [payload|] eqn:Ep;
        [|exact I].
      destruct (ParserFacts.parseJson_bounded _ _ _ Ep) as [H1 H2].
      split; [exact H1|]. split; [exact H2|]. right.
      split; [exact Ef | exact (ArrayFacts.parseJson_source _ _ _ Ep)]. }
  unfold st', WaypointFetcherLoad._applyWaypointData. fold format.
  specialize (Hmain _ eq_refl).
  destruct (WaypointFetcherLoad.parse Number JSON_parse decode String_
              csvDelimiter format data) as [[payload|]|].
  - destruct (positions payload) as [|p ps] eqn:Epos.
    + left. destruct data as [[]| |]; reflexivity.
    + assert (Hout :
        exists payload0,
          WaypointFetcherLoad.mkState (Some payload)
            (WaypointFetcherLoad.fired st ++ [payload]) =
          WaypointFetcherLoad.mkState (Some payload0)
            (WaypointFetcherLoad.fired st ++ [payload0]) /\
          positions payload0 <> [] /\
          (List.length (positions payload0) <=
           List.length (pauses payload0))%nat /\
          (List.length (rotations payload0) <=
           List.length (pauses payload0))%nat /\
          ((format = "csv"%string /\ source payload0 = "csv"%string /\
            List.length (positions payload0) =
            List.length (rotations payload0)) \/
           (format <> "csv"%string /\ source payload0 = "json"%string))).
      { rewrite <- Epos in Hmain. exists payload. split; [reflexivity|].
        split; [rewrite Epos; discriminate|]. exact Hmain. }
      destruct data as [[]| |]; (now left) || (now right).
  - left. destruct data as [[]| |]; reflexivity.
  - left. destruct data as [[]| |]; reflexivity.
Qed.

(** X13.  The format [_applyWaypointData] settles on.  A configured format
    other than ["auto"] is taken as it is, whatever the URL and the data.
    On ["auto"], a source URL ending in [.csv] or [.txt], in any letter
    case, gives ["csv"] and one ending in [.json] gives ["json"], whatever
    the data is; and a source URL that is not empty makes the asset's URL
    irrelevant. *)
Theorem format_detection (waypointDataFormat : string) (data : Data)
  (assetUrl : option string) (sourceUrl : string) :
  (waypointDataFormat <> "auto"%string ->
   WaypointFetcherLoad.formatOf waypointDataFormat data assetUrl sourceUrl =
   waypointDataFormat) /\
  (waypointDataFormat = "auto"%string ->
   (forall prefix ext,
      WaypointFetcherLoad.toLowerCase (list_ascii_of_string ext) =
        list_ascii_of_string ".csv" \/
      WaypointFetcherLoad.toLowerCase (list_ascii_of_string ext) =
        list_ascii_of_string ".txt" ->
      WaypointFetcherLoad.formatOf waypointDataFormat data assetUrl
        (prefix ++ ext) = "csv"%string) /\
   (forall prefix ext,
      WaypointFetcherLoad.toLowerCase (list_ascii_of_string ext) =
        list_ascii_of_string ".json" ->
      WaypointFetcherLoad.formatOf waypointDataFormat data assetUrl
        (prefix ++ ext) = "json"%string) /\
   (sourceUrl <> ""%string ->
    forall otherAssetUrl,
      WaypointFetcherLoad.formatOf waypointDataFormat data otherAssetUrl
        sourceUrl =
      WaypointFetcherLoad.formatOf waypointDataFormat data assetUrl
        sourceUrl)).
Proof.
  split.
  - intros H. unfold WaypointFetcherLoad.formatOf.
    apply String.eqb_neq in H. now rewrite H.
  - intros ->. unfold WaypointFetcherLoad.formatOf. cbn [String.eqb].
    rewrite !Ascii.eqb_refl.
    split; [|split].
    + intros prefix ext [H | H].
      * rewrite LoadFacts.urlOf_source
          by (apply (LoadFacts.nonempty_ext prefix ext ".csv" H);
              discriminate).
        now rewrite (LoadFacts.endsWith_ext prefix ext ".csv" H).
      * rewrite LoadFacts.urlOf_source
          by (apply (LoadFacts.nonempty_ext prefix ext ".txt" H);
              discriminate).
        rewrite (LoadFacts.endsWith_ext prefix ext ".txt" H).
        now rewrite orb_true_r.
    + intros prefix ext H.
      rewrite LoadFacts.urlOf_source
        by (apply (LoadFacts.nonempty_ext prefix ext ".json" H);
            discriminate).
      rewrite (LoadFacts.endsWith_ext prefix ext ".json" H).
      unfold WaypointFetcherLoad.endsWith.
      rewrite LoadFacts.lowered_url, H. reflexivity.
    + intros Hne other. apply String.eqb_neq in Hne.
      now rewrite !LoadFacts.urlOf_source by exact Hne.
Qed.

(** X13 at the source URL ["data/Path.CSV"] with data that is no text. *)
Lemma format_detection_witness :
  WaypointFetcherLoad.formatOf "auto" (DValue (JArr [])) None
    ("data/Path" ++ ".CSV") = "csv"%string.
Proof.
  exact (proj1 (proj2 (format_detection "auto" (DValue (JArr [])) None "")
                  eq_refl)
           "data/Path"%string ".CSV"%string (or_introl eq_refl)).
Defined.

(** ** The update of a curve task *)

Module UpdateFacts.
Import CurveTween.

Lemma lerp_0 a b : V3.lerp a b 0 = a.
Proof. destruct a. unfold V3.lerp. cbn [vx vy vz]. f_equal; ring. Qed.

Lemma sampleAt_inside samples i :
  (0 <= i < Z.of_nat (List.length samples))%Z ->
  exists p,
    sampleAt samples i = Some p /\
    nth_error samples (Z.to_nat i) = Some p.
Proof.
  intros H. unfold sampleAt.
  replace (i <? 0)%Z with false by (symmetry; apply Z.ltb_ge; lia).
  destruct (nth_error samples (Z.to_nat i)) as [p|] eqn:E; [eauto|].
  apply nth_error_None in E. lia.
Qed.

Lemma sampleAt_outside samples i : (i < 0)%Z -> sampleAt samples i = None.
Proof.
  intros H. unfold sampleAt.
  now replace (i <? 0)%Z with true by (symmetry; apply Z.ltb_lt; lia).
Qed.

(** The update with the reads of a chain of at least two samples. *)
Lemma onUpdate_long samples t :
  (2 <= List.length samples)%nat ->
  let m := (Z.of_nat (List.length samples) - 1)%Z in
  let scaled := Js.Math_min t 1 * IZR m in
  onUpdate samples t =
  match sampleAt samples (Zfloor scaled),
        sampleAt samples (Z.min (Zfloor scaled + 1) m) with
  | Some from, Some to => Some (V3.lerp from to (scaled - IZR (Zfloor scaled)))
  | _, _ => None
  end.
Proof.
  intros H m scaled. unfold onUpdate.
  replace (Z.max 1 (Z.of_nat (List.length samples) - 1)) with m
    by (unfold m; lia).
  reflexivity.
Qed.

(** At the progress [0] the update sets the first sample. *)
Lemma onUpdate_at_0 samples :
  (2 <= List.length samples)%nat ->
  onUpdate samples 0 = hd_error samples.
Proof.
  intros H. rewrite onUpdate_long by exact H. cbv zeta.
  set (m := (Z.of_nat (List.length samples) - 1)%Z) in *.
  unfold Js.Math_min. rewrite Rmin_left by lra.
  replace (0 * IZR m) with (IZR 0) by (simpl; ring).
  rewrite ZfloorZ.
  destruct (sampleAt_inside samples 0 ltac:(lia)) as [a [-> Ha]].
  destruct (sampleAt_inside samples (Z.min (0 + 1) m)
              ltac:(unfold m in *; lia)) as [b [-> _]].
  replace (IZR 0 - IZR 0) with 0 by ring.
  rewrite lerp_0. destruct samples; [discriminate | exact (eq_sym Ha)].
Qed.

End UpdateFacts.

(** X14.  The position an update of a curve task sets, for at least two
    samples.  At a progress [t >= 0] it lies on the stretch between two
    neighbouring samples, both read inside the array, at a blend in
    [[0, 1)]; at the progress [0] it is the first sample and from [t = 1]
    on it is the last one.  At a negative progress a sample is read before
    the array and no position comes out. *)
Theorem curve_update_on_polyline (samples : list Vec3) (t : R) :
  (2 <= List.length samples)%nat ->
  let n := Z.of_nat (List.length samples) in
  (0 <= t ->
   exists i a b blend,
     (0 <= i <= n - 1)%Z /\ 0 <= blend < 1 /\
     nth_error samples (Z.to_nat i) = Some a /\
     nth_error samples (Z.to_nat (Z.min (i + 1) (n - 1))) = Some b /\
     CurveTween.onUpdate samples t = Some (V3.lerp a b blend)) /\
  CurveTween.onUpdate samples 0 = hd_error samples /\
  (1 <= t ->
   CurveTween.onUpdate samples t = Some (last samples (mkVec3 0 0 0))) /\
  (t < 0 -> CurveTween.onUpdate samples t = None).
Proof.
  intros H n.
  pose proof (UpdateFacts.onUpdate_long samples t H) as Hlong.
  cbv zeta in Hlong. fold n in Hlong.
  set (m := (n - 1)%Z) in *.
  assert (Hm : 1 <= IZR m) by (apply IZR_le; unfold m, n; lia).
  set (scaled := Js.Math_min t 1 * IZR m) in *.
  pose proof (Zfloor_bound scaled) as Hfl.
  split; [|split; [|split]].
  - intros Ht.
    assert (Hs : 0 <= scaled <= IZR m).
    { unfold scaled, Js.Math_min, Rmin.
      destruct (Rle_dec t 1); nra. }
    assert (Hi0 : (0 <= Zfloor scaled)%Z) by (apply Zfloor_lub; simpl; lra).
    assert (Him : (Zfloor scaled <= m)%Z) by (apply le_IZR; lra).
    destruct (UpdateFacts.sampleAt_inside samples (Zfloor scaled)
                ltac:(unfold m, n in *; lia)) as [a [Ha Ha']].
    destruct (UpdateFacts.sampleAt_inside samples
                (Z.min (Zfloor scaled + 1) m)
                ltac:(unfold m, n in *; lia)) as [b [Hb Hb']].
    exists (Zfloor scaled), a, b, (scaled - IZR (Zfloor scaled)).
    split; [lia|]. split; [lra|]. split; [exact Ha'|].
    split; [exact Hb'|]. now rewrite Hlong, Ha, Hb.
  - apply UpdateFacts.onUpdate_at_0, H.
  - intros Ht.
    replace t with (Js.Math_min t 1 + (t - Js.Math_min t 1)) by ring.
    assert (Hmin : Js.Math_min t 1 = 1)
      by (unfold Js.Math_min; apply Rmin_right; exact Ht).
    assert (Hscaled : scaled = IZR m) by (unfold scaled; rewrite Hmin; ring).
    replace (Js.Math_min t 1 + (t - Js.Math_min t 1)) with t by ring.
    rewrite Hlong, Hscaled, ZfloorZ.
    destruct (UpdateFacts.sampleAt_inside samples m
                ltac:(unfold m, n in *; lia)) as [a [Ha Ha']].
    replace (Z.min (m + 1) m) with m by lia.
    rewrite Ha. replace (IZR m - IZR m) with 0 by ring.
    rewrite UpdateFacts.lerp_0. f_equal.
    rewrite <- SamplerFacts.nth_last.
    apply eq_sym, nth_error_nth.
    replace (List.length samples - 1)%nat with (Z.to_nat m)
      by (unfold m, n; lia).
    exact Ha'.
  - intros Ht.
    assert (Hs : scaled < 0).
    { unfold scaled, Js.Math_min. rewrite Rmin_left by lra. nra. }
    assert (Hi : (Zfloor scaled < 0)%Z) by (apply lt_IZR; simpl; lra).
    now rewrite Hlong, (UpdateFacts.sampleAt_outside samples _ Hi).
Qed.

(** X14 at three samples, at the end of the run: the last sample. *)
Lemma curve_update_on_polyline_witness :
  let samples := [mkVec3 0 0 0; mkVec3 1 0 0; mkVec3 1 0 2] in
  (2 <= List.length samples)%nat /\ 1 <= 1 /\
  CurveTween.onUpdate samples 1 = Some (mkVec3 1 0 2).
Proof.
  intros samples.
  assert (H : (2 <= List.length samples)%nat) by (simpl; lia).
  assert (H1 : 1 <= 1) by lra.
  split; [exact H|]. split; [exact H1|].
  exact (proj1 (proj2 (proj2 (curve_update_on_polyline samples 1 H))) H1).
Defined.

(** ** The tasks of a sequence *)

Module SequencerFacts.

Lemma kept_refl x : kept x x.
Proof. split; auto. Qed.

Lemma kept_trans x y z : kept x y -> kept y z -> kept x z.
Proof. intros [H1 H2] [H3 H4]. split; [congruence | auto]. Qed.

Lemma kept_all_refl heap : Forall2 kept heap heap.
Proof. induction heap; constructor; auto using kept_refl. Qed.

Lemma kept_all_trans h1 : forall h2 h3,
  Forall2 kept h1 h2 -> Forall2 kept h2 h3 -> Forall2 kept h1 h3.
Proof.
  induction h1 as [|x h1 IH]; intros h2 h3 H12 H23;
    inversion H12; subst; inversion H23; subst; constructor.
  - eapply kept_trans; eassumption.
  - eapply IH; eassumption.
Qed.

Lemma updateAt_kept f heap : forall id,
  (forall x, kept x (f x)) -> Forall2 kept heap (Tween.updateAt id f heap).
Proof.
  induction heap as [|x heap IH]; intros [|id] Hf; simpl; constructor;
    auto using kept_refl, kept_all_refl.
Qed.

Lemma onComplete_kept id cb heap :
  Forall2 kept heap (Tween.onComplete id cb heap).
Proof.
  apply updateAt_kept. intros x. split; [reflexivity|].
  cbn [Tween.callbacks]. intros c Hc.
  destruct (Tween.callbacks x); [discriminate | exact Hc].
Qed.

Lemma chain_kept id next heap : Forall2 kept heap (Tween.chain id next heap).
Proof. apply updateAt_kept. intros x. split; auto. Qed.

Lemma start_kept id heap : Forall2 kept heap (Tween.start id heap).
Proof.
  apply updateAt_kept. intros x.
  destruct (Tween.status x); split; auto.
Qed.

Lemma chainAll_kept ids : forall heap,
  Forall2 kept heap (CameraMover.chainAll ids heap).
Proof.
  induction ids as [|a rest IH]; intros heap; [apply kept_all_refl|].
  destruct rest as [|b rest]; [apply kept_all_refl|].
  change (CameraMover.chainAll (a :: b :: rest) heap) with
    (CameraMover.chainAll (b :: rest) (Tween.chain a b heap)).
  eapply kept_all_trans; [apply chain_kept | apply IH].
Qed.

Lemma launch_kept w :
  Forall2 kept (CameraMover.tweens w)
          (CameraMover.tweens (CameraMover.launch w)).
Proof.
  unfold CameraMover.launch.
  destruct (CameraMover._tweens w) as [|first rest];
    [apply kept_all_refl|].
  cbn [CameraMover.withHeap CameraMover.tweens].
  eapply kept_all_trans; [apply chainAll_kept|].
  eapply kept_all_trans; [apply onComplete_kept | apply start_kept].
Qed.

(** With a task to play, [launch] returns with the lists and flags as
    they were. *)
Lemma launch_fields w :
  CameraMover._tweens w <> [] ->
  CameraMover._tweens (CameraMover.launch w) = CameraMover._tweens w /\
  CameraMover._running (CameraMover.launch w) = CameraMover._running w /\
  CameraMover.fired (CameraMover.launch w) = CameraMover.fired w.
Proof.
  intros H. unfold CameraMover.launch.
  destruct (CameraMover._tweens w) as [|first rest] eqn:E; [congruence|].
  cbn. rewrite E. auto.
Qed.

Lemma updateAt_last f heap x :
  Tween.updateAt (List.length heap) f (heap ++ [x]) = heap ++ [f x].
Proof. induction heap as [|y heap IH]; simpl; [reflexivity | now rewrite IH]. Qed.

(** The tasks after the first [n] of a heap, followed through [kept]. *)
Lemma kept_created old news heap' :
  Forall2 kept (old ++ news) heap' ->
  Forall2 kept news (skipn (List.length old) heap').
Proof.
  intros H. apply Forall2_app_inv_l in H.
  destruct H as [old' [news' [H1 [H2 ->]]]].
  rewrite (Forall2_length H1), skipn_app, skipn_all, Nat.sub_diag.
  exact H2.
Qed.

Lemma turnOf_kept x y : kept x y -> turnOf y = turnOf x.
Proof.
  intros [H _]. unfold shapeOf in H. unfold turnOf.
  injection H as Hm _ _. now rewrite Hm.
Qed.

Lemma carried_kept news : forall news' q,
  Forall2 kept news news' -> carried q news -> carried q news'.
Proof.
  induction news as [|x news IH]; intros news' q H Hc;
    inversion H; subst; [exact I|].
  destruct Hc as [q' [Ht Hc]]. exists q'. split.
  - erewrite turnOf_kept; eassumption.
  - eapply IH; eassumption.
Qed.

Lemma notifies_kept x y index position :
  kept x y -> notifies x index position -> notifies y index position.
Proof.
  intros Hk [fromRot [toRot [Ht Hc]]]. exists fromRot, toRot. split.
  - now rewrite (turnOf_kept x y Hk).
  - now apply (proj2 Hk).
Qed.

Lemma curveTask_kept cfg segment x y :
  kept x y -> curveTask cfg segment x -> curveTask cfg segment y.
Proof.
  intros Hk [samples [fromRot [toRot [Hs [Hm [Hd [Hdl Hn]]]]]]].
  pose proof (proj1 Hk) as Hshape. unfold shapeOf in Hshape.
  injection Hshape as E1 E2 E3.
  exists samples, fromRot, toRot. repeat split; try congruence.
  eapply notifies_kept; eassumption.
Qed.

Lemma Forall2_kept_map {A} (P : A -> Tween.t -> Prop) l : forall news news',
  (forall a x y, kept x y -> P a x -> P a y) ->
  Forall2 kept news news' -> Forall2 P l news -> Forall2 P l news'.
Proof.
  induction l as [|a l IH]; intros news news' HP Hk Hf;
    inversion Hf; subst; inversion Hk; subst; constructor.
  - eapply HP; eassumption.
  - eapply IH; eassumption.
Qed.

Lemma Forall_kept_map (P : Tween.t -> Prop) news : forall news',
  (forall x y, kept x y -> P x -> P y) ->
  Forall2 kept news news' -> Forall P news -> Forall P news'.
Proof.
  induction news as [|x news IH]; intros news' HP Hk Hf;
    inversion Hk; subst; constructor; inversion Hf; subst.
  - eapply HP; eassumption.
  - eapply IH; eassumption.
Qed.

Section Facts.

Variable setFromEulerAngles : R -> R -> R -> Quat.
Variable cfg : CameraMover.Config.

Lemma grown_step w w1 w' x news :
  grown w w1 [x] -> grown w1 w' news -> grown w w' (x :: news).
Proof.
  intros [H1 [H2 [H3 H4]]] [G1 [G2 [G3 G4]]].
  unfold grown. rewrite G1, G2, G3, G4, H1, H2, H3, H4.
  rewrite <- !app_assoc, length_app. cbn [List.length seq app].
  repeat split. f_equal. f_equal. f_equal. lia.
Qed.

Lemma grown_none w : grown w w [].
Proof. unfold grown. cbn. now rewrite !app_nil_r. Qed.

(** One usable segment makes one task. *)
Lemma segmentStep_grown path w q segment :
  usable segment = true ->
  exists x,
    grown w
      (fst (CameraMover.segmentStep setFromEulerAngles cfg path (w, q)
              segment)) [x] /\
    curveTask cfg segment x /\
    turnOf x =
      Some (q, snd (CameraMover.segmentStep setFromEulerAngles cfg path
                      (w, q) segment)) /\
    (CameraMover.useRotations cfg = false ->
     snd (CameraMover.segmentStep setFromEulerAngles cfg path (w, q)
            segment) = q).
Proof.
  unfold usable, CameraMover.segmentStep.
  destruct (CameraMover.samples segment) as [samples|] eqn:Es;
    [|discriminate].
  destruct (List.length samples <? 2)%nat; [discriminate|]. intros _.
  unfold Tween.create, Tween.onComplete. rewrite updateAt_last.
  eexists. split; [|split; [|split]].
  - unfold grown. cbn. auto.
  - exists samples. eexists. eexists. split; [exact Es|].
    cbn [Tween.motion Tween.duration Tween.delay]. split; [reflexivity|].
    split; [|split; [reflexivity|]].
    + unfold distanceOf, Js.Math_max, CameraMover._chainLength, Js.or_num.
      reflexivity.
    + unfold notifies, turnOf, waypointOf. cbn. eauto.
  - reflexivity.
  - intros Hu. cbn [snd]. unfold CameraMover._resolveRotation.
    now rewrite Hu.
Qed.

End Facts.

End SequencerFacts.

Module StartTaskFacts.
Section Facts.

Variable setFromEulerAngles : R -> R -> R -> Quat.
Variable cfg : CameraMover.Config.

Let steady (q : Quat) (news : list Tween.t) : Prop :=
  CameraMover.useRotations cfg = false ->
  Forall (fun x => turnOf x = Some (q, q)) news.

(** The loop of [start]: one task for each usable segment, in order. *)
Lemma segments_grown path segs : forall w q,
  exists news,
    grown w
      (fst (fold_left
              (CameraMover.segmentStep setFromEulerAngles cfg path) segs
              (w, q))) news /\
    Forall2 (curveTask cfg) (filter usable segs) news /\
    carried q news /\ steady q news.
Proof.
  induction segs as [|s segs IH]; intros w q.
  - exists []. split; [apply SequencerFacts.grown_none|].
    split; [constructor|]. split; [exact I | intros _; constructor].
  - cbn [fold_left filter]. destruct (usable s) eqn:Eu.
    + destruct (SequencerFacts.segmentStep_grown setFromEulerAngles cfg
                  path w q s Eu) as [x [Hg [Hx [Ht Hq]]]].
      destruct (CameraMover.segmentStep setFromEulerAngles cfg path (w, q) s)
        as [w1 q1] eqn:E1.
      cbn [fst snd] in *.
      destruct (IH w1 q1) as [news [Hg' [Hf [Hc Hs]]]].
      exists (x :: news).
      split; [eapply SequencerFacts.grown_step; eassumption|].
      split; [constructor; assumption|].
      split; [exists q1; auto|].
      intros Hu. specialize (Hq Hu). subst q1.
      constructor; [exact Ht | exact (Hs Hu)].
    + rewrite (StartFacts.segmentStep_unusable setFromEulerAngles cfg path
                 (w, q) s Eu).
      apply IH.
Qed.

(** One hop makes one task. *)
Lemma hopStep_grown rotations i fromPos toPos w q :
  exists x,
    grown w
      (fst (CameraMover.hopStep setFromEulerAngles cfg rotations i fromPos
              toPos (w, q))) [x] /\
    notifies x i toPos /\
    turnOf x =
      Some (q, snd (CameraMover.hopStep setFromEulerAngles cfg rotations i
                      fromPos toPos (w, q))) /\
    (CameraMover.useRotations cfg = false ->
     snd (CameraMover.hopStep setFromEulerAngles cfg rotations i fromPos
            toPos (w, q)) = q).
Proof.
  unfold CameraMover.hopStep, Tween.create, Tween.onComplete.
  rewrite SequencerFacts.updateAt_last.
  eexists. split; [|split; [|split]].
  - unfold grown. cbn. auto.
  - unfold notifies, turnOf. cbn. eauto.
  - reflexivity.
  - intros Hu. cbn [snd]. now rewrite Hu.
Qed.

(** The loop of [startFromWaypoints]: one task for each waypoint after the
    first, in order. *)
Lemma hops_grown rotations positions : forall i w q,
  exists news,
    grown w
      (fst (CameraMover.hops setFromEulerAngles cfg rotations i positions
              (w, q))) news /\
    Forall2 (fun ip x => notifies x (fst ip) (snd ip))
            (targets i positions) news /\
    carried q news /\ steady q news.
Proof.
  induction positions as [|a rest IH]; intros i w q.
  - exists []. split; [apply SequencerFacts.grown_none|].
    split; [constructor|]. split; [exact I | intros _; constructor].
  - destruct rest as [|b rest].
    + exists []. split; [apply SequencerFacts.grown_none|].
      split; [constructor|]. split; [exact I | intros _; constructor].
    + change (CameraMover.hops setFromEulerAngles cfg rotations i
                (a :: b :: rest) (w, q))
        with (CameraMover.hops setFromEulerAngles cfg rotations (i + 1)
                (b :: rest)
                (CameraMover.hopStep setFromEulerAngles cfg rotations i
                   a b (w, q))).
      change (targets i (a :: b :: rest)) with
        ((i, b) :: targets (i + 1) (b :: rest)).
      destruct (hopStep_grown rotations i a b w q)
        as [x [Hg [Hx [Ht Hq]]]].
      destruct (CameraMover.hopStep setFromEulerAngles cfg rotations i a b
                  (w, q)) as [w1 q1] eqn:E1.
      cbn [fst snd] in *.
      destruct (IH (i + 1)%Z w1 q1) as [news [Hg' [Hf [Hc Hs]]]].
      exists (x :: news).
      split; [eapply SequencerFacts.grown_step; eassumption|].
      split; [constructor; assumption|].
      split; [exists q1; auto|].
      intros Hu. specialize (Hq Hu). subst q1.
      constructor; [exact Ht | exact (Hs Hu)].
Qed.

(** What the common frame of [start] and [startFromWaypoints] makes of
    the tasks [news] a loop has added after the stop. *)
Lemma launch_created w acc news :
  grown (CameraMover.setRunning true (CameraMover.stop false w)) acc news ->
  let w' := CameraMover.launch acc in
  Forall2 kept news (created w w') /\
  (news <> [] ->
   CameraMover._tweens w' =
     seq (List.length (CameraMover.tweens w)) (List.length news) /\
   CameraMover._running w' = true /\
   CameraMover.fired w' = CameraMover.fired w).
Proof.
  intros [H1 [H2 [H3 H4]]] w'.
  assert (Hlen : List.length
                   (CameraMover.tweens
                      (CameraMover.setRunning true
                         (CameraMover.stop false w))) =
                 List.length (CameraMover.tweens w)).
  { cbn. apply TweenFacts.stop_all_length. }
  split.
  - unfold created. rewrite <- Hlen.
    apply SequencerFacts.kept_created. rewrite <- H1.
    apply SequencerFacts.launch_kept.
  - intros Hne.
    rewrite Hlen in H2. cbn [CameraMover.setRunning CameraMover.stop
      CameraMover._tweens CameraMover._running CameraMover.fired app]
      in H2, H3, H4.
    assert (Hids : CameraMover._tweens acc <> []).
    { rewrite H2. destruct news; [congruence | discriminate]. }
    destruct (SequencerFacts.launch_fields acc Hids) as [L1 [L2 L3]].
    unfold w'. rewrite L1, L2, L3. auto.
Qed.

Lemma steady_kept q news news' :
  Forall2 kept news news' ->
  Forall (fun x => turnOf x = Some (q, q)) news ->
  Forall (fun x => turnOf x = Some (q, q)) news'.
Proof.
  apply SequencerFacts.Forall_kept_map.
  intros x y Hk Hx. now rewrite (SequencerFacts.turnOf_kept x y Hk).
Qed.

(** [start] on a path with segments. *)
Lemma start_created p s segs w :
  CameraMover.segments p = Some (s :: segs) ->
  let w' := CameraMover.start setFromEulerAngles cfg (Some p) w in
  exists news,
    Forall2 kept news (created w w') /\
    Forall2 (curveTask cfg) (filter usable (s :: segs)) news /\
    carried (CameraMover.localRotation w) news /\
    steady (CameraMover.localRotation w) news /\
    (news <> [] ->
     CameraMover._tweens w' =
       seq (List.length (CameraMover.tweens w)) (List.length news) /\
     CameraMover._running w' = true /\
     CameraMover.fired w' = CameraMover.fired w).
Proof.
  intros Hp w'. unfold w', CameraMover.start. rewrite Hp.
  destruct (segments_grown p (s :: segs)
              (CameraMover.setRunning true (CameraMover.stop false w))
              (CameraMover.localRotation
                 (CameraMover.setRunning true (CameraMover.stop false w))))
    as [news [Hg [Hf [Hc Hs]]]].
  exists news.
  destruct (launch_created w _ news Hg) as [Hk Hfields].
  split; [exact Hk|]. split; [exact Hf|].
  split; [exact Hc|]. split; [exact Hs | exact Hfields].
Qed.

(** [startFromWaypoints] on data with a waypoint. *)
Lemma startFromWaypoints_created d p ps w :
  CameraMover.wpPositions d = p :: ps ->
  let w' :=
    CameraMover.startFromWaypoints setFromEulerAngles cfg (Some d) w in
  exists news,
    Forall2 kept news (created w w') /\
    Forall2 (fun ip x => notifies x (fst ip) (snd ip))
            (targets 1 (p :: ps)) news /\
    carried (CameraMover.localRotation w) news /\
    steady (CameraMover.localRotation w) news.
Proof.
  intros Hd w'. unfold w', CameraMover.startFromWaypoints. rewrite Hd.
  match goal with
  | |- context [CameraMover.hops _ _ ?r 1%Z _ (?w0, ?q0)] =>
      destruct (hops_grown r (p :: ps) 1%Z w0 q0)
        as [news [Hg [Hf [Hc Hs]]]]
  end.
  exists news.
  destruct (launch_created w _ news Hg) as [Hk _].
  split; [exact Hk|]. split; [exact Hf|]. split; [exact Hc | exact Hs].
Qed.

Lemma created_nothing w : created w w = [].
Proof. unfold created. apply skipn_all. Qed.

End Facts.
End StartTaskFacts.

Module TaskListFacts.

Lemma Forall2_right {A B} (P : A -> B -> Prop) (Q : B -> Prop) l : forall l',
  (forall a x, P a x -> Q x) -> Forall2 P l l' -> Forall Q l'.
Proof.
  induction l as [|a l IH]; intros l' H Hf; inversion Hf; subst;
    constructor; eauto.
Qed.

Lemma filter_nonempty {A} (f : A -> bool) l :
  existsb f l = true -> filter f l <> [].
Proof.
  induction l as [|a l IH]; [discriminate|]. cbn [existsb filter].
  destruct (f a); [discriminate | exact IH].
Qed.

Lemma curveTask_duration cfg segment x :
  curveTask cfg segment x ->
  CameraMover.minDuration cfg <= Tween.duration x.
Proof.
  intros [samples [fromRot [toRot [_ [_ [Hd _]]]]]]. rewrite Hd.
  apply Rmax_r.
Qed.

End TaskListFacts.

(** X15.  [start] on a path with at least one usable segment (two samples
    or more): the tasks it creates are, in order, one for each usable
    segment and none for the others; each runs over its segment's samples
    for [max(distance * durationPerUnit, minDuration)], never less than
    [minDuration], and notifies the segment's end waypoint at the last
    sample.  [_tweens] holds exactly their handles, [_running] is true and
    nothing has been fired. *)
Theorem start_one_task_per_usable_segment
  (setFromEulerAngles : R -> R -> R -> Quat) (cfg : CameraMover.Config)
  (p : CameraMover.Path) (segs : list CameraMover.PathSegment)
  (w : CameraMover.World) :
  CameraMover.segments p = Some segs ->
  existsb usable segs = true ->
  let w' := CameraMover.start setFromEulerAngles cfg (Some p) w in
  Forall2 (curveTask cfg) (filter usable segs) (created w w') /\
  Forall (fun x => CameraMover.minDuration cfg <= Tween.duration x)
         (created w w') /\
  CameraMover._tweens w' =
    seq (List.length (CameraMover.tweens w))
        (List.length (filter usable segs)) /\
  CameraMover._running w' = true /\
  CameraMover.fired w' = CameraMover.fired w.
Proof.
  intros Hp Hu w'.
  destruct segs as [|s segs]; [discriminate|].
  destruct (StartTaskFacts.start_created setFromEulerAngles cfg p s segs w
              Hp) as [news [Hk [Hf [_ [_ Hfields]]]]].
  fold w' in Hk, Hfields.
  assert (Htasks : Forall2 (curveTask cfg) (filter usable (s :: segs))
                     (created w w')).
  { eapply SequencerFacts.Forall2_kept_map; [|exact Hk | exact Hf].
    intros a x y. apply SequencerFacts.curveTask_kept. }
  assert (Hne : news <> []).
  { intros ->. inversion Hf as [Hnil|]; subst.
    apply (TaskListFacts.filter_nonempty usable (s :: segs) Hu).
    now symmetry. }
  destruct (Hfields Hne) as [H1 [H2 H3]].
  split; [exact Htasks|]. split.
  - eapply TaskListFacts.Forall2_right; [|exact Htasks].
    intros a x. apply TaskListFacts.curveTask_duration.
  - rewrite (Forall2_length Hf). auto.
Qed.

(** X15 at a path of a segment with one sample and a segment with two. *)
Lemma start_one_task_per_usable_segment_witness :
  let A := mkVec3 0 0 0 in
  let B := mkVec3 1 0 0 in
  let segs :=
    [CameraMover.mkPathSegment (Some [A]) None 0 (Some 1%Z);
     CameraMover.mkPathSegment (Some [A; B]) None 1 (Some 2%Z)] in
  let p := CameraMover.mkPath (Some segs) None in
  let w' :=
    CameraMover.start (fun _ _ _ => identityQuat) CameraMover.defaultConfig
      (Some p) (CameraMover.initial A identityQuat) in
  existsb usable segs = true /\
  CameraMover._tweens w' = [0%nat] /\ CameraMover._running w' = true.
Proof.
  intros A B segs p w'.
  assert (Hu : existsb usable segs = true) by reflexivity.
  split; [exact Hu|].
  destruct (start_one_task_per_usable_segment (fun _ _ _ => identityQuat)
              CameraMover.defaultConfig p segs
              (CameraMover.initial A identityQuat) eq_refl Hu)
    as [_ [_ [H1 [H2 _]]]].
  split; [exact H1 | exact H2].
Defined.

(** X16.  The tasks [start] and [startFromWaypoints] create turn one after
    the other: the first from the target's own orientation, every next one
    from the orientation the task before it turns to.  With
    [useRotations] off every one of them keeps the target's own
    orientation from start to end. *)
Theorem orientation_carried (setFromEulerAngles : R -> R -> R -> Quat)
  (cfg : CameraMover.Config) (w : CameraMover.World) :
  let q0 := CameraMover.localRotation w in
  let kept_still tasks :=
    CameraMover.useRotations cfg = false ->
    Forall (fun x => turnOf x = Some (q0, q0)) tasks in
  (forall path,
     let tasks :=
       created w (CameraMover.start setFromEulerAngles cfg path w) in
     carried q0 tasks /\ kept_still tasks) /\
  (forall data,
     let tasks :=
       created w
         (CameraMover.startFromWaypoints setFromEulerAngles cfg data w) in
     carried q0 tasks /\ kept_still tasks).
Proof.
  intros q0 kept_still.
  assert (Hnone : carried q0 (created w w) /\ kept_still (created w w)).
  { rewrite StartTaskFacts.created_nothing.
    split; [exact I | intros _; constructor]. }
  split.
  - intros [p|]; [|exact Hnone]. cbv zeta.
    destruct (CameraMover.segments p) as [[|s segs]|] eqn:Hp;
      try (unfold CameraMover.start; rewrite Hp; exact Hnone).
    destruct (StartTaskFacts.start_created setFromEulerAngles cfg p s segs
                w Hp) as [news [Hk [_ [Hc [Hs _]]]]].
    split.
    + eapply SequencerFacts.carried_kept; eassumption.
    + intros Hu. eapply StartTaskFacts.steady_kept; [exact Hk|].
      exact (Hs Hu).
  - intros [d|]; [|exact Hnone]. cbv zeta.
    destruct (CameraMover.wpPositions d) as [|p ps] eqn:Hd;
      [unfold CameraMover.startFromWaypoints; rewrite Hd; exact Hnone|].
    destruct (StartTaskFacts.startFromWaypoints_created setFromEulerAngles
                cfg d p ps w Hd) as [news [Hk [_ [Hc Hs]]]].
    split.
    + eapply SequencerFacts.carried_kept; eassumption.
    + intros Hu. eapply StartTaskFacts.steady_kept; [exact Hk|].
      exact (Hs Hu).
Qed.

(** X17.  The tasks [startFromWaypoints] creates notify, in order, the
    waypoints from the second on: the task of the hop to waypoint [i]
    fires [camera:waypoint] with index [i], the position of waypoint [i]
    and the orientation the hop turns to. *)
Theorem hops_notify_their_waypoint (setFromEulerAngles : R -> R -> R -> Quat)
  (cfg : CameraMover.Config) (d : CameraMover.Waypoints)
  (w : CameraMover.World) :
  Forall2 (fun ip x => notifies x (fst ip) (snd ip))
          (targets 1 (CameraMover.wpPositions d))
          (created w
             (CameraMover.startFromWaypoints setFromEulerAngles cfg
                (Some d) w)).
Proof.
  destruct (CameraMover.wpPositions d) as [|p ps] eqn:Hd.
  - unfold CameraMover.startFromWaypoints. rewrite Hd.
    rewrite StartTaskFacts.created_nothing. constructor.
  - destruct (StartTaskFacts.startFromWaypoints_created setFromEulerAngles
                cfg d p ps w Hd) as [news [Hk [Hf _]]].
    eapply SequencerFacts.Forall2_kept_map; [|exact Hk | exact Hf].
    intros a x y. apply SequencerFacts.notifies_kept.
Qed.

(** ** Switching the input scripts off and on *)

Module InputFacts.
Import Input.

Lemma setEnabled_comm a b x scripts :
  setEnabled a x (setEnabled b x scripts) =
  setEnabled b x (setEnabled a x scripts).
Proof.
  induction scripts as [|[k e] rest IH]; [reflexivity|].
  cbn [setEnabled].
  destruct (String.eqb a k) eqn:Ea; destruct (String.eqb b k) eqn:Eb;
    cbn [setEnabled]; rewrite ?Ea, ?Eb; try reflexivity.
  now rewrite IH.
Qed.

Lemma enable_all_comm names : forall a scripts,
  fold_left (fun s name => setEnabled name true s) names
            (setEnabled a true scripts) =
  setEnabled a true
    (fold_left (fun s name => setEnabled name true s) names scripts).
Proof.
  induction names as [|n names IH]; intros a scripts; [reflexivity|].
  cbn [fold_left]. now rewrite setEnabled_comm, IH.
Qed.

Lemma enable_after_disable a scripts :
  enabledOf a scripts = Some true ->
  setEnabled a true (setEnabled a false scripts) = scripts.
Proof.
  induction scripts as [|[k e] rest IH]; [discriminate|].
  cbn [enabledOf setEnabled].
  destruct (String.eqb a k) eqn:Ea; cbn [setEnabled]; rewrite Ea.
  - now intros [= ->].
  - intros H. now rewrite IH.
Qed.

Lemma enabledOf_setEnabled n m b scripts :
  enabledOf n (setEnabled m b scripts) =
  if String.eqb n m
  then match enabledOf n scripts with Some _ => Some b | None => None end
  else enabledOf n scripts.
Proof.
  induction scripts as [|[k e] rest IH];
    [cbn; now destruct (String.eqb n m)|].
  cbn [setEnabled enabledOf].
  destruct (String.eqb m k) eqn:Em; cbn [enabledOf].
  - apply String.eqb_eq in Em. subst k.
    destruct (String.eqb n m); reflexivity.
  - destruct (String.eqb n k) eqn:En.
    + apply String.eqb_eq in En. subst k.
      rewrite String.eqb_sym in Em. now rewrite Em.
    + exact IH.
Qed.

(** What the loop over [inputScriptNames] switches off, switching on
    again restores. *)
Lemma disable_then_enable names : forall acc,
  exists new,
    snd (fold_left disableOne names acc) = snd acc ++ new /\
    fold_left (fun s name => setEnabled name true s) new
              (fst (fold_left disableOne names acc)) = fst acc.
Proof.
  induction names as [|n names IH]; intros acc.
  - exists []. cbn. now rewrite app_nil_r.
  - cbn [fold_left]. destruct (IH (disableOne acc n)) as [new [H1 H2]].
    destruct (enabledOf n (fst acc)) as [[|]|] eqn:En.
    2, 3: assert (E : disableOne acc n = acc)
            by (unfold disableOne; now rewrite En);
          rewrite E in *; exists new; split; assumption.
    assert (E : disableOne acc n =
                (setEnabled n false (fst acc), snd acc ++ [n]))
      by (unfold disableOne; now rewrite En).
    rewrite E in *. cbn [fst snd] in H1, H2. exists (n :: new). split.
    + rewrite H1, <- app_assoc. reflexivity.
    + cbn [fold_left]. rewrite enable_all_comm, H2.
      now apply enable_after_disable.
Qed.

(** The loop switches nothing on, and leaves the scripts it is not told
    about as they are. *)
Lemma disableOne_flags acc n name :
  enabledOf name (fst (disableOne acc n)) =
  if String.eqb name n
  then match enabledOf name (fst acc) with
       | Some _ => Some false
       | None => None
       end
  else enabledOf name (fst acc).
Proof.
  unfold disableOne.
  destruct (enabledOf n (fst acc)) as [[|]|] eqn:En; cbn [fst].
  - apply enabledOf_setEnabled.
  - destruct (String.eqb name n) eqn:E; [|reflexivity].
    apply String.eqb_eq in E. subst. now rewrite En.
  - destruct (String.eqb name n) eqn:E; [|reflexivity].
    apply String.eqb_eq in E. subst. now rewrite En.
Qed.

Lemma disable_others names name : forall acc,
  ~ In name names ->
  enabledOf name (fst (fold_left disableOne names acc)) =
  enabledOf name (fst acc).
Proof.
  induction names as [|n names IH]; intros acc Hn; [reflexivity|].
  cbn [fold_left]. rewrite IH by (intros H; apply Hn; now right).
  rewrite disableOne_flags.
  replace (String.eqb name n) with false; [reflexivity|].
  symmetry. apply String.eqb_neq. intros ->. apply Hn. now left.
Qed.

Lemma disable_never_on names name : forall acc,
  enabledOf name (fst (fold_left disableOne names acc)) = Some true ->
  enabledOf name (fst acc) = Some true.
Proof.
  induction names as [|n names IH]; intros acc H; [exact H|].
  cbn [fold_left] in H. apply IH in H. rewrite disableOne_flags in H.
  destruct (String.eqb name n); [|exact H].
  destruct (enabledOf name (fst acc)); discriminate.
Qed.

Lemma disable_named names name : forall acc,
  In name names ->
  enabledOf name (fst (fold_left disableOne names acc)) <> Some true.
Proof.
  induction names as [|n names IH]; intros acc Hin; [destruct Hin|].
  cbn [fold_left]. destruct (String.eqb_spec name n) as [->|Hne].
  - intros H. apply disable_never_on in H. rewrite disableOne_flags in H.
    rewrite String.eqb_refl in H.
    destruct (enabledOf n (fst acc)); discriminate.
  - destruct Hin as [-> | Hin]; [congruence|]. now apply IH.
Qed.

End InputFacts.

(** X18.  [_setInputEnabled(false)] followed by [_setInputEnabled(true)],
    from a state with nothing recorded as switched off, gives the state
    back: every script flag is as it was and the record is empty again.
    In between no script named in [inputScriptNames] is on, no script is
    switched on that was off, and the scripts not named are untouched. *)
Theorem input_round_trip (inputScriptNames : list string)
  (st : Input.State) :
  Input._disabledScripts st = [] ->
  let off := Input._setInputEnabled inputScriptNames false st in
  Input._setInputEnabled inputScriptNames true off = st /\
  (forall name, In name inputScriptNames -> ~ switchedOn name off) /\
  (forall name, switchedOn name off -> switchedOn name st) /\
  (forall name, ~ In name inputScriptNames ->
     switchedOn name st -> switchedOn name off).
Proof.
  intros Hd off. destruct st as [[scripts|] disabled]; cbn in Hd; subst.
  - unfold off, Input._setInputEnabled.
    cbn [Input.script Input._disabledScripts].
    destruct (InputFacts.disable_then_enable inputScriptNames
                (scripts, [])) as [new [H1 H2]]. cbn [app fst snd] in H1, H2.
    rewrite H1, H2. split; [reflexivity|].
    split; [|split].
    + intros name Hin [s [Hs He]]. cbn in Hs. injection Hs as <-.
      revert He. now apply InputFacts.disable_named.
    + intros name [s [Hs He]]. cbn in Hs. injection Hs as <-.
      exists scripts. split; [reflexivity|].
      apply InputFacts.disable_never_on in He. exact He.
    + intros name Hn [s [Hs He]]. cbn in Hs. injection Hs as <-.
      eexists. split; [reflexivity|].
      now rewrite InputFacts.disable_others.
  - unfold off. cbn. split; [reflexivity|].
    split; [|split]; try (intros name _ [s [Hs _]]; discriminate); auto.
Qed.

(** X18 at two input scripts, one of them already off. *)
Lemma input_round_trip_witness :
  let st :=
    Input.mkState
      (Some [("orbitCamera"%string, true); ("flyCamera"%string, false)])
      [] in
  let names := ["orbitCamera"%string; "flyCamera"%string] in
  Input._disabledScripts st = [] /\
  Input._setInputEnabled names true
    (Input._setInputEnabled names false st) = st.
Proof.
  intros st names. split; [reflexivity|].
  exact (proj1 (input_round_trip names st eq_refl)).
Defined.

(** ** The flow coordinator *)

Module FlowFacts.
Import FlowCoordinator.

Lemma showWaypoint_all {D : Type} cfg (ds : list D) : forall out,
  fold_left (fun out d => _showWaypoint cfg d out) ds out =
  out ++ map (fun d =>
                if receiver cfg
                then Called (uiScriptName cfg) (uiMethodName cfg) d
                else UiWaypoint d) ds.
Proof.
  induction ds as [|d ds IH]; intros out; cbn [fold_left map];
    [now rewrite app_nil_r|].
  rewrite IH. unfold _showWaypoint.
  destruct (receiver cfg); now rewrite <- app_assoc.
Qed.

End FlowFacts.

(** X19.  The flow coordinator passes every waypoint notification on,
    once, in order and unchanged: to the configured method of the UI
    script when the UI entity has that script and the script has that
    method, and as [ui:waypoint] otherwise, as with no UI entity or an
    empty script name. *)
Theorem showWaypoint_passes_on (D : Type) (cfg : FlowCoordinator.Config)
  (ds : list D) :
  let out :=
    fold_left (fun out d => FlowCoordinator._showWaypoint cfg d out) ds [] in
  map dataOf out = ds /\
  ((exists target scripts instance,
      FlowCoordinator.uiEntity cfg = Some target /\
      FlowCoordinator.uiScriptName cfg <> ""%string /\
      FlowCoordinator.script target = Some scripts /\
      FlowCoordinator.instanceOf (FlowCoordinator.uiScriptName cfg) scripts
        = Some instance /\
      In (FlowCoordinator.uiMethodName cfg)
         (FlowCoordinator.functions instance)) ->
   out = map (FlowCoordinator.Called (FlowCoordinator.uiScriptName cfg)
                (FlowCoordinator.uiMethodName cfg)) ds) /\
  (FlowCoordinator.uiEntity cfg = None \/
   FlowCoordinator.uiScriptName cfg = ""%string \/
   (forall target, FlowCoordinator.uiEntity cfg = Some target ->
      FlowCoordinator.script target = None) ->
   out = map FlowCoordinator.UiWaypoint ds).
Proof.
  intros out. unfold out. rewrite FlowFacts.showWaypoint_all. cbn [app].
  split; [|split].
  - rewrite map_map. rewrite <- (map_id ds) at 2. apply map_ext.
    intros d. now destruct (FlowCoordinator.receiver cfg).
  - intros [target [scripts [instance [H1 [H2 [H3 [H4 H5]]]]]]].
    assert (Hr : FlowCoordinator.receiver cfg = true).
    { unfold FlowCoordinator.receiver. rewrite H1, H3, H4.
      apply String.eqb_neq in H2. rewrite H2.
      apply existsb_exists. exists (FlowCoordinator.uiMethodName cfg).
      split; [exact H5 | apply String.eqb_refl]. }
    now rewrite Hr.
  - intros H.
    assert (Hr : FlowCoordinator.receiver cfg = false).
    { unfold FlowCoordinator.receiver.
      destruct H as [-> | [-> | H]]; [reflexivity | |].
      - now destruct (FlowCoordinator.uiEntity cfg).
      - destruct (FlowCoordinator.uiEntity cfg) as [target|];
          [|reflexivity].
        rewrite (H target eq_refl).
        now destruct (String.eqb _ _). }
    now rewrite Hr.
Qed.

(** X19 with the default configuration: no UI entity. *)
Lemma showWaypoint_passes_on_witness :
  let cfg := FlowCoordinator.mkConfig None "" "showWaypoint" in
  fold_left (fun out d => FlowCoordinator._showWaypoint cfg d out)
            [1%Z; 2%Z] [] =
  [FlowCoordinator.UiWaypoint 1%Z; FlowCoordinator.UiWaypoint 2%Z].
Proof.
  intros cfg.
  exact (proj2 (proj2 (showWaypoint_passes_on Z cfg [1%Z; 2%Z]))
           (or_introl eq_refl)).
Defined.

(** ** A segment of the monolithic script *)

Module MonolithFacts.
Section Facts.

Variable waypointPositions : list Vec3.

Lemma indexRange_length a b :
  List.length (CameraWaypointPath.indexRange a b) = Z.to_nat (b - a + 1).
Proof.
  unfold CameraWaypointPath.indexRange. now rewrite length_map, length_seq.
Qed.

Lemma collect_length a b currentPos :
  List.length
    (CameraWaypointPath._collectSegmentPoints waypointPositions a b
       currentPos) = S (Z.to_nat (b - a + 1)).
Proof.
  unfold CameraWaypointPath._collectSegmentPoints. cbn [List.length].
  now rewrite length_map, indexRange_length.
Qed.

(** The chain of a segment closes with the segment's end waypoint. *)
Lemma collect_last a b currentPos p :
  (0 <= a <= b)%Z ->
  nth_error waypointPositions (Z.to_nat b) = Some p ->
  last (CameraWaypointPath._collectSegmentPoints waypointPositions a b
          currentPos) (mkVec3 0 0 0) = p.
Proof.
  intros Hab Hp. rewrite <- SamplerFacts.nth_last, collect_length.
  unfold CameraWaypointPath._collectSegmentPoints.
  set (f := fun idx =>
              CameraWaypointPath._toVec3
                (CameraWaypointPath.positionAt waypointPositions idx)
                currentPos).
  replace (S (Z.to_nat (b - a + 1)) - 1)%nat
    with (S (Z.to_nat (b - a))) by lia.
  cbn [nth].
  assert (Hf : f b = p).
  { unfold f, CameraWaypointPath.positionAt.
    replace (b <? 0)%Z with false by (symmetry; apply Z.ltb_ge; lia).
    now rewrite Hp. }
  rewrite <- Hf.
  apply nth_error_nth. rewrite nth_error_map.
  unfold CameraWaypointPath.indexRange. rewrite nth_error_map.
  rewrite (nth_error_nth' _ 0%nat) by (rewrite length_seq; lia).
  rewrite seq_nth by lia. cbn [option_map]. do 2 f_equal. lia.
Qed.

End Facts.
End MonolithFacts.

(** One turn of the loop of the monolithic [startPath], curve
    variant, on a segment [start <= end] whose end waypoint exists: it
    makes one task, whose samples are those of a chain that opens where
    the carry stands, and close on the end waypoint, at least four for
    each point of the segment and the closing one; the task lasts
    [minDuration] at least, turns from the carried orientation to the new
    one, and the carry moves to the end waypoint. *)
Lemma monolith_segmentStep_task (setFromEulerAngles : R -> R -> R -> Quat)
  (durationPerUnit minDuration : R) (waypointPositions : list Vec3)
  (waypointRotations : list RotValue) (c : CameraWaypointPath.Carry)
  (s : Segment) (p : Vec3) :
  (0 <= start s <= end_ s)%Z ->
  nth_error waypointPositions (Z.to_nat (end_ s)) = Some p ->
  let c' :=
    CameraWaypointPath.segmentStep setFromEulerAngles durationPerUnit
      minDuration waypointPositions waypointRotations c s in
  exists task samples,
    CameraWaypointPath.tasks c' = CameraWaypointPath.tasks c ++ [task] /\
    Tween.motion task =
      Tween.CurveMotion samples (CameraWaypointPath.currentRot c)
        (CameraWaypointPath.currentRot c') /\
    (exists chain sampleCount,
       samples =
         WaypointPathBuilder._sampleCurve chain (prevPoint s) (nextPoint s)
           sampleCount (7 / 10) /\
       hd_error chain = Some (CameraWaypointPath.currentPos c)) /\
    last samples (mkVec3 0 0 0) = p /\
    CameraWaypointPath.currentPos c' = p /\
    (4 * (end_ s - start s + 1) + 1 <= Z.of_nat (List.length samples))%Z /\
    minDuration <= Tween.duration task.
Proof.
  intros Hse Hp c'. unfold c', CameraWaypointPath.segmentStep.
  pose proof (MonolithFacts.collect_length waypointPositions (start s)
                (end_ s) (CameraWaypointPath.currentPos c)) as Hlen.
  pose proof (MonolithFacts.collect_last waypointPositions (start s)
                (end_ s) (CameraWaypointPath.currentPos c) p Hse Hp)
    as Hlast.
  set (pathPoints :=
         CameraWaypointPath._collectSegmentPoints waypointPositions
           (start s) (end_ s) (CameraWaypointPath.currentPos c)) in *.
  assert (H2 : (2 <= List.length pathPoints)%nat) by lia.
  replace (List.length pathPoints <? 2)%nat with false
    by (symmetry; apply Nat.ltb_ge; exact H2).
  set (sampleCount := Js.Math_max 24 _).
  set (samples :=
         WaypointPathBuilder._sampleCurve pathPoints (prevPoint s)
           (nextPoint s) sampleCount (7 / 10)).
  assert (Hend : last samples (mkVec3 0 0 0) = p).
  { unfold samples.
    rewrite (SamplerFacts.sampleCurve_long pathPoints _ _ _ _ H2).
    now rewrite last_last. }
  eexists. exists samples.
  cbn [CameraWaypointPath.tasks CameraWaypointPath.currentPos
       CameraWaypointPath.currentRot Tween.motion Tween.duration].
  split; [reflexivity|]. split; [reflexivity|]. split; [|split; [|split; [|split]]].
  - exists pathPoints, sampleCount. split; reflexivity.
  - exact Hend.
  - exact Hend.
  - pose proof (CountFacts.sampleCurve_length_min pathPoints (prevPoint s)
                  (nextPoint s) sampleCount (7 / 10) H2).
    fold samples in H. lia.
  - apply Rmax_r.
Qed.

(** ** From the path builder to the mover *)

Module PipelineFacts.
Import WaypointPathBuilder.

Lemma Forall2_map_left {A B C} (P : B -> C -> Prop) (h : A -> B) l :
  forall l', Forall2 P (map h l) l' -> Forall2 (fun a => P (h a)) l l'.
Proof.
  induction l as [|a l IH]; intros l' H; inversion H; subst;
    constructor; auto.
Qed.

Lemma Forall2_impl_In {A B} (P Q : A -> B -> Prop) l : forall l',
  (forall a x, In a l -> P a x -> Q a x) ->
  Forall2 P l l' -> Forall2 Q l l'.
Proof.
  induction l as [|a l IH]; intros l' H Hf; inversion Hf; subst;
    constructor.
  - apply H; [now left | assumption].
  - apply IH; [|assumption]. intros b x Hb. apply H. now right.
Qed.

Lemma filter_all {A} (f : A -> bool) l :
  (forall a, In a l -> f a = true) -> filter f l = l.
Proof.
  induction l as [|a l IH]; intros H; [reflexivity|].
  cbn [filter]. rewrite (H a (or_introl eq_refl)).
  f_equal. apply IH. intros b Hb. apply H. now right.
Qed.

Lemma handed_usable cfg positions pauses s :
  positions <> [] ->
  In s (_buildSegments positions pauses) ->
  usable (handed cfg positions s) = true.
Proof.
  intros Hne Hs.
  destruct (BuildFacts.segment_in_range positions pauses s Hne Hs)
    as [H1 H2].
  pose proof (BuildFacts.segmentPoints_length positions s ltac:(lia) H2)
    as Hlen.
  unfold usable, handed, pathSegmentOf, segmentCurve.
  cbn [CameraMover.samples samples].
  pose proof (CountFacts.sampleCurve_length_min (segmentPoints positions s)
                (prevPoint s) (nextPoint s)
                (sampleBudget cfg (_chainLength (segmentPoints positions s)))
                (catmullAlpha cfg) ltac:(lia)) as Hmin.
  apply negb_true_iff, Nat.ltb_ge. lia.
Qed.

(** The task of a handed segment notifies the segment's end waypoint, at
    the waypoint's own position. *)
Lemma handed_notifies cfgB cfgM positions pauses s x :
  positions <> [] ->
  In s (_buildSegments positions pauses) ->
  curveTask cfgM (handed cfgB positions s) x ->
  exists p,
    nth_error positions (Z.to_nat (end_ s)) = Some p /\
    notifies x (end_ s) p.
Proof.
  intros Hne Hs [samples [fromRot [toRot [Hsam [_ [_ [_ Hn]]]]]]].
  destruct (BuildFacts.segment_in_range positions pauses s Hne Hs)
    as [H1 H2].
  pose proof (BuildFacts.segmentPoints_length positions s ltac:(lia) H2)
    as Hlen.
  pose proof (BuildFacts.segmentPoints_last positions s ltac:(lia) H2)
    as Hlast.
  unfold handed, pathSegmentOf in Hsam.
  cbn [CameraMover.samples WaypointPathBuilder.samples] in Hsam.
  injection Hsam as <-.
  unfold waypointOf, handed, pathSegmentOf in Hn.
  cbn [CameraMover.endIndex endIndex] in Hn.
  unfold segmentCurve in Hn.
  rewrite (SamplerFacts.sampleCurve_long (segmentPoints positions s))
    in Hn by lia.
  rewrite last_last in Hn.
  eexists. split; [exact Hlast | exact Hn].
Qed.

Lemma pathOf_segments cfg positions pauses built rotations :
  positions <> [] ->
  buildPath cfg positions pauses = Some built ->
  CameraMover.segments (pathOf built rotations) =
  Some (map (handed cfg positions) (_buildSegments positions pauses)).
Proof.
  intros Hne Hb.
  rewrite (BuildFacts.buildPath_map cfg positions pauses Hne) in Hb.
  injection Hb as <-. unfold pathOf. cbn [CameraMover.segments].
  now rewrite map_map.
Qed.

End PipelineFacts.

(** X21.  Path builder and mover together, for at least two waypoints:
    [start] on the path that [buildPath] hands over creates one task for
    each segment of the Segmenter, none left out, that is one more than
    there are interior waypoints with a positive pause; the task of a
    segment notifies the segment's end waypoint with that waypoint's own
    position; the mover is running and has fired nothing. *)
Theorem path_ready_to_tasks (setFromEulerAngles : R -> R -> R -> Quat)
  (builder : WaypointPathBuilder.Config) (mover : CameraMover.Config)
  (positions rotations : list Vec3) (pauses : list R)
  (built : list WaypointPathBuilder.BuiltSegment) (w : CameraMover.World) :
  (2 <= List.length positions)%nat ->
  WaypointPathBuilder.buildPath builder positions pauses = Some built ->
  let w' :=
    CameraMover.start setFromEulerAngles mover
      (Some (pathOf built rotations)) w in
  Forall2 (fun s x =>
             exists p,
               nth_error positions (Z.to_nat (end_ s)) = Some p /\
               notifies x (end_ s) p)
          (WaypointPathBuilder._buildSegments positions pauses)
          (created w w') /\
  List.length (created w w') =
    S (List.length (interiorPauses (List.length positions) pauses)) /\
  CameraMover._running w' = true /\
  CameraMover.fired w' = CameraMover.fired w.
Proof.
  intros HL Hb w'.
  assert (Hne : positions <> []) by (intros ->; simpl in HL; lia).
  pose proof (PipelineFacts.pathOf_segments builder positions pauses built
                rotations Hne Hb) as Hsegs.
  pose proof (SegmentFacts.buildSegments_length positions pauses HL)
    as Hcount.
  set (segs := WaypointPathBuilder._buildSegments positions pauses) in *.
  destruct (map (handed builder positions) segs)
    as [|s0 rest] eqn:Emap.
  { apply (f_equal (@List.length _)) in Emap.
    rewrite length_map in Emap. simpl in Emap. lia. }
  destruct (StartTaskFacts.start_created setFromEulerAngles mover
              (pathOf built rotations) s0 rest w Hsegs)
    as [news [Hk [Hf [_ [_ Hfields]]]]].
  fold w' in Hk, Hfields. rewrite <- Emap in Hf.
  rewrite PipelineFacts.filter_all in Hf.
  2:{ intros a Ha. apply in_map_iff in Ha. destruct Ha as [s [<- Hs]].
      exact (PipelineFacts.handed_usable builder positions pauses s Hne Hs). }
  apply PipelineFacts.Forall2_map_left in Hf.
  assert (Hnews :
    Forall2 (fun s x =>
               exists p,
                 nth_error positions (Z.to_nat (end_ s)) = Some p /\
                 notifies x (end_ s) p) segs news).
  { eapply PipelineFacts.Forall2_impl_In; [|exact Hf].
    intros s x Hs Hx.
    exact (PipelineFacts.handed_notifies builder mover positions pauses s x
             Hne Hs Hx). }
  assert (Hlen : List.length news = List.length segs)
    by (symmetry; exact (Forall2_length Hf)).
  assert (Hnn : news <> []).
  { intros ->. simpl in Hlen. lia. }
  destruct (Hfields Hnn) as [_ [Hr Hfired]].
  split.
  - eapply SequencerFacts.Forall2_kept_map; [|exact Hk | exact Hnews].
    intros s x y Hxy [p [Hp Hn]]. exists p. split; [exact Hp|].
    eapply SequencerFacts.notifies_kept; eassumption.
  - split; [|split; [exact Hr | exact Hfired]].
    rewrite <- (Forall2_length Hk). lia.
Qed.

(** X21 at three waypoints with a pause at the middle one: two tasks. *)
Lemma path_ready_to_tasks_witness :
  let positions := [mkVec3 0 0 0; mkVec3 10 0 0; mkVec3 10 0 10] in
  let pauses := [0; 2; 0] in
  exists built,
    (2 <= List.length positions)%nat /\
    WaypointPathBuilder.buildPath WaypointPathBuilder.defaultConfig
      positions pauses = Some built /\
    CameraMover._running
      (CameraMover.start (fun _ _ _ => identityQuat)
         CameraMover.defaultConfig (Some (pathOf built []))
         (CameraMover.initial (mkVec3 0 0 0) identityQuat)) = true.
Proof.
  intros positions pauses.
  assert (HL : (2 <= List.length positions)%nat) by (simpl; lia).
  pose proof (BuildFacts.buildPath_map WaypointPathBuilder.defaultConfig
                positions pauses ltac:(discriminate)) as Hb.
  eexists. split; [exact HL|]. split; [exact Hb|].
  exact (proj1 (proj2 (proj2
           (path_ready_to_tasks (fun _ _ _ => identityQuat)
              WaypointPathBuilder.defaultConfig CameraMover.defaultConfig
              positions [] pauses _
              (CameraMover.initial (mkVec3 0 0 0) identityQuat) HL Hb)))).
Defined.

(** ** The path kept for looping *)

Module LoopFacts.
Section Facts.

Variable setFromEulerAngles : R -> R -> R -> Quat.
Variable cfg : CameraMover.Config.

Lemma launch_lastPath w :
  CameraMover._lastPath (CameraMover.launch w) = CameraMover._lastPath w.
Proof.
  unfold CameraMover.launch.
  destruct (CameraMover._tweens w); reflexivity.
Qed.

Lemma stop_lastPath restore w :
  CameraMover._lastPath (CameraMover.stop restore w) =
  CameraMover._lastPath w.
Proof. unfold CameraMover.stop. destruct restore; reflexivity. Qed.

Lemma segmentStep_lastPath path acc segment :
  CameraMover._lastPath
    (fst (CameraMover.segmentStep setFromEulerAngles cfg path acc segment))
  = CameraMover._lastPath (fst acc).
Proof.
  destruct acc as [w q]. unfold CameraMover.segmentStep.
  destruct (CameraMover.samples segment) as [samples|]; [|reflexivity].
  destruct (List.length samples <? 2)%nat; reflexivity.
Qed.

Lemma segments_lastPath path segs : forall acc,
  CameraMover._lastPath
    (fst (fold_left (CameraMover.segmentStep setFromEulerAngles cfg path)
            segs acc))
  = CameraMover._lastPath (fst acc).
Proof.
  induction segs as [|s segs IH]; intros acc; [reflexivity|].
  cbn [fold_left]. now rewrite IH, segmentStep_lastPath.
Qed.

Lemma hops_lastPath rotations positions : forall i acc,
  CameraMover._lastPath
    (fst (CameraMover.hops setFromEulerAngles cfg rotations i positions acc))
  = CameraMover._lastPath (fst acc).
Proof.
  induction positions as [|a rest IH]; intros i acc; [reflexivity|].
  destruct rest as [|b rest]; [reflexivity|].
  change (CameraMover.hops setFromEulerAngles cfg rotations i
            (a :: b :: rest) acc)
    with (CameraMover.hops setFromEulerAngles cfg rotations (i + 1)
            (b :: rest)
            (CameraMover.hopStep setFromEulerAngles cfg rotations i a b acc)).
  rewrite IH. now destruct acc.
Qed.

Lemma start_lastPath path w :
  CameraMover._lastPath (CameraMover.start setFromEulerAngles cfg path w) =
  CameraMover._lastPath w.
Proof.
  unfold CameraMover.start. destruct path as [p|]; [|reflexivity].
  destruct (CameraMover.segments p) as [[|s segs]|]; try reflexivity.
  rewrite launch_lastPath, segments_lastPath. cbn [fst].
  cbn [CameraMover.setRunning CameraMover._lastPath].
  apply stop_lastPath.
Qed.

Lemma startFromWaypoints_lastPath data w :
  CameraMover._lastPath
    (CameraMover.startFromWaypoints setFromEulerAngles cfg data w) =
  CameraMover._lastPath w.
Proof.
  unfold CameraMover.startFromWaypoints. destruct data as [d|]; [|reflexivity].
  destruct (CameraMover.wpPositions d) as [|p ps]; [reflexivity|].
  rewrite launch_lastPath, hops_lastPath. cbn [fst].
  cbn [CameraMover.setRunning CameraMover._lastPath].
  apply stop_lastPath.
Qed.

End Facts.
End LoopFacts.

(** X22.  Only the handler of [path:ready] writes [_lastPath]: [start],
    [startFromWaypoints], the handler of [waypoints:loaded], [stop] and
    [_onSequenceComplete] leave it as it is.  So in a mover that has
    received no path the end of a sequence fires the terminal
    notification and stops there, whatever [loop] is. *)
Theorem loop_needs_a_received_path (setFromEulerAngles : R -> R -> R -> Quat)
  (cfg : CameraMover.Config) (w : CameraMover.World) :
  (forall path,
     CameraMover._lastPath
       (CameraMover.start setFromEulerAngles cfg path w) =
     CameraMover._lastPath w) /\
  (forall data,
     CameraMover._lastPath
       (CameraMover.startFromWaypoints setFromEulerAngles cfg data w) =
     CameraMover._lastPath w) /\
  (forall data,
     CameraMover._lastPath
       (CameraMover._boundOnWaypoints setFromEulerAngles cfg data w) =
     CameraMover._lastPath w) /\
  (forall restore,
     CameraMover._lastPath (CameraMover.stop restore w) =
     CameraMover._lastPath w) /\
  CameraMover._lastPath
    (CameraMover._onSequenceComplete setFromEulerAngles cfg w) =
  CameraMover._lastPath w /\
  (forall path,
     CameraMover._lastPath
       (CameraMover._boundOnPath setFromEulerAngles cfg path w) = path) /\
  (CameraMover._lastPath w = None ->
   CameraMover._onSequenceComplete setFromEulerAngles cfg w =
   CameraMover._finish w).
Proof.
  split; [intros; apply LoopFacts.start_lastPath|].
  split; [intros; apply LoopFacts.startFromWaypoints_lastPath|].
  split.
  { intros data. unfold CameraMover._boundOnWaypoints.
    destruct (CameraMover._lastPath w) eqn:E; [exact E|].
    destruct (negb _); [exact E|].
    destruct (CameraMover.autoStart cfg); [|exact E].
    now rewrite LoopFacts.startFromWaypoints_lastPath. }
  split; [intros; apply LoopFacts.stop_lastPath|].
  split.
  { unfold CameraMover._onSequenceComplete.
    destruct (CameraMover.loop cfg); [|reflexivity].
    destruct (CameraMover._lastPath w) eqn:E; [|now rewrite <- E].
    now rewrite LoopFacts.start_lastPath. }
  split.
  { intros path. unfold CameraMover._boundOnPath.
    destruct (CameraMover.autoStart cfg); [|reflexivity].
    now rewrite LoopFacts.start_lastPath. }
  intros H. unfold CameraMover._onSequenceComplete. rewrite H.
  now destruct (CameraMover.loop cfg).
Qed.

(** X22 at a looping mover in the linear scenario: the sequence started
    from the waypoints ends with the terminal notification. *)
Lemma loop_needs_a_received_path_witness :
  let cfg := CameraMover.mkConfig "linear" (1 / 10) (1 / 10) true true true in
  let w :=
    CameraMover.startFromWaypoints Scenario.sfe cfg (Some Scenario.data)
      Scenario.w0 in
  CameraMover._lastPath w = None /\
  CameraMover.fired (CameraMover._onSequenceComplete Scenario.sfe cfg w) =
  [CameraPathComplete].
Proof.
  intros cfg w.
  assert (H : CameraMover._lastPath w = None) by reflexivity.
  split; [exact H|].
  rewrite (proj2 (proj2 (proj2 (proj2 (proj2 (proj2
             (loop_needs_a_received_path Scenario.sfe cfg w)))))) H).
  reflexivity.
Defined.

(** ** Which pauses split the path *)

Module SplitFacts.

(** Two strictly ascending lists with the same members are one list. *)
Lemma sorted_unique l1 : forall l2,
  StronglySorted Z.lt l1 -> StronglySorted Z.lt l2 ->
  (forall i, In i l1 <-> In i l2) -> l1 = l2.
Proof.
  induction l1 as [|a l1 IH]; intros l2 H1 H2 Hin.
  - destruct l2 as [|b l2]; [reflexivity|].
    destruct (proj2 (Hin b) (or_introl eq_refl)).
  - destruct l2 as [|b l2];
      [destruct (proj1 (Hin a) (or_introl eq_refl))|].
    inversion H1 as [|? ? H1' Ha]; subst.
    inversion H2 as [|? ? H2' Hb]; subst.
    rewrite Forall_forall in Ha, Hb.
    assert (Hab : a = b).
    { destruct (proj1 (Hin a) (or_introl eq_refl)) as [E | Ha2];
        [now symmetry|].
      destruct (proj2 (Hin b) (or_introl eq_refl)) as [E | Hb1];
        [exact E|].
      specialize (Ha _ Hb1). specialize (Hb _ Ha2). lia. }
    subst b. f_equal. apply IH; try assumption.
    intros i. split; intros Hi.
    + destruct (proj1 (Hin i) (or_intror Hi)) as [E | Hi2]; [|exact Hi2].
      specialize (Ha _ Hi). lia.
    + destruct (proj2 (Hin i) (or_intror Hi)) as [E | Hi1]; [|exact Hi1].
      specialize (Hb _ Hi). lia.
Qed.

End SplitFacts.

(** X23.  The Segmenter's answer depends on the pauses only through which
    interior waypoints have a positive one: two pause lists that agree on
    that give the same segments, whatever they hold at the first and the
    last waypoint, beyond the last one, or as the size of a pause. *)
Theorem only_interior_pauses_split (positions : list Vec3)
  (pauses pauses' : list R) :
  (forall i, (0 < i < List.length positions - 1)%nat ->
     (0 < WaypointPathBuilder.pauseAt pauses i <->
      0 < WaypointPathBuilder.pauseAt pauses' i)) ->
  WaypointPathBuilder._buildSegments positions pauses =
  WaypointPathBuilder._buildSegments positions pauses'.
Proof.
  intros H. unfold WaypointPathBuilder._buildSegments. f_equal.
  apply SplitFacts.sorted_unique;
    try apply SegmenterFacts.stopIndices_sorted.
  assert (Hone : forall p p' i,
            (forall k, (0 < k < List.length positions - 1)%nat ->
               0 < WaypointPathBuilder.pauseAt p k ->
               0 < WaypointPathBuilder.pauseAt p' k) ->
            In i (WaypointPathBuilder.stopIndices (List.length positions) p) ->
            In i (WaypointPathBuilder.stopIndices (List.length positions) p')).
  { intros p p' i Hp. rewrite !SegmenterFacts.stopIndices_In.
    intros [-> | [-> | [Hr Hpos]]]; [now left | right; now left |].
    destruct (Z.eq_dec i 0) as [-> | H0]; [now left|].
    destruct (Z.eq_dec i (Z.of_nat (List.length positions) - 1))
      as [-> | HL]; [right; now left|].
    right. right. split; [exact Hr|]. apply Hp; [lia | exact Hpos]. }
  intros i. split; apply Hone; intros k Hk; apply (H k Hk).
Qed.

(** X23 at three waypoints: a pause at the first and at the last one, and
    one past the end, split nothing. *)
Lemma only_interior_pauses_split_witness :
  let positions := [mkVec3 0 0 0; mkVec3 10 0 0; mkVec3 10 0 10] in
  WaypointPathBuilder._buildSegments positions [3; 0; 5; 7] =
  WaypointPathBuilder._buildSegments positions [].
Proof.
  intros positions.
  apply (only_interior_pauses_split positions [3; 0; 5; 7] []).
  intros i Hi. simpl in Hi.
  assert (i = 1%nat) as -> by lia.
  unfold WaypointPathBuilder.pauseAt. simpl. tauto.
Defined.

(** ** Loading in the monolithic scripts *)

Module MonolithLoadFacts.
Import CameraWaypointPathData.

Section Facts.

Variable Number : JsValue -> option R.
Variable JSON_parse : string -> option JsValue.
Variable decode : list ascii -> string.
Variable String_ : JsValue -> string.
Variables waypointDataFormat csvDelimiter : string.

(** The script's [_parseCsv] stores what the fetcher's returns. *)
Lemma parseCsv_stores text st :
  match WaypointFetcher._parseCsv Number csvDelimiter text with
  | Some payload => holds (_parseCsv Number csvDelimiter text st) payload
  | None => _parseCsv Number csvDelimiter text st = st
  end.
Proof.
  unfold WaypointFetcher._parseCsv, _parseCsv.
  destruct (WaypointFetcher.csvLines text) as [|l ls]; [reflexivity|].
  destruct (fold_left _ (l :: ls) _) as [[ps rs] ws].
  unfold holds, store. cbn. auto.
Qed.

(** The tail of [_applyWaypointData]: the pending start. *)
Lemma pending_tail (st1 : State) :
  let result :=
    if _pendingAutoStart st1
    then (mkState (waypointPositions st1) (waypointRotations st1)
                  (waypointPauses st1) false, true)
    else (st1, false) in
  sameWaypoints st1 (fst result) /\
  _pendingAutoStart (fst result) = false /\
  snd result = _pendingAutoStart st1.
Proof.
  cbv zeta. destruct (_pendingAutoStart st1) eqn:E; cbn;
    unfold sameWaypoints; cbn; auto.
Qed.

Lemma parseCsv_pending text st :
  _pendingAutoStart (_parseCsv Number csvDelimiter text st) =
  _pendingAutoStart st.
Proof.
  unfold _parseCsv. now destruct (WaypointFetcher.csvLines text).
Qed.

Lemma parseJson_pending json st :
  _pendingAutoStart (_parseJson Number json st) = _pendingAutoStart st.
Proof. unfold _parseJson. now destruct json. Qed.

End Facts.
End MonolithLoadFacts.

(** X24.  What [_applyWaypointData] of the monolithic scripts does to the
    stored waypoints.  Null data changes nothing.  Otherwise the pending
    auto-start is cleared and [startPath] is called exactly when one was
    pending.  On the format ["csv"] the stored arrays become those the
    CSV parser returns, also when it kept no row, and stay as they are
    when it returns null; on another format they stay as they are when
    [JSON.parse] throws or yields no array. *)
Theorem monolith_data_replaced (Number : JsValue -> option R)
  (JSON_parse : string -> option JsValue) (decode : list ascii -> string)
  (String_ : JsValue -> string) (waypointDataFormat csvDelimiter : string)
  (data : Data) (assetUrl : option string) (sourceUrl : string)
  (st : CameraWaypointPathData.State) :
  let result :=
    CameraWaypointPathData._applyWaypointData Number JSON_parse decode
      String_ waypointDataFormat csvDelimiter data assetUrl sourceUrl st in
  let format :=
    WaypointFetcherLoad.formatOf waypointDataFormat data assetUrl sourceUrl in
  let text := WaypointFetcherLoad._toText decode String_ data in
  (isNull data = true -> result = (st, false)) /\
  (isNull data = false ->
   CameraWaypointPathData._pendingAutoStart (fst result) = false /\
   snd result = CameraWaypointPathData._pendingAutoStart st /\
   (format = "csv"%string ->
    match WaypointFetcher._parseCsv Number csvDelimiter text with
    | Some payload => holds (fst result) payload
    | None => sameWaypoints st (fst result)
    end) /\
   (format <> "csv"%string ->
    (JSON_parse text = None \/
     exists json, JSON_parse text = Some json /\
                  forall rows, json <> JArr rows) ->
    sameWaypoints st (fst result))).
Proof.
  intros result format text. split.
  - intros Hnull. unfold result.
    destruct data as [[]| |]; try discriminate; reflexivity.
  - intros Hnull.
    assert (Hraw : match data with
                   | DValue (JStr s) => s
                   | _ => WaypointFetcherLoad._toText decode String_ data
                   end = text).
    { unfold text. now destruct data as [[]| |]. }
    set (st1 :=
           if String.eqb format "csv"
           then CameraWaypointPathData._parseCsv Number csvDelimiter text st
           else match JSON_parse text with
                | Some json => CameraWaypointPathData._parseJson Number json st
                | None => st
                end).
    assert (Hres : result =
                   if CameraWaypointPathData._pendingAutoStart st1
                   then (CameraWaypointPathData.mkState
                           (CameraWaypointPathData.waypointPositions st1)
                           (CameraWaypointPathData.waypointRotations st1)
                           (CameraWaypointPathData.waypointPauses st1) false,
                         true)
                   else (st1, false)).
    { unfold result, CameraWaypointPathData._applyWaypointData.
      fold format. rewrite Hraw. fold text. fold st1.
      destruct data as [[]| |]; try discriminate; reflexivity. }
    destruct (MonolithLoadFacts.pending_tail st1) as [Hsame [Hp Hs]].
    cbv zeta in Hsame, Hp, Hs. rewrite <- Hres in Hsame, Hp, Hs.
    assert (Hpend : CameraWaypointPathData._pendingAutoStart st1 =
                    CameraWaypointPathData._pendingAutoStart st).
    { unfold st1. destruct (String.eqb format "csv").
      - apply MonolithLoadFacts.parseCsv_pending.
      - destruct (JSON_parse text);
          [apply MonolithLoadFacts.parseJson_pending | reflexivity]. }
    destruct Hsame as [S1 [S2 S3]].
    split; [exact Hp|]. split; [now rewrite Hs|]. split.
    + intros Hf. unfold st1 in S1, S2, S3. rewrite Hf in S1, S2, S3.
      cbn [String.eqb] in S1, S2, S3.
      rewrite !Ascii.eqb_refl in S1, S2, S3.
      pose proof (MonolithLoadFacts.parseCsv_stores Number csvDelimiter
                    text st) as Hst.
      destruct (WaypointFetcher._parseCsv Number csvDelimiter text)
        as [payload|].
      * destruct Hst as [T1 [T2 T3]]. unfold holds.
        rewrite S1, S2, S3. auto.
      * rewrite Hst in S1, S2, S3. unfold sameWaypoints. auto.
    + intros Hf Hjson. apply String.eqb_neq in Hf.
      unfold st1 in S1, S2, S3. rewrite Hf in S1, S2, S3.
      unfold sameWaypoints.
      destruct Hjson as [Hnone | [json [Hsome Hnot]]].
      * rewrite Hnone in S1, S2, S3. auto.
      * rewrite Hsome in S1, S2, S3.
        assert (Hj : CameraWaypointPathData._parseJson Number json st = st).
        { destruct json; try reflexivity. now elim (Hnot items). }
        rewrite Hj in S1, S2, S3. auto.
Qed.

(** X24 at a text whose only rows are too short, from a state that holds
    a waypoint: the stored positions end up empty. *)
Lemma monolith_data_replaced_witness :
  let st :=
    CameraWaypointPathData.mkState [mkVec3 1 2 3] [mkVec3 0 0 0] [0] false in
  let text := String.append "1,2,3" (String Text.LF " 4,5,6,7,8 ") in
  let result :=
    CameraWaypointPathData._applyWaypointData Scenario.fieldValue
      (fun _ => None) (fun _ => ""%string) (fun _ => ""%string)
      "csv" "," (DValue (JStr text)) None "" st in
  CameraWaypointPathData.waypointPositions (fst result) = [].
Proof.
  intros st text result.
  pose proof (proj1 (proj2 (proj2
                (proj2 (monolith_data_replaced Scenario.fieldValue
                          (fun _ => None) (fun _ => ""%string)
                          (fun _ => ""%string) "csv" ","
                          (DValue (JStr text)) None "" st) eq_refl)))
                eq_refl) as H.
  cbn [WaypointFetcherLoad._toText] in H. unfold text in H.
  rewrite (ParserFacts.csv_short_row_dropped Scenario.fieldValue) in H.
  exact (proj1 H).
Defined.

(** X25.  The [_toVec3] of the monolithic scripts returns its fallback for
    an array and agrees with the fetcher's on an object with numeric [x],
    [y] and [z].  So a row whose position is the array [[x, y, z]] gives
    the origin in the monolithic [_parseJson] and the vector [(x, y, z)]
    in the fetcher's. *)
Theorem monolith_toVec3_ignores_arrays (Number : JsValue -> option R) :
  (forall r, Number (JNum r) = Some r) ->
  (forall items fallback,
     CameraWaypointPathData._toVec3 (JArr items) fallback = fallback) /\
  (forall fields x y z fallback,
     WaypointFetcher.lookup "x" fields = JNum x ->
     WaypointFetcher.lookup "y" fields = JNum y ->
     WaypointFetcher.lookup "z" fields = JNum z ->
     CameraWaypointPathData._toVec3 (JObj fields) fallback = mkVec3 x y z /\
     WaypointFetcher._toVec3 Number (JObj fields) = mkVec3 x y z) /\
  (forall x y z st,
     let json :=
       JArr [JObj [("position"%string, JArr [JNum x; JNum y; JNum z])]] in
     CameraWaypointPathData.waypointPositions
       (CameraWaypointPathData._parseJson Number json st) = [mkVec3 0 0 0] /\
     option_map positions (WaypointFetcher._parseJson Number json) =
       Some [mkVec3 x y z]).
Proof.
  intros Hnum.
  assert (Hn : forall r, WaypointFetcher.numberOr0 Number (JNum r) = r).
  { intros r. unfold WaypointFetcher.numberOr0. rewrite Hnum.
    apply ParserFacts.or_num_0. }
  split; [reflexivity|]. split.
  - intros fields x y z fallback Hx Hy Hz.
    unfold CameraWaypointPathData._toVec3, WaypointFetcher._toVec3.
    cbn [WaypointFetcher.truthy WaypointFetcher.prop andb].
    rewrite Hx, Hy, Hz. split; reflexivity.
  - intros x y z st json. split.
    + reflexivity.
    + unfold json, WaypointFetcher._parseJson. cbn.
      now rewrite !Hn.
Qed.

(** X25 with the conversion of plain values, at the position
    [[1, 2, 3]]. *)
Lemma monolith_toVec3_ignores_arrays_witness :
  option_map positions
    (WaypointFetcher._parseJson WaypointFetcher.NumberOfValue
       (JArr [JObj [("position"%string, JArr [JNum 1; JNum 2; JNum 3])]])) =
  Some [mkVec3 1 2 3].
Proof.
  exact (proj2 (proj2 (proj2 (monolith_toVec3_ignores_arrays
                                WaypointFetcher.NumberOfValue
                                (fun r => eq_refl)))
                  1 2 3 (CameraWaypointPathData.mkState [] [] [] false))).
Defined.

(** ** The tasks of the monolithic [startPath] *)

Module MonolithRunFacts.
Section Facts.

Variable setFromEulerAngles : R -> R -> R -> Quat.
Variables durationPerUnit minDuration : R.
Variable waypointPositions : list Vec3.
Variable waypointRotations : list RotValue.

Let step :=
  CameraWaypointPath.segmentStep setFromEulerAngles durationPerUnit
    minDuration waypointPositions waypointRotations.

Let inside (s : Segment) : Prop :=
  (0 <= start s < end_ s)%Z /\
  (end_ s <= Z.of_nat (List.length waypointPositions) - 1)%Z.

(** The loop of [startPath] over segments inside the waypoint list. *)
Lemma loop_linked segs : forall c,
  Forall inside segs ->
  exists news,
    CameraWaypointPath.tasks (fold_left step segs c) =
      CameraWaypointPath.tasks c ++ news /\
    linked waypointPositions (CameraWaypointPath.currentPos c) segs news /\
    carried (CameraWaypointPath.currentRot c) news /\
    Forall (fun x => minDuration <= Tween.duration x) news.
Proof.
  induction segs as [|s segs IH]; intros c Hin.
  - exists []. cbn. rewrite app_nil_r. auto.
  - inversion Hin as [|? ? [Hs He] Hrest]; subst.
    destruct (SegmentFacts.pointAt_Some waypointPositions (end_ s)
                ltac:(lia)) as [p Hp].
    unfold WaypointPathBuilder.pointAt in Hp.
    destruct (monolith_segmentStep_task setFromEulerAngles durationPerUnit
                minDuration waypointPositions waypointRotations c s p
                ltac:(lia) Hp)
      as [task [samples [Ht [Hm [[chain [sampleCount [Hsam Hhd]]]
                                   [Hlast [Hpos [_ Hdur]]]]]]]].
    fold step in Ht, Hm, Hpos.
    destruct (IH (step c s) Hrest) as [news [Hn [Hl [Hc Hd]]]].
    exists (task :: news). cbn [fold_left].
    split; [rewrite Hn, Ht, <- app_assoc; reflexivity|].
    split.
    + cbn [linked]. exists samples. eexists. eexists.
      exists p, chain, sampleCount.
      split; [exact Hm|]. split; [exact Hsam|]. split; [exact Hhd|].
      split; [exact Hp|].
      split; [exact Hlast|]. now rewrite <- Hpos.
    + split; [|constructor; assumption].
      cbn [carried]. eexists. split; [|exact Hc].
      unfold turnOf. now rewrite Hm.
Qed.

Lemma linked_length positions segs : forall from tasks,
  linked positions from segs tasks ->
  List.length tasks = List.length segs.
Proof.
  induction segs as [|s segs IH]; intros from [|x tasks] H;
    cbn [linked] in H; try contradiction; [reflexivity|].
  destruct H as [? [? [? [p [? [? [_ [_ [_ [_ [_ H]]]]]]]]]]].
  cbn [List.length]. f_equal. exact (IH _ _ H).
Qed.

End Facts.
End MonolithRunFacts.

(** X20.  The tasks the monolithic [startPath], curve variant, builds for
    at least two waypoints: one for each segment of [_buildSegments], that
    is one more than there are interior waypoints with a positive pause.
    The samples of each are those of a chain that opens where the entity
    stands, for the first, and where the samples of the task before closed,
    for every next one; they close on the waypoint the segment ends at
    itself; the orientations are carried the same way from the entity's
    own; every task lasts [minDuration] at least. *)
Theorem monolith_tasks_linked (setFromEulerAngles : R -> R -> R -> Quat)
  (durationPerUnit minDuration : R) (waypointPositions : list Vec3)
  (waypointRotations : list RotValue) (waypointPauses : list R)
  (entityPos : Vec3) (entityRot : Quat) :
  (2 <= List.length waypointPositions)%nat ->
  let tasks :=
    CameraWaypointPathRun.startPathTweens setFromEulerAngles durationPerUnit
      minDuration waypointPositions waypointRotations waypointPauses
      entityPos entityRot in
  linked waypointPositions entityPos
    (WaypointPathBuilder._buildSegments waypointPositions waypointPauses)
    tasks /\
  List.length tasks =
    S (List.length
         (interiorPauses (List.length waypointPositions) waypointPauses)) /\
  carried entityRot tasks /\
  Forall (fun x => minDuration <= Tween.duration x) tasks.
Proof.
  intros HL tasks.
  assert (Hne : waypointPositions <> []) by (intros ->; simpl in HL; lia).
  assert (Hin : Forall
                  (fun s =>
                     (0 <= start s < end_ s)%Z /\
                     (end_ s <=
                      Z.of_nat (List.length waypointPositions) - 1)%Z)
                  (WaypointPathBuilder._buildSegments waypointPositions
                     waypointPauses)).
  { apply Forall_forall. intros s Hs.
    exact (BuildFacts.segment_in_range _ _ s Hne Hs). }
  destruct (MonolithRunFacts.loop_linked setFromEulerAngles durationPerUnit
              minDuration waypointPositions waypointRotations _
              (CameraWaypointPath.mkCarry [] entityPos entityRot) Hin)
    as [news [Hn [Hl [Hc Hd]]]].
  cbn [CameraWaypointPath.tasks CameraWaypointPath.currentPos
       CameraWaypointPath.currentRot app] in Hn, Hl, Hc.
  assert (Ht : tasks = news).
  { unfold tasks, CameraWaypointPathRun.startPathTweens.
    destruct waypointPositions; [congruence | exact Hn]. }
  rewrite Ht. split; [exact Hl|]. split; [|split; assumption].
  rewrite (MonolithRunFacts.linked_length _ _ _ _ Hl).
  now apply SegmentFacts.buildSegments_length.
Qed.

(** X20 at three waypoints with a pause at the middle one, the entity
    standing at the first: two tasks. *)
Lemma monolith_tasks_linked_witness :
  let positions := [mkVec3 0 0 0; mkVec3 10 0 0; mkVec3 10 0 10] in
  (2 <= List.length positions)%nat /\
  List.length
    (CameraWaypointPathRun.startPathTweens (fun _ _ _ => identityQuat)
       (1 / 10) (1 / 10) positions [] [0; 2; 0] (mkVec3 0 0 0)
       identityQuat) =
  S (List.length (interiorPauses 3 [0; 2; 0])).
Proof.
  intros positions.
  assert (HL : (2 <= List.length positions)%nat) by (simpl; lia).
  split; [exact HL|].
  exact (proj1 (proj2
           (monolith_tasks_linked (fun _ _ _ => identityQuat) (1 / 10)
              (1 / 10) positions [] [0; 2; 0] (mkVec3 0 0 0) identityQuat
              HL))).
Defined.

(** ** A path after the waypoints *)

(** X26.  A mover with [autoStart] on that has handled [waypoints:loaded],
    whatever its movement mode, and then receives [path:ready] with a path
    that has a usable segment: it plays the path.  [_tweens] holds the
    handles of the path's curve tasks, all of them created by this call,
    so no handle of an earlier hop; the path is kept in [_lastPath]; and
    from then on the handler of [waypoints:loaded] does nothing. *)
Theorem path_ready_overrides_waypoints
  (setFromEulerAngles : R -> R -> R -> Quat) (cfg : CameraMover.Config)
  (data : option CameraMover.Waypoints) (p : CameraMover.Path)
  (segs : list CameraMover.PathSegment) (w : CameraMover.World) :
  CameraMover.autoStart cfg = true ->
  CameraMover.segments p = Some segs ->
  existsb usable segs = true ->
  let w1 := CameraMover._boundOnWaypoints setFromEulerAngles cfg data w in
  let w2 := CameraMover._boundOnPath setFromEulerAngles cfg (Some p) w1 in
  Forall2 (curveTask cfg) (filter usable segs) (created w1 w2) /\
  CameraMover._tweens w2 =
    seq (List.length (CameraMover.tweens w1))
        (List.length (filter usable segs)) /\
  (forall id, In id (CameraMover._tweens w2) ->
     (List.length (CameraMover.tweens w1) <= id)%nat) /\
  CameraMover._running w2 = true /\
  CameraMover._lastPath w2 = Some p /\
  (forall later,
     CameraMover._boundOnWaypoints setFromEulerAngles cfg later w2 = w2).
Proof.
  intros Hauto Hp Hu w1 w2.
  set (w1' := CameraMover.setLastPath (Some p) w1).
  assert (Hw2 : w2 = CameraMover.start setFromEulerAngles cfg (Some p) w1').
  { unfold w2, CameraMover._boundOnPath. now rewrite Hauto. }
  destruct segs as [|s segs]; [discriminate|].
  destruct (StartTaskFacts.start_created setFromEulerAngles cfg p s segs w1'
              Hp) as [news [Hk [Hf [_ [_ Hfields]]]]].
  rewrite <- Hw2 in Hk, Hfields.
  change (created w1' w2) with (created w1 w2) in Hk.
  change (CameraMover.tweens w1') with (CameraMover.tweens w1) in Hfields.
  assert (Hne : news <> []).
  { intros ->. inversion Hf as [Hnil|]; subst.
    apply (TaskListFacts.filter_nonempty usable (s :: segs) Hu).
    now symmetry. }
  destruct (Hfields Hne) as [H1 [H2 _]].
  rewrite (Forall2_length Hf) in *.
  assert (Hlast : CameraMover._lastPath w2 = Some p).
  { rewrite Hw2. now rewrite LoopFacts.start_lastPath. }
  split.
  - eapply SequencerFacts.Forall2_kept_map; [|exact Hk | exact Hf].
    intros a x y. apply SequencerFacts.curveTask_kept.
  - split; [exact H1|]. split.
    + intros id Hid. rewrite H1 in Hid. apply in_seq in Hid. lia.
    + split; [exact H2|]. split; [exact Hlast|].
      intros later. unfold CameraMover._boundOnWaypoints.
      now rewrite Hlast.
Qed.

(** X26 in the linear scenario: the hops are created, then a path with
    one segment arrives. *)
Lemma path_ready_overrides_waypoints_witness :
  let cfg := CameraMover.mkConfig "linear" (1 / 10) (1 / 10) true false true in
  let segs :=
    [CameraMover.mkPathSegment (Some [Scenario.A; Scenario.B]) None 0
       (Some 1%Z)] in
  let p := CameraMover.mkPath (Some segs) None in
  let w1 :=
    CameraMover._boundOnWaypoints Scenario.sfe cfg (Some Scenario.data)
      Scenario.w0 in
  let w2 := CameraMover._boundOnPath Scenario.sfe cfg (Some p) w1 in
  CameraMover._tweens w1 = [0%nat; 1%nat] /\
  existsb usable segs = true /\
  CameraMover._tweens w2 = [2%nat].
Proof.
  intros cfg segs p w1 w2.
  assert (Hu : existsb usable segs = true) by reflexivity.
  split; [reflexivity|]. split; [exact Hu|].
  exact (proj1 (proj2
           (path_ready_overrides_waypoints Scenario.sfe cfg
              (Some Scenario.data) p segs Scenario.w0 eq_refl eq_refl Hu))).
Defined.
